(** * Setun: a balanced-ternary emulator and its debugger core

    A shallow embedding of the class [SetunEmulator] (numeral codec, program
    loader, fetch/decode/execute cycle, breakpoints, execution history) and
    the properties its specification states about it.

    Modelling conventions.
    - JavaScript numbers that hold integers are values of [Z].  The embedding
      is exact while every value stays a safe integer (magnitude below 2^53);
      beyond that the host rounds and the embedding does not.  The one
      exception is the parser [fromBalancedTernary], which ordinary input (a
      numeral of 35 digits) takes out of the safe integers: its arithmetic is
      embedded as binary64 arithmetic, on the type [number].
    - A JavaScript string is the list of its UTF-16 code units ([N]); indexing
      [s[i]] and regular expressions without the [u] flag work on code units.
    - Arrays are lists, [Set]s of numbers are [gset Z].
    - A method is a function from the emulator record to an [outcome]: the
      value returned or the [Error] thrown, the emulator as the call leaves
      it, and the callbacks the call fired, in order.  Callbacks are
      observers: [onHalt], [onError] and [onStateChange] record whether a
      handler is installed, and firing one appends an [event]. *)

From Equations Require Import Equations.
From stdpp Require Import gmap list.
From Stdlib Require Import ZArith Lia.
From Stdlib Require String Ascii.
Import String.StringSyntax.

Local Open Scope Z_scope.

(** ** Strings *)

Definition js_string := list N.

(** An ASCII literal as a JavaScript string. *)
Definition lit (s : String.string) : js_string :=
  map Ascii.N_of_ascii (String.list_ascii_of_string s).
Arguments lit s%_string_scope.

Definition ch_minus : N := 45.         (* '-' *)
Definition ch_minus_sign : N := 8722.  (* U+2212, the alternate minus glyph *)
Definition ch_underscore : N := 95.    (* '_' *)
Definition ch_zero : N := 48.          (* '0' *)
Definition ch_plus : N := 43.          (* '+' *)
Definition ch_one : N := 49.           (* '1' *)

(** The class [\s] of a JavaScript regular expression, which is also what
    [String.prototype.trim] strips. *)
Definition isWhitespace (c : N) : bool :=
  ((9 <=? c) && (c <=? 13) || (c =? 32) || (c =? 160) || (c =? 5760)
   || (8192 <=? c) && (c <=? 8202) || (c =? 8232) || (c =? 8233)
   || (c =? 8239) || (c =? 8287) || (c =? 12288) || (c =? 65279))%N.

(** ** Thrown errors and results *)

Inductive exn : Type :=
  | InvalidTernaryDigit (char : N)
      (* `Invalid ternary digit: ${char}` *)
  | InvalidTernaryAt (i : nat) (token : js_string)
      (* `Invalid ternary at position ${i}: ${token}` *)
  | ErrorParsingInstruction (i : nat) (inner : exn)
      (* `Error parsing instruction ${i}: ${e.message}` *)
  | ProtectedMemoryWrite (addr : Z).
      (* `Cannot write to protected memory address ${addr}` *)

(** How a call completes: it returns a value or throws. *)
Inductive completion (A : Type) : Type :=
  | Return (a : A)
  | Throw (e : exn).
Arguments Return {A} a.
Arguments Throw {A} e.

(** ** The numbers of the parser *)

(** The binary64 numbers the parser can produce: those with an integer value
    (the two zeros are one value here: the parser never tells them apart),
    the two infinities, and NaN. *)
Inductive number : Type :=
  | Finite (value : Z)
  | PlusInfinity
  | MinusInfinity
  | NaN.

(** The binary64 number nearest to an integer, ties to the even
    significand (53 bits); an integer that rounds to 2^1024 or more in
    magnitude gives an infinity. *)
Definition roundDouble (z : Z) : number :=
  let magnitude := Z.abs z in
  if magnitude <? 2 ^ 53 then Finite z
  else
    let exponent := Z.log2 magnitude - 52 in
    let significand := magnitude / 2 ^ exponent in
    let remainder := magnitude mod 2 ^ exponent in
    let half := 2 ^ (exponent - 1) in
    let rounded :=
      if remainder <? half then significand
      else if half <? remainder then significand + 1
      else if Z.even significand then significand
      else significand + 1 in
    if rounded * 2 ^ exponent >=? 2 ^ 1024
    then (if z <? 0 then MinusInfinity else PlusInfinity)
    else Finite (Z.sgn z * (rounded * 2 ^ exponent)).

(** [a + b] *)
Definition numberAdd (a b : number) : number :=
  match a, b with
  | Finite x, Finite y => roundDouble (x + y)
  | NaN, _ | _, NaN => NaN
  | PlusInfinity, MinusInfinity | MinusInfinity, PlusInfinity => NaN
  | PlusInfinity, _ | _, PlusInfinity => PlusInfinity
  | MinusInfinity, _ | _, MinusInfinity => MinusInfinity
  end.

(** [a * b] *)
Definition numberMul (a b : number) : number :=
  match a, b with
  | Finite x, Finite y => roundDouble (x * y)
  | NaN, _ | _, NaN => NaN
  | Finite x, PlusInfinity | PlusInfinity, Finite x =>
      if x =? 0 then NaN else if x <? 0 then MinusInfinity else PlusInfinity
  | Finite x, MinusInfinity | MinusInfinity, Finite x =>
      if x =? 0 then NaN else if x <? 0 then PlusInfinity else MinusInfinity
  | PlusInfinity, PlusInfinity | MinusInfinity, MinusInfinity => PlusInfinity
  | PlusInfinity, MinusInfinity | MinusInfinity, PlusInfinity => MinusInfinity
  end.

(** [Math.pow(3, power)] for the integers [power >= 0] of the parser.  The
    language leaves the accuracy of [Math.pow] to the host; the embedding
    takes the correctly rounded power.  Up to [power = 33] the power is a
    safe integer and the result is exact on any host; 3^34 is the first
    power that binary64 cannot hold (it rounds to 16677181699666568). *)
Definition pow3 (power : Z) : number := roundDouble (3 ^ power).

(** A number as a memory word.  The memory of the embedding holds integers:
    an infinity or NaN, which only a numeral of 648 digits or more parses
    to, has no representation there, and 0 stands in its place.  No
    statement about the value of a word covers such a numeral. *)
Definition wordOf (v : number) : Z :=
  match v with
  | Finite value => value
  | _ => 0
  end.

(** ** Numeral codec *)

(** The [while (n > 0)] loop of [toBalancedTernary]; [result.unshift] is a
    cons on the most-significant side. *)
Equations? toBalancedTernary_loop (n : Z) (result : list Z) : list Z
  by wf (Z.to_nat n) lt :=
  toBalancedTernary_loop n result with decide (0 < n) => {
    | right _ => result
    | left _ with decide (n mod 3 = 2) => {
      | left _ => toBalancedTernary_loop (n / 3 + 1) (-1 :: result)
      | right _ => toBalancedTernary_loop (n / 3) (n mod 3 :: result) } }.
Proof.
  - pose proof (Z.div_mod n 3 ltac:(lia)). lia.
  - pose proof (Z.div_mod n 3 ltac:(lia)).
    pose proof (Z.mod_pos_bound n 3 ltac:(lia)). lia.
Qed.

(** The symbol callback of the final [map]; a value outside -1, 0, 1 maps to
    [undefined], which [join('')] prints as the empty string. *)
Definition digitSymbol (d : Z) : js_string :=
  if d =? -1 then [ch_minus]
  else if d =? 0 then [ch_zero]
  else if d =? 1 then [ch_plus]
  else [].

Definition toBalancedTernary (decimal : Z) : js_string :=
  if decimal =? 0 then [ch_zero]
  else
    let n := Z.abs decimal in
    let isNegative := decimal <? 0 in
    let result := toBalancedTernary_loop n [] in
    let result := if isNegative then map Z.opp result else result in
    List.concat (map digitSymbol result).

(** The [if]/[else if] chain of [fromBalancedTernary]: the digit of a
    character, [None] where the source throws. *)
Definition digitOfChar (char : N) : option Z :=
  if ((char =? ch_minus) || (char =? ch_minus_sign) || (char =? ch_underscore))%N
  then Some (-1)
  else if (char =? ch_zero)%N then Some 0
  else if ((char =? ch_plus) || (char =? ch_one))%N then Some 1
  else None.

(** The [for] loop, running over the characters from the last to the first:
    [result += digit * Math.pow(3, power); power++], in binary64. *)
Fixpoint fromBalancedTernary_loop (chars_right_to_left : list N)
    (result : number) (power : Z) : completion number :=
  match chars_right_to_left with
  | [] => Return result
  | char :: rest =>
      match digitOfChar char with
      | Some digit =>
          fromBalancedTernary_loop rest
            (numberAdd result (numberMul (Finite digit) (pow3 power)))
            (power + 1)
      | None => Throw (InvalidTernaryDigit char)
      end
  end.

Definition fromBalancedTernary (ternary : js_string) : completion number :=
  if (length ternary =? 0)%nat then Return (Finite 0)
  else fromBalancedTernary_loop (rev ternary) (Finite 0) 0.

(** [/^[-−_0+1\s]*$/.test(str)] *)
Definition validTernaryChar (c : N) : bool :=
  ((c =? ch_minus) || (c =? ch_minus_sign) || (c =? ch_underscore)
   || (c =? ch_zero) || (c =? ch_plus) || (c =? ch_one))%N
  || isWhitespace c.

Definition validateTernary (str : js_string) : bool :=
  forallb validTernaryChar str.

(** [String.prototype.trim]: strip the whitespace of both ends. *)
Fixpoint dropLeadingWhitespace (s : js_string) : js_string :=
  match s with
  | c :: rest => if isWhitespace c then dropLeadingWhitespace rest else s
  | [] => []
  end.

Definition trim (s : js_string) : js_string :=
  rev (dropLeadingWhitespace (rev (dropLeadingWhitespace s))).

(** [split(/\s+/)]: the pieces between the maximal runs of whitespace; a
    string that starts or ends with whitespace yields an empty first or last
    piece. [cur] is the piece being read, reversed. *)
Fixpoint split_loop (s : js_string) (cur : js_string) (inSeparator : bool)
    : list js_string :=
  match s with
  | [] => [rev cur]
  | c :: rest =>
      if isWhitespace c then
        if inSeparator then split_loop rest cur true
        else rev cur :: split_loop rest [] true
      else split_loop rest (c :: cur) false
  end.

Definition splitWhitespace (s : js_string) : list js_string :=
  split_loop s [] false.


(** ** Debugger configuration values *)

(** [{type, address?, operator, value}]; a [type] or [operator] string the
    source does not test for is [TyOther] or [OpOther]. *)
Inductive conditionType : Type := TyAccumulator | TyMemory | TyOther.
Inductive comparison : Type := OpEq | OpNe | OpGt | OpLt | OpGe | OpLe | OpOther.

Record condition : Type := Condition {
  cond_type : conditionType;
  cond_address : option Z;
  cond_operator : comparison;
  cond_value : Z
}.

(** [{type, address?, label?}] *)
Record watch : Type := Watch {
  watch_type : conditionType;
  watch_address : option Z;
  watch_label : option js_string
}.

(** The object [saveStateToHistory] builds; the two arrays are copies. *)
Record snapshot : Type := Snapshot {
  saved_accumulator : Z;
  saved_programCounter : Z;
  saved_instructionRegister : Z;
  saved_memory : list Z;
  saved_callStack : list Z;
  saved_instructionCount : Z
}.

(** ** Callbacks *)

Inductive message : Type :=
  | HaltInstruction        (* 'Halt instruction (0) encountered' *)
  | InstructionLimit       (* 'Instruction limit reached (possible infinite loop)' *)
  | BreakpointHit (pc : Z) (* `Breakpoint hit at address ${pc}` *)
  | PcOutOfBounds          (* 'Program counter out of bounds' *)
  | EndOfMemory            (* 'End of memory reached' *)
  | CallStackOverflow      (* 'Call stack overflow' *)
  | ReturnEmptyStack       (* 'Return with empty call stack' *)
  | ConditionalBreakpoint (c : condition) (* `Conditional breakpoint: ${desc}` *)
  | NoHistory.             (* 'No execution history available' *)

(** One call of a callback. *)
Inductive event : Type :=
  | StateChange
  | Error (m : message)
  | Halt (m : message).

(** [if (this.cb) this.cb(...)] *)
Definition fire (installed : bool) (e : event) : list event :=
  if installed then [e] else [].

(** ** The emulator *)

Module OPCODES.
Definition HALT : Z := 0.
Definition ADD : Z := 1.
Definition SUB : Z := -1.
Definition LOAD : Z := 2.
Definition STORE : Z := -2.
Definition JMP : Z := 3.
Definition JZ : Z := 4.
Definition JNZ : Z := -4.
Definition JNP : Z := 5.
Definition SHL : Z := 6.
Definition SHR : Z := -6.
Definition CALL : Z := 7.
Definition RET : Z := -7.
Definition NEG : Z := 8.
Definition INC : Z := 9.
Definition DEC : Z := -9.
Definition LOADI : Z := 10.
Definition STOREI : Z := -10.
End OPCODES.

Record SetunEmulator : Type := Emulator {
  accumulator : Z;  (* Main register *)
  programCounter : Z;  (* Current instruction address *)
  instructionRegister : Z;  (* Current instruction *)
  memorySize : Z;  (* Configurable memory size *)
  memory : list Z;
  callStack : list Z;  (* Call stack for subroutines, top last *)
  maxCallDepth : Z;
  breakpoints : gset Z;  (* Memory addresses with breakpoints *)
  conditionalBreakpoints : list condition;
  executionHistory : list snapshot;  (* Oldest first *)
  maxHistorySize : Z;
  historyEnabled : bool;
  watches : list watch;
  protectedMemory : gset Z;  (* Addresses that are read-only *)
  memoryAccessCounts : list Z;
  heatmapEnabled : bool;
  running : bool;
  instructionCount : Z;
  maxInstructions : Z;  (* Prevent infinite loops *)
  hitBreakpoint : bool;
  onStateChange : bool;  (* Is a handler installed? *)
  onError : bool;
  onHalt : bool
}.

(** Field assignments, [this.f = v]. *)
Definition set_accumulator (v : Z) (s : SetunEmulator) : SetunEmulator :=
  {| accumulator := v; programCounter := programCounter s; instructionRegister
  := instructionRegister s; memorySize := memorySize s; memory := memory s;
  callStack := callStack s; maxCallDepth := maxCallDepth s; breakpoints :=
  breakpoints s; conditionalBreakpoints := conditionalBreakpoints s;
  executionHistory := executionHistory s; maxHistorySize := maxHistorySize s;
  historyEnabled := historyEnabled s; watches := watches s; protectedMemory :=
  protectedMemory s; memoryAccessCounts := memoryAccessCounts s;
  heatmapEnabled := heatmapEnabled s; running := running s; instructionCount
  := instructionCount s; maxInstructions := maxInstructions s; hitBreakpoint
  := hitBreakpoint s; onStateChange := onStateChange s; onError := onError s;
  onHalt := onHalt s |}.

Definition set_programCounter (v : Z) (s : SetunEmulator) : SetunEmulator :=
  {| accumulator := accumulator s; programCounter := v; instructionRegister :=
  instructionRegister s; memorySize := memorySize s; memory := memory s;
  callStack := callStack s; maxCallDepth := maxCallDepth s; breakpoints :=
  breakpoints s; conditionalBreakpoints := conditionalBreakpoints s;
  executionHistory := executionHistory s; maxHistorySize := maxHistorySize s;
  historyEnabled := historyEnabled s; watches := watches s; protectedMemory :=
  protectedMemory s; memoryAccessCounts := memoryAccessCounts s;
  heatmapEnabled := heatmapEnabled s; running := running s; instructionCount
  := instructionCount s; maxInstructions := maxInstructions s; hitBreakpoint
  := hitBreakpoint s; onStateChange := onStateChange s; onError := onError s;
  onHalt := onHalt s |}.

Definition set_instructionRegister (v : Z) (s : SetunEmulator) : SetunEmulator :=
  {| accumulator := accumulator s; programCounter := programCounter s;
  instructionRegister := v; memorySize := memorySize s; memory := memory s;
  callStack := callStack s; maxCallDepth := maxCallDepth s; breakpoints :=
  breakpoints s; conditionalBreakpoints := conditionalBreakpoints s;
  executionHistory := executionHistory s; maxHistorySize := maxHistorySize s;
  historyEnabled := historyEnabled s; watches := watches s; protectedMemory :=
  protectedMemory s; memoryAccessCounts := memoryAccessCounts s;
  heatmapEnabled := heatmapEnabled s; running := running s; instructionCount
  := instructionCount s; maxInstructions := maxInstructions s; hitBreakpoint
  := hitBreakpoint s; onStateChange := onStateChange s; onError := onError s;
  onHalt := onHalt s |}.

Definition set_memory (v : list Z) (s : SetunEmulator) : SetunEmulator :=
  {| accumulator := accumulator s; programCounter := programCounter s;
  instructionRegister := instructionRegister s; memorySize := memorySize s;
  memory := v; callStack := callStack s; maxCallDepth := maxCallDepth s;
  breakpoints := breakpoints s; conditionalBreakpoints :=
  conditionalBreakpoints s; executionHistory := executionHistory s;
  maxHistorySize := maxHistorySize s; historyEnabled := historyEnabled s;
  watches := watches s; protectedMemory := protectedMemory s;
  memoryAccessCounts := memoryAccessCounts s; heatmapEnabled := heatmapEnabled
  s; running := running s; instructionCount := instructionCount s;
  maxInstructions := maxInstructions s; hitBreakpoint := hitBreakpoint s;
  onStateChange := onStateChange s; onError := onError s; onHalt := onHalt s
  |}.

Definition set_callStack (v : list Z) (s : SetunEmulator) : SetunEmulator :=
  {| accumulator := accumulator s; programCounter := programCounter s;
  instructionRegister := instructionRegister s; memorySize := memorySize s;
  memory := memory s; callStack := v; maxCallDepth := maxCallDepth s;
  breakpoints := breakpoints s; conditionalBreakpoints :=
  conditionalBreakpoints s; executionHistory := executionHistory s;
  maxHistorySize := maxHistorySize s; historyEnabled := historyEnabled s;
  watches := watches s; protectedMemory := protectedMemory s;
  memoryAccessCounts := memoryAccessCounts s; heatmapEnabled := heatmapEnabled
  s; running := running s; instructionCount := instructionCount s;
  maxInstructions := maxInstructions s; hitBreakpoint := hitBreakpoint s;
  onStateChange := onStateChange s; onError := onError s; onHalt := onHalt s
  |}.

Definition set_breakpoints (v : gset Z) (s : SetunEmulator) : SetunEmulator :=
  {| accumulator := accumulator s; programCounter := programCounter s;
  instructionRegister := instructionRegister s; memorySize := memorySize s;
  memory := memory s; callStack := callStack s; maxCallDepth := maxCallDepth
  s; breakpoints := v; conditionalBreakpoints := conditionalBreakpoints s;
  executionHistory := executionHistory s; maxHistorySize := maxHistorySize s;
  historyEnabled := historyEnabled s; watches := watches s; protectedMemory :=
  protectedMemory s; memoryAccessCounts := memoryAccessCounts s;
  heatmapEnabled := heatmapEnabled s; running := running s; instructionCount
  := instructionCount s; maxInstructions := maxInstructions s; hitBreakpoint
  := hitBreakpoint s; onStateChange := onStateChange s; onError := onError s;
  onHalt := onHalt s |}.

Definition set_conditionalBreakpoints (v : list condition) (s : SetunEmulator) : SetunEmulator :=
  {| accumulator := accumulator s; programCounter := programCounter s;
  instructionRegister := instructionRegister s; memorySize := memorySize s;
  memory := memory s; callStack := callStack s; maxCallDepth := maxCallDepth
  s; breakpoints := breakpoints s; conditionalBreakpoints := v;
  executionHistory := executionHistory s; maxHistorySize := maxHistorySize s;
  historyEnabled := historyEnabled s; watches := watches s; protectedMemory :=
  protectedMemory s; memoryAccessCounts := memoryAccessCounts s;
  heatmapEnabled := heatmapEnabled s; running := running s; instructionCount
  := instructionCount s; maxInstructions := maxInstructions s; hitBreakpoint
  := hitBreakpoint s; onStateChange := onStateChange s; onError := onError s;
  onHalt := onHalt s |}.

Definition set_executionHistory (v : list snapshot) (s : SetunEmulator) : SetunEmulator :=
  {| accumulator := accumulator s; programCounter := programCounter s;
  instructionRegister := instructionRegister s; memorySize := memorySize s;
  memory := memory s; callStack := callStack s; maxCallDepth := maxCallDepth
  s; breakpoints := breakpoints s; conditionalBreakpoints :=
  conditionalBreakpoints s; executionHistory := v; maxHistorySize :=
  maxHistorySize s; historyEnabled := historyEnabled s; watches := watches s;
  protectedMemory := protectedMemory s; memoryAccessCounts :=
  memoryAccessCounts s; heatmapEnabled := heatmapEnabled s; running := running
  s; instructionCount := instructionCount s; maxInstructions :=
  maxInstructions s; hitBreakpoint := hitBreakpoint s; onStateChange :=
  onStateChange s; onError := onError s; onHalt := onHalt s |}.

Definition set_historyEnabled (v : bool) (s : SetunEmulator) : SetunEmulator :=
  {| accumulator := accumulator s; programCounter := programCounter s;
  instructionRegister := instructionRegister s; memorySize := memorySize s;
  memory := memory s; callStack := callStack s; maxCallDepth := maxCallDepth
  s; breakpoints := breakpoints s; conditionalBreakpoints :=
  conditionalBreakpoints s; executionHistory := executionHistory s;
  maxHistorySize := maxHistorySize s; historyEnabled := v; watches := watches
  s; protectedMemory := protectedMemory s; memoryAccessCounts :=
  memoryAccessCounts s; heatmapEnabled := heatmapEnabled s; running := running
  s; instructionCount := instructionCount s; maxInstructions :=
  maxInstructions s; hitBreakpoint := hitBreakpoint s; onStateChange :=
  onStateChange s; onError := onError s; onHalt := onHalt s |}.

Definition set_watches (v : list watch) (s : SetunEmulator) : SetunEmulator :=
  {| accumulator := accumulator s; programCounter := programCounter s;
  instructionRegister := instructionRegister s; memorySize := memorySize s;
  memory := memory s; callStack := callStack s; maxCallDepth := maxCallDepth
  s; breakpoints := breakpoints s; conditionalBreakpoints :=
  conditionalBreakpoints s; executionHistory := executionHistory s;
  maxHistorySize := maxHistorySize s; historyEnabled := historyEnabled s;
  watches := v; protectedMemory := protectedMemory s; memoryAccessCounts :=
  memoryAccessCounts s; heatmapEnabled := heatmapEnabled s; running := running
  s; instructionCount := instructionCount s; maxInstructions :=
  maxInstructions s; hitBreakpoint := hitBreakpoint s; onStateChange :=
  onStateChange s; onError := onError s; onHalt := onHalt s |}.

Definition set_protectedMemory (v : gset Z) (s : SetunEmulator) : SetunEmulator :=
  {| accumulator := accumulator s; programCounter := programCounter s;
  instructionRegister := instructionRegister s; memorySize := memorySize s;
  memory := memory s; callStack := callStack s; maxCallDepth := maxCallDepth
  s; breakpoints := breakpoints s; conditionalBreakpoints :=
  conditionalBreakpoints s; executionHistory := executionHistory s;
  maxHistorySize := maxHistorySize s; historyEnabled := historyEnabled s;
  watches := watches s; protectedMemory := v; memoryAccessCounts :=
  memoryAccessCounts s; heatmapEnabled := heatmapEnabled s; running := running
  s; instructionCount := instructionCount s; maxInstructions :=
  maxInstructions s; hitBreakpoint := hitBreakpoint s; onStateChange :=
  onStateChange s; onError := onError s; onHalt := onHalt s |}.

Definition set_memoryAccessCounts (v : list Z) (s : SetunEmulator) : SetunEmulator :=
  {| accumulator := accumulator s; programCounter := programCounter s;
  instructionRegister := instructionRegister s; memorySize := memorySize s;
  memory := memory s; callStack := callStack s; maxCallDepth := maxCallDepth
  s; breakpoints := breakpoints s; conditionalBreakpoints :=
  conditionalBreakpoints s; executionHistory := executionHistory s;
  maxHistorySize := maxHistorySize s; historyEnabled := historyEnabled s;
  watches := watches s; protectedMemory := protectedMemory s;
  memoryAccessCounts := v; heatmapEnabled := heatmapEnabled s; running :=
  running s; instructionCount := instructionCount s; maxInstructions :=
  maxInstructions s; hitBreakpoint := hitBreakpoint s; onStateChange :=
  onStateChange s; onError := onError s; onHalt := onHalt s |}.

Definition set_heatmapEnabled (v : bool) (s : SetunEmulator) : SetunEmulator :=
  {| accumulator := accumulator s; programCounter := programCounter s;
  instructionRegister := instructionRegister s; memorySize := memorySize s;
  memory := memory s; callStack := callStack s; maxCallDepth := maxCallDepth
  s; breakpoints := breakpoints s; conditionalBreakpoints :=
  conditionalBreakpoints s; executionHistory := executionHistory s;
  maxHistorySize := maxHistorySize s; historyEnabled := historyEnabled s;
  watches := watches s; protectedMemory := protectedMemory s;
  memoryAccessCounts := memoryAccessCounts s; heatmapEnabled := v; running :=
  running s; instructionCount := instructionCount s; maxInstructions :=
  maxInstructions s; hitBreakpoint := hitBreakpoint s; onStateChange :=
  onStateChange s; onError := onError s; onHalt := onHalt s |}.

Definition set_running (v : bool) (s : SetunEmulator) : SetunEmulator :=
  {| accumulator := accumulator s; programCounter := programCounter s;
  instructionRegister := instructionRegister s; memorySize := memorySize s;
  memory := memory s; callStack := callStack s; maxCallDepth := maxCallDepth
  s; breakpoints := breakpoints s; conditionalBreakpoints :=
  conditionalBreakpoints s; executionHistory := executionHistory s;
  maxHistorySize := maxHistorySize s; historyEnabled := historyEnabled s;
  watches := watches s; protectedMemory := protectedMemory s;
  memoryAccessCounts := memoryAccessCounts s; heatmapEnabled := heatmapEnabled
  s; running := v; instructionCount := instructionCount s; maxInstructions :=
  maxInstructions s; hitBreakpoint := hitBreakpoint s; onStateChange :=
  onStateChange s; onError := onError s; onHalt := onHalt s |}.

Definition set_instructionCount (v : Z) (s : SetunEmulator) : SetunEmulator :=
  {| accumulator := accumulator s; programCounter := programCounter s;
  instructionRegister := instructionRegister s; memorySize := memorySize s;
  memory := memory s; callStack := callStack s; maxCallDepth := maxCallDepth
  s; breakpoints := breakpoints s; conditionalBreakpoints :=
  conditionalBreakpoints s; executionHistory := executionHistory s;
  maxHistorySize := maxHistorySize s; historyEnabled := historyEnabled s;
  watches := watches s; protectedMemory := protectedMemory s;
  memoryAccessCounts := memoryAccessCounts s; heatmapEnabled := heatmapEnabled
  s; running := running s; instructionCount := v; maxInstructions :=
  maxInstructions s; hitBreakpoint := hitBreakpoint s; onStateChange :=
  onStateChange s; onError := onError s; onHalt := onHalt s |}.

Definition set_hitBreakpoint (v : bool) (s : SetunEmulator) : SetunEmulator :=
  {| accumulator := accumulator s; programCounter := programCounter s;
  instructionRegister := instructionRegister s; memorySize := memorySize s;
  memory := memory s; callStack := callStack s; maxCallDepth := maxCallDepth
  s; breakpoints := breakpoints s; conditionalBreakpoints :=
  conditionalBreakpoints s; executionHistory := executionHistory s;
  maxHistorySize := maxHistorySize s; historyEnabled := historyEnabled s;
  watches := watches s; protectedMemory := protectedMemory s;
  memoryAccessCounts := memoryAccessCounts s; heatmapEnabled := heatmapEnabled
  s; running := running s; instructionCount := instructionCount s;
  maxInstructions := maxInstructions s; hitBreakpoint := v; onStateChange :=
  onStateChange s; onError := onError s; onHalt := onHalt s |}.

Definition set_onStateChange (v : bool) (s : SetunEmulator) : SetunEmulator :=
  {| accumulator := accumulator s; programCounter := programCounter s;
  instructionRegister := instructionRegister s; memorySize := memorySize s;
  memory := memory s; callStack := callStack s; maxCallDepth := maxCallDepth
  s; breakpoints := breakpoints s; conditionalBreakpoints :=
  conditionalBreakpoints s; executionHistory := executionHistory s;
  maxHistorySize := maxHistorySize s; historyEnabled := historyEnabled s;
  watches := watches s; protectedMemory := protectedMemory s;
  memoryAccessCounts := memoryAccessCounts s; heatmapEnabled := heatmapEnabled
  s; running := running s; instructionCount := instructionCount s;
  maxInstructions := maxInstructions s; hitBreakpoint := hitBreakpoint s;
  onStateChange := v; onError := onError s; onHalt := onHalt s |}.

Definition set_onError (v : bool) (s : SetunEmulator) : SetunEmulator :=
  {| accumulator := accumulator s; programCounter := programCounter s;
  instructionRegister := instructionRegister s; memorySize := memorySize s;
  memory := memory s; callStack := callStack s; maxCallDepth := maxCallDepth
  s; breakpoints := breakpoints s; conditionalBreakpoints :=
  conditionalBreakpoints s; executionHistory := executionHistory s;
  maxHistorySize := maxHistorySize s; historyEnabled := historyEnabled s;
  watches := watches s; protectedMemory := protectedMemory s;
  memoryAccessCounts := memoryAccessCounts s; heatmapEnabled := heatmapEnabled
  s; running := running s; instructionCount := instructionCount s;
  maxInstructions := maxInstructions s; hitBreakpoint := hitBreakpoint s;
  onStateChange := onStateChange s; onError := v; onHalt := onHalt s |}.

Definition set_onHalt (v : bool) (s : SetunEmulator) : SetunEmulator :=
  {| accumulator := accumulator s; programCounter := programCounter s;
  instructionRegister := instructionRegister s; memorySize := memorySize s;
  memory := memory s; callStack := callStack s; maxCallDepth := maxCallDepth
  s; breakpoints := breakpoints s; conditionalBreakpoints :=
  conditionalBreakpoints s; executionHistory := executionHistory s;
  maxHistorySize := maxHistorySize s; historyEnabled := historyEnabled s;
  watches := watches s; protectedMemory := protectedMemory s;
  memoryAccessCounts := memoryAccessCounts s; heatmapEnabled := heatmapEnabled
  s; running := running s; instructionCount := instructionCount s;
  maxInstructions := maxInstructions s; hitBreakpoint := hitBreakpoint s;
  onStateChange := onStateChange s; onError := onError s; onHalt := v |}.
(** What a method call produces. *)
Record outcome (A : Type) : Type := Outcome {
  completed : completion A;   (* the value returned, or the error thrown *)
  final : SetunEmulator;      (* the emulator when the call ends *)
  fired : list event          (* the callbacks called, in order *)
}.
Arguments Outcome {A} completed final fired.
Arguments completed {A} o.
Arguments final {A} o.
Arguments fired {A} o.

(** [new SetunEmulator(memorySize)]; the default size is 81. *)
Definition constructor (memorySize : Z) : SetunEmulator :=
  {| accumulator := 0; programCounter := 0; instructionRegister := 0;
     memorySize := memorySize;
     memory := replicate (Z.to_nat memorySize) 0;
     callStack := []; maxCallDepth := 10;
     breakpoints := ∅; conditionalBreakpoints := [];
     executionHistory := []; maxHistorySize := 1000; historyEnabled := true;
     watches := [];
     protectedMemory := ∅;
     memoryAccessCounts := replicate (Z.to_nat memorySize) 0;
     heatmapEnabled := false;
     running := false; instructionCount := 0; maxInstructions := 10000;
     hitBreakpoint := false;
     onStateChange := false; onError := false; onHalt := false |}.

(** [this.memory.length] *)
Definition memoryLength (s : SetunEmulator) : Z := Z.of_nat (length (memory s)).

(** [this.memory[i]].  Every read of the source is guarded so that
    [0 <= i < this.memory.length] once [step] has checked the program
    counter; outside that range JavaScript yields [undefined], which the
    embedding does not represent and reads as 0. *)
Definition readMemory (s : SetunEmulator) (i : Z) : Z :=
  if i <? 0 then 0 else default 0 (memory s !! Z.to_nat i).

(** [this.memory[addr] = v], only used with [addr] in range. *)
Definition writeMemory (addr v : Z) (s : SetunEmulator) : SetunEmulator :=
  set_memory (<[Z.to_nat addr := v]> (memory s)) s.

(** [addr >= 0 && addr < this.memory.length] *)
Definition inMemory (s : SetunEmulator) (addr : Z) : bool :=
  (addr >=? 0) && (addr <? memoryLength s).

(** [if (this.heatmapEnabled) this.memoryAccessCounts[addr]++].  The counter
    array has the length of the memory from construction on. *)
Definition countAccess (addr : Z) (s : SetunEmulator) : SetunEmulator :=
  if heatmapEnabled s
  then set_memoryAccessCounts
         (alter (fun n => n + 1) (Z.to_nat addr) (memoryAccessCounts s)) s
  else s.

Definition canWriteToMemory (s : SetunEmulator) (addr : Z) : bool :=
  if (addr <? 0) || (addr >=? memoryLength s) then false
  else negb (bool_decide (addr ∈ protectedMemory s)).

Definition isMemoryProtected (s : SetunEmulator) (addr : Z) : bool :=
  bool_decide (addr ∈ protectedMemory s).

Definition protectMemoryRange (startAddr endAddr : Z) (s : SetunEmulator)
    : SetunEmulator :=
  foldl (fun s addr =>
           if inMemory s addr
           then set_protectedMemory ({[addr]} ∪ protectedMemory s) s
           else s)
        s (seqZ startAddr (endAddr - startAddr + 1)).

Definition clearHistory (s : SetunEmulator) : SetunEmulator :=
  set_executionHistory [] s.

Definition toggleHistory (enabled : bool) (s : SetunEmulator) : SetunEmulator :=
  let s := set_historyEnabled enabled s in
  if negb enabled then clearHistory s else s.

Definition reset (s : SetunEmulator) : outcome unit :=
  let s := set_accumulator 0 s in
  let s := set_programCounter 0 s in
  let s := set_instructionRegister 0 s in
  let s := set_memory (replicate (length (memory s)) 0) s in
  let s := set_callStack [] s in
  let s := set_running false s in
  let s := set_instructionCount 0 s in
  let s := set_hitBreakpoint false s in
  let s := clearHistory s in
  let s := set_memoryAccessCounts
             (replicate (length (memoryAccessCounts s)) 0) s in
  Outcome (Return tt) s (fire (onStateChange s) StateChange).

(** The loop of [loadProgram] from index [i] on. *)
Fixpoint loadTokens (i : nat) (tokens : list js_string) (s : SetunEmulator)
    : completion unit * SetunEmulator :=
  match tokens with
  | [] => (Return tt, s)
  | token :: rest =>
      if (i <? length (memory s))%nat then
        if negb (validateTernary token) then
          (Throw (InvalidTernaryAt i token), s)
        else
          match fromBalancedTernary token with
          | Return v =>
              loadTokens (S i) rest
                (set_memory (<[i := wordOf v]> (memory s)) s)
          | Throw e => (Throw (ErrorParsingInstruction i e), s)
          end
      else (Return tt, s)
  end.

Definition loadProgram (programText : js_string) (s : SetunEmulator)
    : outcome unit :=
  let r := reset s in
  if (length programText =? 0)%nat || (length (trim programText) =? 0)%nat
  then r
  else
    let tokens := splitWhitespace (trim programText) in
    let '(c, s') := loadTokens 0 tokens (final r) in
    Outcome c s' (fired r).

Definition decodeInstruction (instruction : Z) : Z * option Z :=
  (instruction, None).

(** [this.programCounter++] *)
Definition advance (s : SetunEmulator) : SetunEmulator :=
  set_programCounter (programCounter s + 1) s.

(** The body shared by the four jumps, once the operand word is known to be
    in memory: [addr = memory[pc]; if (addr in range) pc = addr - 1]. *)
Definition jump (s : SetunEmulator) : SetunEmulator :=
  let addr := readMemory s (programCounter s) in
  if inMemory s addr then set_programCounter (addr - 1) s else s.

(** [break] out of the [switch], that is [return true]. *)
Definition proceed (s : SetunEmulator) : outcome bool :=
  Outcome (Return true) s [].

Definition executeInstruction (opcode : Z) (operand : option Z)
    (s : SetunEmulator) : outcome bool :=
  if opcode =? OPCODES.HALT then
    Outcome (Return false) (set_running false s)
            (fire (onHalt s) (Halt HaltInstruction))
  else if opcode =? OPCODES.ADD then
    let s := advance s in
    proceed
      (if programCounter s <? memoryLength s
       then set_accumulator (accumulator s + readMemory s (programCounter s)) s
       else s)
  else if opcode =? OPCODES.SUB then
    let s := advance s in
    proceed
      (if programCounter s <? memoryLength s
       then set_accumulator (accumulator s - readMemory s (programCounter s)) s
       else s)
  else if opcode =? OPCODES.LOAD then
    let s := advance s in
    if programCounter s <? memoryLength s then
      let addr := readMemory s (programCounter s) in
      if inMemory s addr
      then proceed (countAccess addr (set_accumulator (readMemory s addr) s))
      else proceed s
    else proceed s
  else if opcode =? OPCODES.STORE then
    let s := advance s in
    if programCounter s <? memoryLength s then
      let addr := readMemory s (programCounter s) in
      if inMemory s addr then
        if canWriteToMemory s addr
        then proceed (countAccess addr (writeMemory addr (accumulator s) s))
        else Outcome (Throw (ProtectedMemoryWrite addr)) s []
      else proceed s
    else proceed s
  else if opcode =? OPCODES.JMP then
    let s := advance s in
    proceed (if programCounter s <? memoryLength s then jump s else s)
  else if opcode =? OPCODES.JZ then
    let s := advance s in
    proceed
      (if programCounter s <? memoryLength s
       then (if accumulator s =? 0 then jump s else s)
       else s)
  else if opcode =? OPCODES.JNZ then
    let s := advance s in
    proceed
      (if programCounter s <? memoryLength s
       then (if negb (accumulator s =? 0) then jump s else s)
       else s)
  else if opcode =? OPCODES.JNP then
    let s := advance s in
    proceed
      (if programCounter s <? memoryLength s
       then (if accumulator s >? 0 then jump s else s)
       else s)
  else if opcode =? OPCODES.SHL then
    proceed (set_accumulator (accumulator s * 3) s)
  else if opcode =? OPCODES.SHR then
    proceed (set_accumulator (accumulator s / 3) s)
  else if opcode =? OPCODES.CALL then
    if Z.of_nat (length (callStack s)) >=? maxCallDepth s then
      Outcome (Return false) (set_running false s)
              (fire (onError s) (Error CallStackOverflow))
    else
      let s := advance s in
      if programCounter s <? memoryLength s then
        let addr := readMemory s (programCounter s) in
        let s := set_callStack (callStack s ++ [programCounter s + 1]) s in
        proceed
          (if inMemory s addr then set_programCounter (addr - 1) s else s)
      else proceed s
  else if opcode =? OPCODES.RET then
    match last (callStack s) with
    | None =>                       (* this.callStack.length === 0 *)
        Outcome (Return false) (set_running false s)
                (fire (onHalt s) (Halt ReturnEmptyStack))
    | Some returnAddress =>         (* this.callStack.pop() *)
        let s := set_callStack (removelast (callStack s)) s in
        proceed (set_programCounter (returnAddress - 1) s)
    end
  else if opcode =? OPCODES.NEG then
    proceed (set_accumulator (- accumulator s) s)
  else if opcode =? OPCODES.INC then
    proceed (set_accumulator (accumulator s + 1) s)
  else if opcode =? OPCODES.DEC then
    proceed (set_accumulator (accumulator s - 1) s)
  else if opcode =? OPCODES.LOADI then
    let s := advance s in
    if programCounter s <? memoryLength s then
      let pointerAddr := readMemory s (programCounter s) in
      if inMemory s pointerAddr then
        let actualAddr := readMemory s pointerAddr in
        if inMemory s actualAddr
        then proceed (countAccess actualAddr
                        (set_accumulator (readMemory s actualAddr) s))
        else proceed s
      else proceed s
    else proceed s
  else if opcode =? OPCODES.STOREI then
    let s := advance s in
    if programCounter s <? memoryLength s then
      let pointerAddr := readMemory s (programCounter s) in
      if inMemory s pointerAddr then
        let actualAddr := readMemory s pointerAddr in
        if inMemory s actualAddr then
          if canWriteToMemory s actualAddr
          then proceed (countAccess actualAddr
                          (writeMemory actualAddr (accumulator s) s))
          else Outcome (Throw (ProtectedMemoryWrite actualAddr)) s []
        else proceed s
      else proceed s
    else proceed s
  else
    (* Unknown opcode - treat as NOP *)
    proceed s.

(** The [switch] over [condition.operator]. *)
Definition triggered (op : comparison) (currentValue value : Z) : bool :=
  match op with
  | OpEq => currentValue =? value
  | OpNe => negb (currentValue =? value)
  | OpGt => currentValue >? value
  | OpLt => currentValue <? value
  | OpGe => currentValue >=? value
  | OpLe => currentValue <=? value
  | OpOther => false
  end.

(** The value a condition looks at; [None] where the loop [continue]s. *)
Definition conditionValue (s : SetunEmulator) (c : condition) : option Z :=
  match cond_type c, cond_address c with
  | TyAccumulator, _ => Some (accumulator s)
  | TyMemory, Some address =>
      if inMemory s address then Some (readMemory s address) else None
  | _, _ => None
  end.

Fixpoint firstTriggered (s : SetunEmulator) (conditions : list condition)
    : option condition :=
  match conditions with
  | [] => None
  | c :: rest =>
      match conditionValue s c with
      | Some currentValue =>
          if triggered (cond_operator c) currentValue (cond_value c)
          then Some c
          else firstTriggered s rest
      | None => firstTriggered s rest
      end
  end.

Definition checkConditionalBreakpoints (s : SetunEmulator) : option condition :=
  firstTriggered s (conditionalBreakpoints s).

Definition currentSnapshot (s : SetunEmulator) : snapshot :=
  {| saved_accumulator := accumulator s;
     saved_programCounter := programCounter s;
     saved_instructionRegister := instructionRegister s;
     saved_memory := memory s;
     saved_callStack := callStack s;
     saved_instructionCount := instructionCount s |}.

Definition saveStateToHistory (s : SetunEmulator) : SetunEmulator :=
  let state := currentSnapshot s in
  let s := set_executionHistory (executionHistory s ++ [state]) s in
  if Z.of_nat (length (executionHistory s)) >? maxHistorySize s
  then set_executionHistory (tail (executionHistory s)) s   (* shift() *)
  else s.

Definition step (s : SetunEmulator) : outcome bool :=
  if instructionCount s >=? maxInstructions s then
    Outcome (Return false) (set_running false s)
            (fire (onError s) (Error InstructionLimit))
  else
    (* Save current state to history before executing *)
    let s := if historyEnabled s then saveStateToHistory s else s in
    (* Check for breakpoint at current address *)
    if bool_decide (programCounter s ∈ breakpoints s) then
      Outcome (Return false) (set_hitBreakpoint true (set_running false s))
              (fire (onHalt s) (Halt (BreakpointHit (programCounter s))))
    (* Fetch instruction *)
    else if (programCounter s <? 0) || (programCounter s >=? memoryLength s) then
      Outcome (Return false) (set_running false s)
              (fire (onHalt s) (Halt PcOutOfBounds))
    else
      let s := set_instructionRegister (readMemory s (programCounter s)) s in
      (* Decode and execute instruction *)
      let '(opcode, operand) := decodeInstruction (instructionRegister s) in
      let r := executeInstruction opcode operand s in
      match completed r with
      | Throw e => r
      | Return false => r
      | Return true =>
          let s := final r in
          (* Increment program counter *)
          let s := set_programCounter (programCounter s + 1) s in
          let s := set_instructionCount (instructionCount s + 1) s in
          (* Check conditional breakpoints *)
          match checkConditionalBreakpoints s with
          | Some triggeredCondition =>
              let s := set_hitBreakpoint true (set_running false s) in
              Outcome (Return false) s
                (fired r
                 ++ fire (onHalt s) (Halt (ConditionalBreakpoint triggeredCondition))
                 ++ fire (onStateChange s) StateChange)
          | None =>
              let notified := fired r ++ fire (onStateChange s) StateChange in
              (* Check if we've reached end of program *)
              if programCounter s >=? memoryLength s then
                Outcome (Return false) (set_running false s)
                        (notified ++ fire (onHalt s) (Halt EndOfMemory))
              else Outcome (Return true) s notified
          end
      end.

Definition addBreakpoint (address : Z) (s : SetunEmulator)
    : bool * SetunEmulator :=
  if inMemory s address
  then (true, set_breakpoints ({[address]} ∪ breakpoints s) s)
  else (false, s).

Definition removeBreakpoint (address : Z) (s : SetunEmulator)
    : bool * SetunEmulator :=
  (bool_decide (address ∈ breakpoints s),
   set_breakpoints (breakpoints s ∖ {[address]}) s).

Definition stepBack (s : SetunEmulator) : outcome bool :=
  match last (executionHistory s) with
  | None =>                         (* this.executionHistory.length === 0 *)
      Outcome (Return false) s (fire (onError s) (Error NoHistory))
  | Some prevState =>               (* this.executionHistory.pop() *)
      let s := set_executionHistory (removelast (executionHistory s)) s in
      let s := set_accumulator (saved_accumulator prevState) s in
      let s := set_programCounter (saved_programCounter prevState) s in
      let s := set_instructionRegister (saved_instructionRegister prevState) s in
      let s := set_memory (saved_memory prevState) s in
      let s := set_callStack (saved_callStack prevState) s in
      let s := set_instructionCount (saved_instructionCount prevState) s in
      Outcome (Return true) s (fire (onStateChange s) StateChange)
  end.

(** [k] calls in a row, whatever each returns or throws (the caller catches). *)
Definition steps (k : nat) (s : SetunEmulator) : SetunEmulator :=
  Nat.iter k (fun s => final (step s)) s.

Definition stepsBack (k : nat) (s : SetunEmulator) : SetunEmulator :=
  Nat.iter k (fun s => final (stepBack s)) s.
(** ** Specification-side notions *)

(** The value of a digit sequence, most-significant digit first: the sum of
    [digit * 3^power] with the last digit at power 0. *)
Fixpoint ternaryValue (digits : list Z) : Z :=
  match digits with
  | [] => 0
  | d :: rest => d * 3 ^ Z.of_nat (length rest) + ternaryValue rest
  end.

(** The same sum read from the least-significant end, starting at [power]. *)
Fixpoint weighted (power : Z) (digits : list Z) : Z :=
  match digits with
  | [] => 0
  | d :: rest => d * 3 ^ power + weighted (power + 1) rest
  end.

Definition isTrit (d : Z) : Prop := d = -1 \/ d = 0 \/ d = 1.

(** The characters [fromBalancedTernary] takes for a digit. *)
Definition accepted (c : N) : Prop := is_Some (digitOfChar c).

(** The digit symbols the specification documents: '-' or U+2212 for -1,
    '0' for 0, '+' or '1' for +1. *)
Definition documented (c : N) : Prop :=
  c = ch_minus \/ c = ch_minus_sign \/ c = ch_zero \/ c = ch_plus \/ c = ch_one.

(** The digit a character stands for (0 for a character that is no digit). *)
Definition digitValue (c : N) : Z := default 0 (digitOfChar c).

(** The emulator after the history step that opens [step]. *)
Definition recorded (s : SetunEmulator) : SetunEmulator :=
  if historyEnabled s then saveStateToHistory s else s.

(** The snapshot that unwinding the whole history leads back to. *)
Definition oldest (s : SetunEmulator) : snapshot :=
  hd (currentSnapshot s) (executionHistory s).

(** The settings and the debugger configuration, which no instruction
    changes. *)
Definition sameConfiguration (s s' : SetunEmulator) : Prop :=
  historyEnabled s' = historyEnabled s
  /\ maxHistorySize s' = maxHistorySize s
  /\ breakpoints s' = breakpoints s
  /\ conditionalBreakpoints s' = conditionalBreakpoints s
  /\ watches s' = watches s
  /\ protectedMemory s' = protectedMemory s
  /\ maxCallDepth s' = maxCallDepth s
  /\ maxInstructions s' = maxInstructions s
  /\ length (memory s') = length (memory s)
  /\ onStateChange s' = onStateChange s
  /\ onError s' = onError s
  /\ onHalt s' = onHalt s.

(** The emulator as [executeInstruction] receives it from [step]. *)
Definition fetched (s : SetunEmulator) : SetunEmulator :=
  set_instructionRegister (readMemory s (programCounter s)) (recorded s).

(** The effective target address of a store: the operand word of STORE, the
    word the operand of STOREI points to (when the operand is an address). *)
Definition storeTarget (opcode : Z) (s : SetunEmulator) : option Z :=
  let operand := readMemory s (programCounter s + 1) in
  if opcode =? OPCODES.STORE then Some operand
  else if opcode =? OPCODES.STOREI then
    if inMemory s operand then Some (readMemory s operand) else None
  else None.

(** What the constructor establishes and every method keeps: the access
    counters and the memory copies of the history have the length of the
    memory, so that an access counted for an address in memory falls inside
    the counter array. *)
Definition wellFormed (s : SetunEmulator) : Prop :=
  length (memoryAccessCounts s) = length (memory s)
  /\ Forall (fun saved => length (saved_memory saved) = length (memory s))
            (executionHistory s).

(** The emulator without what execution never reads: the history and the
    two status flags. *)
Definition machineView (s : SetunEmulator) : SetunEmulator :=
  set_executionHistory [] (set_running false (set_hitBreakpoint false s)).

(** A fresh 81-word machine with a program loaded. *)
Definition loaded (programText : String.string) : SetunEmulator :=
  final (loadProgram (lit programText) (constructor 81)).
Arguments loaded programText%_string_scope.

(** ** The remaining methods of the class *)

Definition toggleBreakpoint (address : Z) (s : SetunEmulator)
    : bool * SetunEmulator :=
  if bool_decide (address ∈ breakpoints s)
  then (false, (removeBreakpoint address s).2)
  else addBreakpoint address s.

Definition clearBreakpoints (s : SetunEmulator) : SetunEmulator :=
  set_breakpoints ∅ s.

(** [push] and the index of the new entry. *)
Definition addConditionalBreakpoint (c : condition) (s : SetunEmulator)
    : Z * SetunEmulator :=
  let s := set_conditionalBreakpoints (conditionalBreakpoints s ++ [c]) s in
  (Z.of_nat (length (conditionalBreakpoints s)) - 1, s).

(** [splice(index, 1)] behind the range test. *)
Definition removeConditionalBreakpoint (index : Z) (s : SetunEmulator)
    : bool * SetunEmulator :=
  if (index >=? 0) && (index <? Z.of_nat (length (conditionalBreakpoints s)))
  then (true,
        set_conditionalBreakpoints
          (delete (Z.to_nat index) (conditionalBreakpoints s)) s)
  else (false, s).

Definition clearConditionalBreakpoints (s : SetunEmulator) : SetunEmulator :=
  set_conditionalBreakpoints [] s.

Definition addWatch (w : watch) (s : SetunEmulator) : Z * SetunEmulator :=
  let s := set_watches (watches s ++ [w]) s in
  (Z.of_nat (length (watches s)) - 1, s).

Definition removeWatch (index : Z) (s : SetunEmulator) : bool * SetunEmulator :=
  if (index >=? 0) && (index <? Z.of_nat (length (watches s)))
  then (true, set_watches (delete (Z.to_nat index) (watches s)) s)
  else (false, s).

Definition clearWatches (s : SetunEmulator) : SetunEmulator :=
  set_watches [] s.

(** The [value] a watch is given: a number, [null], or [undefined] when no
    branch assigns it. *)
Inductive watchValue : Type :=
  | Number (z : Z)
  | Null
  | Undefined.

Definition watchValueOf (s : SetunEmulator) (w : watch) : watchValue :=
  match watch_type w, watch_address w with
  | TyAccumulator, _ => Number (accumulator s)
  | TyMemory, Some address =>
      if inMemory s address then Number (readMemory s address) else Null
  | _, _ => Undefined
  end.

(** [{ ...watch, value }] for every watch, in order. *)
Definition getWatchValues (s : SetunEmulator) : list (watch * watchValue) :=
  map (fun w => (w, watchValueOf s w)) (watches s).

Definition unprotectMemoryRange (startAddr endAddr : Z) (s : SetunEmulator)
    : SetunEmulator :=
  foldl (fun s addr => set_protectedMemory (protectedMemory s ∖ {[addr]}) s)
        s (seqZ startAddr (endAddr - startAddr + 1)).

Definition clearMemoryProtection (s : SetunEmulator) : SetunEmulator :=
  set_protectedMemory ∅ s.

Definition toggleHeatmap (s : SetunEmulator) : bool * SetunEmulator :=
  let s := set_heatmapEnabled (negb (heatmapEnabled s)) s in
  (heatmapEnabled s, s).

Definition clearHeatmap (s : SetunEmulator) : SetunEmulator :=
  set_memoryAccessCounts (replicate (length (memoryAccessCounts s)) 0) s.

(** [Math.max(...this.memoryAccessCounts)]; [None] is the [-Infinity] of an
    empty array. *)
Definition getMaxAccessCount (s : SetunEmulator) : option Z :=
  foldr (fun count best =>
           Some (match best with Some m => Z.max count m | None => count end))
        None (memoryAccessCounts s).

Delimit Scope string_scope with string.

(** [Object.entries(this.OPCODES)], in the order of the object literal. *)
Definition OPCODES_entries : list (String.string * Z) :=
  [("HALT", OPCODES.HALT); ("ADD", OPCODES.ADD); ("SUB", OPCODES.SUB);
   ("LOAD", OPCODES.LOAD); ("STORE", OPCODES.STORE); ("JMP", OPCODES.JMP);
   ("JZ", OPCODES.JZ); ("JNZ", OPCODES.JNZ); ("JNP", OPCODES.JNP);
   ("SHL", OPCODES.SHL); ("SHR", OPCODES.SHR); ("CALL", OPCODES.CALL);
   ("RET", OPCODES.RET); ("NEG", OPCODES.NEG); ("INC", OPCODES.INC);
   ("DEC", OPCODES.DEC); ("LOADI", OPCODES.LOADI);
   ("STOREI", OPCODES.STOREI)]%string.

Fixpoint firstNameOf (value : Z) (entries : list (String.string * Z))
    : String.string :=
  match entries with
  | [] => "DATA"%string
  | (name, opcode) :: rest =>
      if opcode =? value then name else firstNameOf value rest
  end.

Definition getOpcodeName (value : Z) : String.string :=
  firstNameOf value OPCODES_entries.

(** ** Sessions *)

(** A call a user of the class can make on an emulator: one of its methods
    that change it (the other methods only read), [executeInstruction] and
    [saveStateToHistory] among them, which [step] calls but which are as
    public as [step]; and the two assignments the page makes to its
    fields. *)
Inductive command : Type :=
  | Step
  | StepBack
  | Reset
  | LoadProgram (programText : js_string)
  | AddBreakpoint (address : Z)
  | RemoveBreakpoint (address : Z)
  | ToggleBreakpoint (address : Z)
  | ClearBreakpoints
  | AddConditionalBreakpoint (c : condition)
  | RemoveConditionalBreakpoint (index : Z)
  | ClearConditionalBreakpoints
  | AddWatch (w : watch)
  | RemoveWatch (index : Z)
  | ClearWatches
  | ProtectMemoryRange (startAddr endAddr : Z)
  | UnprotectMemoryRange (startAddr endAddr : Z)
  | ClearMemoryProtection
  | ToggleHistory (enabled : bool)
  | ClearHistory
  | ToggleHeatmap
  | ClearHeatmap
  | SetRunning (running : bool)          (* [emulator.running = ...] *)
  | SetCallbacks (onStateChange onError onHalt : bool)
  | ExecuteInstruction (opcode : Z) (operand : option Z)
  | SaveStateToHistory.

(** The emulator after a call, whatever the call returned or threw. *)
Definition perform (c : command) (s : SetunEmulator) : SetunEmulator :=
  match c with
  | Step => final (step s)
  | StepBack => final (stepBack s)
  | Reset => final (reset s)
  | LoadProgram programText => final (loadProgram programText s)
  | AddBreakpoint address => (addBreakpoint address s).2
  | RemoveBreakpoint address => (removeBreakpoint address s).2
  | ToggleBreakpoint address => (toggleBreakpoint address s).2
  | ClearBreakpoints => clearBreakpoints s
  | AddConditionalBreakpoint c => (addConditionalBreakpoint c s).2
  | RemoveConditionalBreakpoint index => (removeConditionalBreakpoint index s).2
  | ClearConditionalBreakpoints => clearConditionalBreakpoints s
  | AddWatch w => (addWatch w s).2
  | RemoveWatch index => (removeWatch index s).2
  | ClearWatches => clearWatches s
  | ProtectMemoryRange startAddr endAddr => protectMemoryRange startAddr endAddr s
  | UnprotectMemoryRange startAddr endAddr =>
      unprotectMemoryRange startAddr endAddr s
  | ClearMemoryProtection => clearMemoryProtection s
  | ToggleHistory enabled => toggleHistory enabled s
  | ClearHistory => clearHistory s
  | ToggleHeatmap => (toggleHeatmap s).2
  | ClearHeatmap => clearHeatmap s
  | SetRunning running => set_running running s
  | SetCallbacks c e h => set_onHalt h (set_onError e (set_onStateChange c s))
  | ExecuteInstruction opcode operand =>
      final (executeInstruction opcode operand s)
  | SaveStateToHistory => saveStateToHistory s
  end.

(** The calls of [executeInstruction] from outside [step]. *)
Definition direct (c : command) : bool :=
  match c with
  | ExecuteInstruction _ _ => true
  | _ => false
  end.

(** A sequence of calls, first call first. *)
Definition session (commands : list command) (s : SetunEmulator)
    : SetunEmulator :=
  foldl (fun s c => perform c s) s commands.

(** ** The editor's syntax check *)

(** [SetunApp.validateSyntax] of the page script, the guard of its [run] and
    [step]: the loop over the tokens, giving the position and the token of
    the message `Invalid ternary at token ${i + 1}: "${tokens[i]}"`. *)
Fixpoint checkTokens (i : nat) (tokens : list js_string)
    : option (nat * js_string) :=
  match tokens with
  | [] => None
  | token :: rest =>
      if negb (validateTernary token) then Some ((i + 1)%nat, token)
      else checkTokens (S i) rest
  end.

(** What the check leaves on the page. *)
Record syntaxReport : Type := SyntaxReport {
  syntaxError : option (nat * js_string);   (* the message shown, if any *)
  buttonsEnabled : bool                     (* the run and step buttons *)
}.

(** The value returned, and the page. *)
Definition validateSyntax (editorValue : js_string) : bool * syntaxReport :=
  let code := trim editorValue in
  if (length code =? 0)%nat then (true, SyntaxReport None false)
  else
    let tokens := splitWhitespace code in
    match checkTokens 0 tokens with
    | Some message => (false, SyntaxReport (Some message) false)
    | None => (true, SyntaxReport None true)
    end.

(** ** More specification-side notions *)

(** The three symbols [toBalancedTernary] writes. *)
Definition canonicalChar (c : N) : Prop :=
  c = ch_minus \/ c = ch_zero \/ c = ch_plus.

(** A numeral as [toBalancedTernary] writes it: the three symbols only, and
    no leading zero but for the numeral "0". *)
Definition isCanonical (s : js_string) : Prop :=
  Forall canonicalChar s /\ (s = [ch_zero] \/ hd ch_zero s <> ch_zero).

(** The word a token stands for. *)
Definition tokenValue (token : js_string) : Z :=
  ternaryValue (map digitValue token).

(** The word the loader stores for a token that [fromBalancedTernary]
    parses. *)
Definition storedWord (token : js_string) : Z :=
  match fromBalancedTernary token with
  | Return value => wordOf value
  | Throw _ => 0
  end.

(** A character that is not of the class [\s]. *)
Definition solid (c : N) : Prop := isWhitespace c = false.

(** What a set of registers, the current one or a saved one, satisfies on an
    emulator that has only been used through its methods.  The least program
    counter is [low]: 0 when [executeInstruction] is called by [step] only,
    which adds 1 after a jump to [addr - 1]; and -1 when it is called
    directly, too.  A return address is 2 above a program counter. *)
Definition snapshotInvariant (low : Z) (s : SetunEmulator) (saved : snapshot)
    : Prop :=
  length (saved_memory saved) = length (memory s)
  /\ low <= saved_programCounter saved
  /\ Forall (fun returnAddress => low + 2 <= returnAddress)
            (saved_callStack saved)
  /\ Z.of_nat (length (saved_callStack saved)) <= maxCallDepth s
  /\ 0 <= saved_instructionCount saved <= maxInstructions s.

(** The invariant of the class: the limits are not negative, the counters
    match the memory and are not negative, the registers and every snapshot
    of the history are within the limits, the history is within its bound,
    and the breakpoints and protected addresses are addresses of the
    memory. *)
Definition invariant (low : Z) (s : SetunEmulator) : Prop :=
  (0 <= maxCallDepth s /\ 0 <= maxInstructions s /\ 0 <= maxHistorySize s)
  /\ length (memoryAccessCounts s) = length (memory s)
  /\ Forall (fun count => 0 <= count) (memoryAccessCounts s)
  /\ snapshotInvariant low s (currentSnapshot s)
  /\ Forall (snapshotInvariant low s) (executionHistory s)
  /\ Z.of_nat (length (executionHistory s)) <= maxHistorySize s
  /\ (forall a, a ∈ breakpoints s -> inMemory s a = true)
  /\ (forall a, a ∈ protectedMemory s -> inMemory s a = true).

(** The settings that no method changes. *)
Definition limits (s : SetunEmulator) : Z * Z * Z * nat :=
  (maxCallDepth s, maxInstructions s, maxHistorySize s, length (memory s)).


(** The four jumps, and whether one is taken at a given accumulator. *)
Definition isJump (opcode : Z) : bool :=
  bool_decide (opcode ∈ [OPCODES.JMP; OPCODES.JZ; OPCODES.JNZ; OPCODES.JNP]).

Definition jumpTaken (opcode accumulator : Z) : bool :=
  if opcode =? OPCODES.JMP then true
  else if opcode =? OPCODES.JZ then accumulator =? 0
  else if opcode =? OPCODES.JNZ then negb (accumulator =? 0)
  else if opcode =? OPCODES.JNP then accumulator >? 0
  else false.

(** The guards of [step] before the fetch: the instruction limit, the
    address breakpoints and the bounds of the program counter. *)
Definition fetches (s : SetunEmulator) : Prop :=
  instructionCount s < maxInstructions s
  /\ (programCounter s ∉ breakpoints s)
  /\ 0 <= programCounter s < memoryLength s.

(** The newest [n] entries of a list that grows at its end. *)
Definition newest {A} (n : nat) (l : list A) : list A :=
  drop (length l - n) l.

(** The snapshots of the emulator before each of [k] steps. *)
Definition trace (k : nat) (s : SetunEmulator) : list snapshot :=
  map (fun j => currentSnapshot (steps j s)) (seq 0 k).


(** * Proof automation *)

(** Unfold the instruction semantics: the state changes only, or the tests
    on the memory as well. *)
Ltac unfold_exec :=
  unfold executeInstruction, proceed, jump, countAccess, writeMemory, advance.

Ltac unfold_exec_tests :=
  unfold_exec; unfold inMemory, canWriteToMemory, readMemory, memoryLength.

(** Decide a closed side condition by evaluation. *)
Ltac evaluate :=
  lazymatch goal with
  | |- ?x ∉ ?X =>
      apply (bool_decide_eq_false_1 (x ∈ X)); vm_compute; reflexivity
  | |- ?x ∈ ?X =>
      apply (bool_decide_eq_true_1 (x ∈ X)); vm_compute; reflexivity
  | |- _ => vm_compute; first [reflexivity | done | lia]
  end.

(** Reduce the opcode tests of [executeInstruction] at a known opcode. *)
Ltac dispatch :=
  cbv beta iota delta
    [Z.eqb Pos.eqb OPCODES.HALT OPCODES.ADD OPCODES.SUB OPCODES.LOAD
     OPCODES.STORE OPCODES.JMP OPCODES.JZ OPCODES.JNZ OPCODES.JNP OPCODES.SHL
     OPCODES.SHR OPCODES.CALL OPCODES.RET OPCODES.NEG OPCODES.INC OPCODES.DEC
     OPCODES.LOADI OPCODES.STOREI].

(** * Sanity checks *)

Example toBalancedTernary_5 : toBalancedTernary 5 = lit "+--".
Proof. reflexivity. Qed.
Example toBalancedTernary_m7 : toBalancedTernary (-7) = lit "-+-".
Proof. reflexivity. Qed.
Example fromBalancedTernary_ex :
  fromBalancedTernary (lit "+0-") = Return (Finite 8).
Proof. reflexivity. Qed.
Example split_ex : splitWhitespace (trim (lit "  + +0   0 ")) = [lit "+"; lit "+0"; lit "0"].
Proof. reflexivity. Qed.

Example scenario_addition :
  let s := steps 3 (loaded "+ +0 + - 0") in
  accumulator s = 2 /\ programCounter s = 4 /\ instructionCount s = 2.
Proof. vm_compute. done. Qed.

Example scenario_shift :
  map (fun k => accumulator (steps k (loaded "+ +0 +-0 -+0 0"))) [0; 1; 2; 3; 4]%nat
  = [0; 3; 9; 3; 3].
Proof. vm_compute. done. Qed.

(** * The numeral codec *)

Section Codec.

Lemma weighted_snoc power digits d :
  0 <= power ->
  weighted power (digits ++ [d])
  = weighted power digits + d * 3 ^ (power + Z.of_nat (length digits)).
Proof.
  revert power. induction digits as [|x digits IH]; intros power Hp; simpl.
  - rewrite !Z.add_0_r. lia.
  - rewrite IH by lia.
    replace (power + 1 + Z.of_nat (length digits))
      with (power + Z.of_nat (S (length digits))) by lia.
    lia.
Qed.

Lemma weighted_rev digits : weighted 0 (rev digits) = ternaryValue digits.
Proof.
  induction digits as [|d digits IH]; [done|].
  simpl. rewrite weighted_snoc by lia. rewrite length_rev, IH, Z.add_0_l. lia.
Qed.

(** ** Where binary64 is exact *)

Lemma roundDouble_exact z : Z.abs z < 2 ^ 53 -> roundDouble z = Finite z.
Proof.
  intros Hsafe. unfold roundDouble.
  by destruct (Z.ltb_spec (Z.abs z) (2 ^ 53)); [|lia].
Qed.

(** The powers of 3 up to the 34th are below 2^53 / 2. *)
Lemma pow3_bound power : 0 <= power <= 34 -> 3 ^ power <= 3 ^ 34.
Proof. intros Hpower. apply Z.pow_le_mono_r; lia. Qed.

Lemma pow3_exact power :
  0 <= power <= 33 -> pow3 power = Finite (3 ^ power).
Proof.
  intros Hpower. apply roundDouble_exact.
  assert (3 ^ power <= 3 ^ 33) by (apply Z.pow_le_mono_r; lia).
  assert (0 < 3 ^ power) by (apply Z.pow_pos_nonneg; lia).
  change (3 ^ 33) with 5559060566555523 in *.
  change (2 ^ 53) with 9007199254740992. lia.
Qed.

Lemma digitOfChar_trit c d : digitOfChar c = Some d -> isTrit d.
Proof.
  unfold digitOfChar, isTrit. repeat case_match; intros [= <-]; lia.
Qed.

(** The loop on at most 34 digits in all: every sum stays a safe integer, so
    that binary64 adds exactly. *)
Lemma fromBalancedTernary_loop_digits chars digits result power :
  map digitOfChar chars = map Some digits ->
  0 <= power ->
  power + Z.of_nat (length chars) <= 34 ->
  2 * Z.abs result < 3 ^ power ->
  fromBalancedTernary_loop chars (Finite result) power
  = Return (Finite (result + weighted power digits)).
Proof.
  revert digits result power.
  induction chars as [|c chars IH];
    intros [|d digits] result power Heq Hpower Hlength Hresult;
    try discriminate; cbn [fromBalancedTernary_loop weighted].
  - by rewrite Z.add_0_r.
  - injection Heq as Hc Hrest. cbn [length] in Hlength.
    pose proof (digitOfChar_trit _ _ Hc) as Hd.
    assert (3 ^ power <= 3 ^ 33) as Hbound
      by (apply Z.pow_le_mono_r; lia).
    assert (0 < 3 ^ power) by (apply Z.pow_pos_nonneg; lia).
    assert (3 ^ (power + 1) = 3 * 3 ^ power) as Hnext
      by (rewrite Z.pow_add_r by lia; lia).
    change (3 ^ 33) with 5559060566555523 in Hbound.
    rewrite Hc, pow3_exact by lia. cbn [numberMul numberAdd].
    assert (Z.abs (d * 3 ^ power) <= 3 ^ power) as Hterm
      by (unfold isTrit in Hd; nia).
    rewrite (roundDouble_exact (d * 3 ^ power))
      by (change (2 ^ 53) with 9007199254740992; lia).
    cbn [numberAdd].
    rewrite roundDouble_exact
      by (change (2 ^ 53) with 9007199254740992; lia).
    rewrite (IH digits) by (try done; lia).
    do 2 f_equal. lia.
Qed.

Lemma fromBalancedTernary_digits ternary digits :
  map digitOfChar ternary = map Some digits ->
  (length ternary <= 34)%nat ->
  fromBalancedTernary ternary = Return (Finite (ternaryValue digits)).
Proof.
  intros Heq Hshort. unfold fromBalancedTernary.
  destruct (Nat.eqb_spec (length ternary) 0) as [Hlen|_].
  - destruct ternary; [|done]. by destruct digits.
  - rewrite (fromBalancedTernary_loop_digits _ (rev digits)).
    + by rewrite weighted_rev.
    + by rewrite !map_rev, Heq.
    + done.
    + rewrite length_rev. lia.
    + cbn. lia.
Qed.

(** Whatever the length, the loop returns on digits. *)
Lemma fromBalancedTernary_loop_returns chars result power :
  Forall (fun c => is_Some (digitOfChar c)) chars ->
  exists value, fromBalancedTernary_loop chars result power = Return value.
Proof.
  intros Hchars. revert result power.
  induction Hchars as [|c chars [d Hd] _ IH]; intros result power; cbn.
  - by eexists.
  - rewrite Hd. apply IH.
Qed.

Lemma fromBalancedTernary_total ternary :
  Forall accepted ternary ->
  exists value, fromBalancedTernary ternary = Return value.
Proof.
  intros Hok. unfold fromBalancedTernary.
  destruct (_ =? _)%nat; [by eexists|].
  apply fromBalancedTernary_loop_returns. by apply Forall_rev.
Qed.

Lemma ternaryValue_opp digits :
  ternaryValue (map Z.opp digits) = - ternaryValue digits.
Proof.
  induction digits as [|d digits IH]; [done|].
  simpl. rewrite length_map, IH. lia.
Qed.

(** Rewrite with the induction hypothesis of the loop, whatever its name. *)
Ltac use_loop_hypothesis :=
  match goal with
  | IH : 0 <= _ -> ternaryValue _ = _ |- _ => rewrite IH by lia
  end.

(** The loop computes the balanced-ternary digits of [n], in front of the
    digits it was given. *)
Lemma toBalancedTernary_loop_value n result :
  0 <= n ->
  ternaryValue (toBalancedTernary_loop n result)
  = n * 3 ^ Z.of_nat (length result) + ternaryValue result.
Proof.
  funelim (toBalancedTernary_loop n result); intros Hn.
  - replace n with 0 by lia. lia.
  - pose proof (Z.div_mod n 3 ltac:(lia)) as Hdiv.
    use_loop_hypothesis. cbn [ternaryValue length].
    rewrite Nat2Z.inj_succ, Z.pow_succ_r by lia. lia.
  - pose proof (Z.div_mod n 3 ltac:(lia)) as Hdiv.
    pose proof (Z.mod_pos_bound n 3 ltac:(lia)) as Hrem.
    use_loop_hypothesis. cbn [ternaryValue length].
    rewrite Nat2Z.inj_succ, Z.pow_succ_r by lia. lia.
Qed.

Lemma toBalancedTernary_loop_trits n result :
  Forall isTrit result -> Forall isTrit (toBalancedTernary_loop n result).
Proof.
  funelim (toBalancedTernary_loop n result); intros Hres; [done| |].
  - match goal with IH : Forall isTrit _ -> _ |- _ => apply IH end.
    constructor; [by left | done].
  - pose proof (Z.mod_pos_bound n 3 ltac:(lia)) as Hrem.
    match goal with IH : Forall isTrit _ -> _ |- _ => apply IH end.
    constructor; [unfold isTrit; lia | done].
Qed.

Lemma digitOfChar_digitSymbol digits :
  Forall isTrit digits ->
  map digitOfChar (concat (map digitSymbol digits)) = map Some digits.
Proof.
  induction 1 as [|d digits Hd _ IH]; [done|].
  cbn [map concat]. rewrite map_app, IH.
  by destruct Hd as [->|[->| ->]].
Qed.

Lemma isTrit_opp digits : Forall isTrit digits -> Forall isTrit (map Z.opp digits).
Proof.
  induction 1 as [|d digits Hd _ IH]; constructor; [|done].
  unfold isTrit in *. lia.
Qed.

Lemma accepted_iff c : accepted c <-> documented c \/ c = ch_underscore.
Proof.
  unfold accepted, documented, digitOfChar.
  destruct (N.eqb_spec c ch_minus); [subst; cbn; split; eauto|].
  destruct (N.eqb_spec c ch_minus_sign); [subst; cbn; split; eauto 6|].
  destruct (N.eqb_spec c ch_underscore); [subst; cbn; split; eauto|].
  destruct (N.eqb_spec c ch_zero); [subst; cbn; split; eauto 6|].
  destruct (N.eqb_spec c ch_plus); [subst; cbn; split; eauto 8|].
  destruct (N.eqb_spec c ch_one); [subst; cbn; split; eauto 8|].
  cbn. split; [by intros [? [=]]|]. intros [[?|[?|[?|[?|?]]]]|?]; done.
Qed.

Lemma digitOfChar_accepted ternary :
  Forall accepted ternary ->
  map digitOfChar ternary = map Some (map digitValue ternary).
Proof.
  induction 1 as [|c ternary [d Hd] _ IH]; [done|].
  cbn. unfold digitValue at 1. by rewrite Hd, IH.
Qed.

Lemma fromBalancedTernary_loop_rejects chars c rest result power :
  Forall accepted chars ->
  ~ accepted c ->
  fromBalancedTernary_loop (chars ++ c :: rest) result power
  = Throw (InvalidTernaryDigit c).
Proof.
  intros Hok Hc. revert result power.
  induction Hok as [|x chars [d Hd] _ IH]; intros result power; cbn.
  - destruct (digitOfChar c) eqn:Hd; [|done]. destruct Hc. by eexists.
  - by rewrite Hd, IH.
Qed.

(** A string holds digits only, or has a last character that is none. *)
Lemma last_rejected ternary :
  Forall accepted ternary
  \/ exists before c after,
       ternary = before ++ c :: after /\ ~ accepted c /\ Forall accepted after.
Proof.
  induction ternary as [|x ternary [IH|(before & c & after & -> & Hc & Hok)]].
  - by left.
  - destruct (digitOfChar x) as [d|] eqn:Hd.
    + left. constructor; [by eexists|done].
    + right. exists [], x, ternary. split; [done|]. split; [|done].
      intros [d Hd']. congruence.
  - right. by exists (x :: before), c, after.
Qed.




End Codec.

(** * Frame properties of execution *)

Section Frame.
Lemma executeInstruction_frame opcode operand s :
  let s' := final (executeInstruction opcode operand s) in
  sameConfiguration s s'
  /\ executionHistory s' = executionHistory s
  /\ instructionCount s' = instructionCount s
  /\ instructionRegister s' = instructionRegister s.
Proof.
  unfold sameConfiguration. unfold_exec.
  repeat case_match; cbn; rewrite ?length_insert; done.
Qed.

Lemma sameConfiguration_refl s : sameConfiguration s s.
Proof. by repeat split. Qed.

Lemma sameConfiguration_trans s1 s2 s3 :
  sameConfiguration s1 s2 -> sameConfiguration s2 s3 -> sameConfiguration s1 s3.
Proof. unfold sameConfiguration. intuition congruence. Qed.

Lemma recorded_frame s :
  sameConfiguration s (recorded s) /\ currentSnapshot (recorded s) = currentSnapshot s.
Proof.
  unfold recorded, saveStateToHistory, sameConfiguration.
  repeat case_match; cbn; done.
Qed.

(** [step] keeps the configuration; past the instruction limit it leaves
    the history as the opening history step made it. *)
Lemma step_frame s :
  sameConfiguration s (final (step s))
  /\ executionHistory (final (step s))
     = if instructionCount s >=? maxInstructions s
       then executionHistory s
       else executionHistory (recorded s).
Proof.
  unfold step. fold (recorded s).
  destruct (instructionCount s >=? maxInstructions s); [by repeat split|].
  destruct (recorded_frame s) as [Hcfg _].
  revert Hcfg. generalize (recorded s) as t. intros t Hcfg.
  destruct (bool_decide _); [split; [|done]; eapply sameConfiguration_trans; [done|]; by repeat split|].
  destruct (_ || _); [split; [|done]; eapply sameConfiguration_trans; [done|]; by repeat split|].
  cbn [decodeInstruction].
  match goal with |- context [executeInstruction ?o ?op ?st] =>
    pose proof (executeInstruction_frame o op st) as (Hexe & Hh & _);
    destruct (executeInstruction o op st) as [c f ev] end.
  cbn in *.
  assert (sameConfiguration s f) as Hsf.
  { eapply sameConfiguration_trans; [done|].
    eapply sameConfiguration_trans; [|done]. by repeat split. }
  destruct c as [[]|]; cbn; [|done..].
  repeat case_match; cbn; (split; [|done]);
    (eapply sameConfiguration_trans; [done|]; by repeat split).
Qed.
End Frame.

(** * The execution history *)

Section History.

Lemma saveStateToHistory_unfold s :
  saveStateToHistory s
  = set_executionHistory (executionHistory (saveStateToHistory s)) s.
Proof.
  destruct s. unfold saveStateToHistory. cbn. by case_match.
Qed.

Lemma recorded_unfold s :
  recorded s = set_executionHistory (executionHistory (recorded s)) s.
Proof.
  unfold recorded. case_match; [apply saveStateToHistory_unfold|by destruct s].
Qed.

Lemma saveStateToHistory_room s :
  Z.of_nat (length (executionHistory s)) < maxHistorySize s ->
  executionHistory (saveStateToHistory s)
  = executionHistory s ++ [currentSnapshot s].
Proof.
  intros Hroom. unfold saveStateToHistory. cbn.
  rewrite length_app. cbn [length].
  case_match eqn:Hfull; [|done].
  apply Z.gtb_lt in Hfull. lia.
Qed.

Lemma currentSnapshot_recorded s : currentSnapshot (recorded s) = currentSnapshot s.
Proof. rewrite recorded_unfold. done. Qed.

Lemma step_at_limit s :
  maxInstructions s <= instructionCount s ->
  step s = Outcome (Return false) (set_running false s)
                   (fire (onError s) (Error InstructionLimit)).
Proof.
  intros Hlim. unfold step.
  destruct (Z.geb_spec (instructionCount s) (maxInstructions s)); [done|lia].
Qed.

Lemma step_at_breakpoint s :
  instructionCount s < maxInstructions s ->
  programCounter s ∈ breakpoints s ->
  step s = Outcome (Return false)
             (set_hitBreakpoint true (set_running false (recorded s)))
             (fire (onHalt s) (Halt (BreakpointHit (programCounter s)))).
Proof.
  intros Hlim Hbp. unfold step.
  destruct (Z.geb_spec (instructionCount s) (maxInstructions s)); [lia|].
  fold (recorded s). rewrite recorded_unfold. cbn.
  by rewrite bool_decide_eq_true_2.
Qed.

End History.

(** * A step that reaches the fetch *)

Section PastTheGuards.

(** An emulator on which [step] gets as far as the fetch. *)
Variable s : SetunEmulator.
Hypothesis Hlimit : instructionCount s < maxInstructions s.
Hypothesis Hnobreak : programCounter s ∉ breakpoints s.
Hypothesis Hinside : 0 <= programCounter s < memoryLength s.

Lemma step_guards :
  step s
  = let r := executeInstruction (readMemory s (programCounter s)) None
                                (fetched s) in
    match completed r with
    | Return true =>
        let s := final r in
        let s := set_programCounter (programCounter s + 1) s in
        let s := set_instructionCount (instructionCount s + 1) s in
        match checkConditionalBreakpoints s with
        | Some triggeredCondition =>
            Outcome (Return false)
              (set_hitBreakpoint true (set_running false s))
              (fired r
               ++ fire (onHalt s)
                    (Halt (ConditionalBreakpoint triggeredCondition))
               ++ fire (onStateChange s) StateChange)
        | None =>
            let notified := fired r ++ fire (onStateChange s) StateChange in
            if programCounter s >=? memoryLength s then
              Outcome (Return false) (set_running false s)
                      (notified ++ fire (onHalt s) (Halt EndOfMemory))
            else Outcome (Return true) s notified
        end
    | _ => r
    end.
Proof.
  unfold step, fetched. fold (recorded s).
  destruct (Z.geb_spec (instructionCount s) (maxInstructions s)); [lia|].
  assert (forall i, readMemory (recorded s) i = readMemory s i) as Hread
    by (intros i; rewrite recorded_unfold; done).
  assert (programCounter (recorded s) = programCounter s) as Hpc
    by (rewrite recorded_unfold; done).
  assert (breakpoints (recorded s) = breakpoints s) as Hbps
    by (rewrite recorded_unfold; done).
  assert (memoryLength (recorded s) = memoryLength s) as Hlen
    by (rewrite recorded_unfold; done).
  rewrite !Hread, !Hpc, Hbps, Hlen, bool_decide_eq_false_2 by done.
  destruct (Z.ltb_spec (programCounter s) 0); [lia|].
  destruct (Z.geb_spec (programCounter s) (memoryLength s)); [lia|].
  cbn [orb decodeInstruction instructionRegister set_instructionRegister].
  by destruct (executeInstruction _ _ _) as [[[]|] f ev].
Qed.

(** The instruction at the program counter goes through
    [executeInstruction] once, and what that returns decides. *)
Lemma step_executes :
  let r := executeInstruction (readMemory s (programCounter s)) None
                              (fetched s) in
  match completed r with
  | Return true =>
      programCounter (final (step s)) = programCounter (final r) + 1
      /\ instructionCount (final (step s)) = instructionCount s + 1
      /\ accumulator (final (step s)) = accumulator (final r)
      /\ memory (final (step s)) = memory (final r)
      /\ callStack (final (step s)) = callStack (final r)
  | _ => step s = r
  end.
Proof.
  rewrite step_guards.
  pose proof (f_equal saved_instructionCount (currentSnapshot_recorded s))
    as Hcount.
  cbn in Hcount.
  match goal with |- context [executeInstruction ?o ?op ?st] =>
    pose proof (executeInstruction_frame o op st) as (_ & _ & Hc & _);
    destruct (executeInstruction o op st) as [c f ev] end.
  unfold fetched in Hc. cbn in Hc. cbn.
  destruct c as [[]|]; cbn; [|done..].
  rewrite Hc, Hcount.
  repeat case_match; by cbn.
Qed.

Lemma step_fetches :
  instructionRegister (final (step s)) = readMemory s (programCounter s).
Proof.
  rewrite step_guards.
  match goal with |- context [executeInstruction ?o ?op ?st] =>
    pose proof (executeInstruction_frame o op st) as (_ & _ & _ & Hir);
    destruct (executeInstruction o op st) as [c f ev] end.
  unfold fetched in Hir. cbn in Hir. cbn.
  destruct c as [[]|]; cbn; [|done..].
  repeat case_match; by cbn.
Qed.

End PastTheGuards.

(** * Stepping forward and back *)

Section StepBack.

Lemma stepBack_empty s :
  executionHistory s = [] ->
  stepBack s = Outcome (Return false) s (fire (onError s) (Error NoHistory)).
Proof. intros Hh. unfold stepBack. by rewrite Hh. Qed.

(** [stepBack] pops the newest snapshot and restores all it holds. *)
Lemma stepBack_restores s h snap :
  executionHistory s = h ++ [snap] ->
  completed (stepBack s) = Return true
  /\ currentSnapshot (final (stepBack s)) = snap
  /\ executionHistory (final (stepBack s)) = h.
Proof.
  intros Hh. unfold stepBack. rewrite Hh, last_snoc, removelast_last. cbn.
  by destruct snap.
Qed.

Lemma stepsBack_S k s : stepsBack (S k) s = stepsBack k (final (stepBack s)).
Proof. unfold stepsBack. by rewrite Nat.iter_succ_r. Qed.

(** Enough calls of [stepBack] unwind the whole history. *)
Lemma stepsBack_unwinds k s :
  (length (executionHistory s) <= k)%nat ->
  currentSnapshot (stepsBack k s) = oldest s.
Proof.
  revert s. induction k as [|k IH]; intros s Hlen.
  - unfold oldest. destruct (executionHistory s); [done|cbn in Hlen; lia].
  - rewrite stepsBack_S.
    destruct (executionHistory s) as [|x h'] eqn:Hh using rev_ind.
    + rewrite stepBack_empty by done. cbn. rewrite IH by (rewrite Hh; cbn; lia).
      done.
    + clear IHh'.
      destruct (stepBack_restores s h' x Hh) as (_ & Hsnap & Hhist).
      rewrite length_app in Hlen. cbn in Hlen.
      rewrite IH by (rewrite Hhist; lia).
      unfold oldest. rewrite Hhist, Hsnap, Hh. by destruct h'.
Qed.

Lemma step_history s :
  historyEnabled s = true ->
  Z.of_nat (length (executionHistory s)) < maxHistorySize s ->
  let s' := final (step s) in
  oldest s' = oldest s
  /\ (length (executionHistory s') <= S (length (executionHistory s)))%nat.
Proof.
  intros Hen Hroom s'. subst s'.
  destruct (step_frame s) as [_ Hh].
  destruct (Z.geb_spec (instructionCount s) (maxInstructions s)) as [Hlim|Hlim].
  - rewrite step_at_limit by done. cbn. split; [done|lia].
  - unfold oldest. rewrite Hh. unfold recorded. rewrite Hen.
    rewrite saveStateToHistory_room by done.
    rewrite length_app. cbn. split; [|lia].
    by destruct (executionHistory s).
Qed.

Lemma steps_S k s : steps (S k) s = final (step (steps k s)).
Proof. done. Qed.

Lemma steps_history k s :
  historyEnabled s = true ->
  Z.of_nat (length (executionHistory s)) + Z.of_nat k <= maxHistorySize s ->
  oldest (steps k s) = oldest s
  /\ (length (executionHistory (steps k s)) <= length (executionHistory s) + k)%nat
  /\ sameConfiguration s (steps k s).
Proof.
  intros Hen. induction k as [|k IH]; intros Hroom.
  - cbn. split; [done|]. split; [lia|apply sameConfiguration_refl].
  - destruct IH as (Hold & Hlen & Hcfg); [lia|].
    rewrite steps_S.
    destruct (step_frame (steps k s)) as [Hcfg' _].
    pose proof Hcfg as (Hen' & Hmax' & _).
    destruct (step_history (steps k s)) as [Hold' Hlen']; [congruence|lia|].
    split; [congruence|]. split; [lia|].
    by eapply sameConfiguration_trans.
Qed.

Lemma loadTokens_frame i tokens s :
  executionHistory (loadTokens i tokens s).2 = executionHistory s
  /\ sameConfiguration s (loadTokens i tokens s).2.
Proof.
  revert i s. induction tokens as [|token tokens IH]; intros i s;
    cbn [loadTokens].
  - split; [done|apply sameConfiguration_refl].
  - destruct (i <? length (memory s))%nat; cbn;
      [|split; [done|apply sameConfiguration_refl]].
    destruct (negb (validateTernary token)); cbn;
      [split; [done|apply sameConfiguration_refl]|].
    destruct (fromBalancedTernary token) as [v|e]; cbn;
      [|split; [done|apply sameConfiguration_refl]].
    destruct (IH (S i) (set_memory (<[i:=wordOf v]> (memory s)) s))
      as [-> Hcfg].
    split; [done|].
    eapply sameConfiguration_trans; [|done].
    unfold sameConfiguration. cbn. by rewrite length_insert.
Qed.

Lemma reset_frame s :
  sameConfiguration s (final (reset s)).
Proof. unfold sameConfiguration. cbn. by rewrite length_replicate. Qed.

Lemma loadProgram_frame programText s :
  let s' := final (loadProgram programText s) in
  executionHistory s' = [] /\ sameConfiguration s s'.
Proof.
  unfold loadProgram.
  destruct (_ || _); [split; [done|apply reset_frame]|].
  pose proof (loadTokens_frame 0 (splitWhitespace (trim programText)) (final (reset s)))
    as [Hh Hcfg].
  destruct (loadTokens _ _ _) as [c s']. cbn in *.
  split; [done|]. eapply sameConfiguration_trans; [apply reset_frame|done].
Qed.

End StepBack.

Section StepBackInverse.

(** C2, as amended: with history recording on and no more steps than the
    history holds, [k] calls of [step] from the state a load leaves,
    followed by [k] calls of [stepBack], restore the accumulator, the
    program counter, the instruction register, the memory, the call stack
    and the instruction count.  Each [stepBack] on a non-empty history
    returns [true], restores every field of the snapshot it pops and
    removes that snapshot. *)
Theorem step_stepBack_inverse programText e k :
  historyEnabled e = true ->
  Z.of_nat k <= maxHistorySize e ->
  let s := final (loadProgram programText e) in
  currentSnapshot (stepsBack k (steps k s)) = currentSnapshot s
  /\ (forall t h snap,
        executionHistory t = h ++ [snap] ->
        completed (stepBack t) = Return true
        /\ currentSnapshot (final (stepBack t)) = snap
        /\ executionHistory (final (stepBack t)) = h).
Proof.
  intros Hen Hk s. split; [|apply stepBack_restores].
  destruct (loadProgram_frame programText e) as [Hempty Hcfg].
  fold s in Hempty, Hcfg. destruct Hcfg as (Hen' & Hmax' & _).
  destruct (steps_history k s) as (Hold & Hlen & _).
  - congruence.
  - rewrite Hempty, Hmax'. cbn [length]. lia.
  - rewrite stepsBack_unwinds by (rewrite Hempty in Hlen; cbn in Hlen; lia).
    rewrite Hold. unfold oldest. by rewrite Hempty.
Qed.

Lemma step_stepBack_inverse_witness :
  currentSnapshot (stepsBack 5 (steps 5 (loaded "+00 +0 0")))
  = currentSnapshot (loaded "+00 +0 0").
Proof.
  apply (step_stepBack_inverse (lit "+00 +0 0") (constructor 81) 5).
  - reflexivity.
  - cbn. lia.
Defined.

(** C2 as stated fails beyond the history bound, and with recording off:
    the 1001st snapshot evicts the first, so 1001 calls of [stepBack] end
    one instruction after the start; with recording off no call of
    [stepBack] restores anything. *)
Lemma step_stepBack_inverse_counterexample :
  (let s := loaded "+00 +0 0" in
   accumulator s = 0 /\ programCounter s = 0 /\ instructionCount s = 0
   /\ accumulator (stepsBack 1001 (steps 1001 s)) = 1
   /\ programCounter (stepsBack 1001 (steps 1001 s)) = 1
   /\ instructionCount (stepsBack 1001 (steps 1001 s)) = 1)
  /\ (let s := final (loadProgram (lit "+00 0")
                       (toggleHistory false (constructor 81))) in
      accumulator s = 0 /\ accumulator (stepsBack 1 (steps 1 s)) = 1).
Proof. vm_compute. repeat split. Qed.

End StepBackInverse.

(** * Execution does not read the history *)

Section View.
Lemma executeInstruction_machineView opcode operand s :
  let r := executeInstruction opcode operand s in
  let r' := executeInstruction opcode operand (machineView s) in
  completed r' = completed r /\ fired r' = fired r
  /\ machineView (final r') = machineView (final r).
Proof.
  destruct s. unfold machineView. unfold_exec_tests. cbn.
  repeat case_match; cbn; done.
Qed.

(** What two emulators with one view agree on. *)
Lemma machineView_fields s t :
  machineView s = machineView t ->
  currentSnapshot s = currentSnapshot t
  /\ sameConfiguration s t
  /\ heatmapEnabled s = heatmapEnabled t
  /\ memoryAccessCounts s = memoryAccessCounts t.
Proof.
  destruct s, t. unfold machineView, sameConfiguration, currentSnapshot. cbn.
  intros [=]. by simplify_eq.
Qed.

Lemma machineView_idemp s : machineView (machineView s) = machineView s.
Proof. by destruct s. Qed.

Lemma machineView_erases s h r b :
  machineView (set_executionHistory h (set_running r (set_hitBreakpoint b s)))
  = machineView s.
Proof. by destruct s. Qed.

Lemma machineView_recorded s : machineView (recorded s) = machineView s.
Proof. rewrite recorded_unfold. by destruct s. Qed.

Lemma machineView_set_running r s : machineView (set_running r s) = machineView s.
Proof. by destruct s. Qed.

Lemma machineView_set_hitBreakpoint b s :
  machineView (set_hitBreakpoint b s) = machineView s.
Proof. by destruct s. Qed.

Lemma machineView_advance_count s t :
  machineView s = machineView t ->
  machineView (set_instructionCount (instructionCount s + 1)
                 (set_programCounter (programCounter s + 1) s))
  = machineView (set_instructionCount (instructionCount t + 1)
                   (set_programCounter (programCounter t + 1) t)).
Proof. destruct s, t. unfold machineView. cbn. intros [=]. by simplify_eq. Qed.

Lemma machineView_fetch s t :
  machineView s = machineView t ->
  machineView (set_instructionRegister (readMemory s (programCounter s)) s)
  = machineView (set_instructionRegister (readMemory t (programCounter t)) t).
Proof.
  destruct s, t. unfold machineView, readMemory. cbn. intros [=]. by simplify_eq.
Qed.

Lemma firstTriggered_machineView s t conditions :
  machineView s = machineView t ->
  firstTriggered s conditions = firstTriggered t conditions.
Proof.
  intros Hv. assert (forall c, conditionValue s c = conditionValue t c) as Hc.
  { intros c. destruct s, t. unfold machineView in Hv. cbn in Hv.
    injection Hv as ?. simplify_eq. done. }
  induction conditions as [|c conditions IH]; [done|].
  cbn. by rewrite Hc, IH.
Qed.

Lemma executeInstruction_same_view opcode operand s t :
  machineView s = machineView t ->
  completed (executeInstruction opcode operand s)
  = completed (executeInstruction opcode operand t)
  /\ fired (executeInstruction opcode operand s)
     = fired (executeInstruction opcode operand t)
  /\ machineView (final (executeInstruction opcode operand s))
     = machineView (final (executeInstruction opcode operand t)).
Proof.
  intros Hv.
  destruct (executeInstruction_machineView opcode operand s) as (<- & <- & <-).
  destruct (executeInstruction_machineView opcode operand t) as (<- & <- & <-).
  by rewrite Hv.
Qed.

(** What [step] does to the machine does not depend on the history nor on
    the status flags. *)
Lemma step_same_view s t :
  machineView s = machineView t ->
  completed (step s) = completed (step t)
  /\ fired (step s) = fired (step t)
  /\ machineView (final (step s)) = machineView (final (step t)).
Proof.
  intros Hv. unfold step. fold (recorded s) (recorded t).
  destruct (machineView_fields s t Hv) as (Hsnap & Hcfg & _).
  pose proof (f_equal saved_instructionCount Hsnap) as Hcount. cbn in Hcount.
  destruct Hcfg as (_ & _ & _ & _ & _ & _ & _ & Hmax & _ & _ & Herr & _).
  rewrite Hcount, Hmax, Herr.
  destruct (_ >=? _).
  { cbn. by rewrite !machineView_set_running. }
  assert (machineView (recorded s) = machineView (recorded t)) as Hv1
    by (by rewrite !machineView_recorded).
  clear Hv Hsnap Hcount Hmax Herr.
  revert Hv1. generalize (recorded s) (recorded t). clear s t. intros s t Hv.
  destruct (machineView_fields s t Hv) as (Hsnap & Hcfg & _).
  pose proof (f_equal saved_programCounter Hsnap) as Hpc. cbn in Hpc.
  pose proof (f_equal saved_memory Hsnap) as Hmem. cbn in Hmem.
  destruct Hcfg as (_ & _ & Hbp & Hcond & _ & _ & _ & _ & _ & Hsc & _ & Hhalt).
  unfold memoryLength. rewrite Hpc, Hbp, Hmem, Hhalt.
  destruct (bool_decide _).
  { cbn. by rewrite !machineView_set_hitBreakpoint, !machineView_set_running. }
  destruct (_ || _).
  { cbn. by rewrite !machineView_set_running. }
  cbn [decodeInstruction].
  pose proof (machineView_fetch s t Hv) as Hv1. rewrite Hpc in Hv1.
  cbn [instructionRegister set_instructionRegister].
  replace (readMemory s (programCounter t)) with (readMemory t (programCounter t))
    in * by (unfold readMemory; by rewrite Hmem).
  destruct (executeInstruction_same_view (readMemory t (programCounter t)) None _ _ Hv1)
    as (Hc & Hf & Hv2).
  destruct (executeInstruction _ _ (set_instructionRegister _ s)) as [c1 f1 e1].
  destruct (executeInstruction _ _ (set_instructionRegister _ t)) as [c2 f2 e2].
  cbn in Hc, Hf, Hv2. subst c2 e2.
  destruct c1 as [[]|]; cbn; [|done..].
  pose proof (machineView_advance_count _ _ Hv2) as Hv3.
  destruct (machineView_fields f1 f2 Hv2) as (Hsnap2 & Hcfg2 & _).
  pose proof (f_equal saved_programCounter Hsnap2) as Hpc2. cbn in Hpc2.
  pose proof (f_equal saved_memory Hsnap2) as Hmem2. cbn in Hmem2.
  destruct Hcfg2 as (_ & _ & _ & Hcond2 & _ & _ & _ & _ & _ & Hsc2 & _ & Hhalt2).
  unfold checkConditionalBreakpoints, memoryLength. cbn.
  rewrite (firstTriggered_machineView _ _ (conditionalBreakpoints f1) Hv3).
  rewrite Hpc2 in Hv3 |- *. rewrite Hmem2, Hcond2, Hsc2, Hhalt2.
  destruct (firstTriggered _ _); cbn.
  { by rewrite !machineView_set_hitBreakpoint, !machineView_set_running. }
  destruct (_ >=? _); cbn; [|done].
  by rewrite !machineView_set_running.
Qed.
End View.

(** * Address breakpoints *)

Section Breakpoints.

Lemma step_instructionCount s :
  (instructionCount (final (step s)) = instructionCount s
   \/ instructionCount (final (step s)) = instructionCount s + 1)
  /\ (completed (step s) = Return true ->
      instructionCount (final (step s)) = instructionCount s + 1).
Proof.
  unfold step. fold (recorded s).
  destruct (_ >=? _); [cbn; split; [by left|done]|].
  pose proof (f_equal saved_instructionCount (currentSnapshot_recorded s)) as Hcount.
  cbn in Hcount. rewrite <- Hcount. generalize (recorded s). clear. intros s.
  destruct (bool_decide _); [cbn; split; [by left|done]|].
  destruct (_ || _); [cbn; split; [by left|done]|].
  cbn [decodeInstruction].
  match goal with |- context [executeInstruction ?o ?op ?st] =>
    pose proof (executeInstruction_frame o op st) as (_ & _ & Hc & _);
    destruct (executeInstruction o op st) as [c f ev] end.
  cbn in Hc. rewrite <- Hc.
  destruct c as [[]|]; cbn; [|split; [by left|done]..].
  repeat case_match; cbn; (split; [by right|done]).
Qed.

(** C4, as amended: a [step] that halts on an address breakpoint has run
    the history step first.  With recording on, the history grows by the
    snapshot of the current state (dropping the oldest entry at the
    bound); with recording off, it stays as it was.  The machine state is
    the same before and after. *)
Theorem breakpoint_step_is_recorded s :
  instructionCount s < maxInstructions s ->
  programCounter s ∈ breakpoints s ->
  completed (step s) = Return false
  /\ hitBreakpoint (final (step s)) = true
  /\ currentSnapshot (final (step s)) = currentSnapshot s
  /\ executionHistory (final (step s))
     = (if historyEnabled s
        then executionHistory (saveStateToHistory s)
        else executionHistory s)
  /\ (historyEnabled s = true ->
      Z.of_nat (length (executionHistory s)) < maxHistorySize s ->
      executionHistory (final (step s))
      = executionHistory s ++ [currentSnapshot s]).
Proof.
  intros Hlim Hbp. rewrite step_at_breakpoint by done. cbn.
  split; [done|]. split; [done|].
  split; [apply (currentSnapshot_recorded s)|].
  unfold recorded. split; [by destruct (historyEnabled s)|].
  intros -> Hroom. by apply saveStateToHistory_room.
Qed.

Lemma breakpoint_step_is_recorded_witness :
  let s := (addBreakpoint 0 (loaded "+00 0")).2 in
  executionHistory (final (step s)) = executionHistory s ++ [currentSnapshot s].
Proof.
  intros s.
  refine (proj2 (proj2 (proj2 (proj2 (breakpoint_step_is_recorded s _ _)))) _ _);
    evaluate.
Defined.

(** C4 as stated fails: the step below halts on the breakpoint at address
    0 without executing the instruction there, and the history goes from
    empty to one snapshot. *)
Lemma breakpoint_step_history_counterexample :
  let s := set_onHalt true (addBreakpoint 0 (loaded "+00 0")).2 in
  executionHistory s = []
  /\ completed (step s) = Return false
  /\ fired (step s) = [Halt (BreakpointHit 0)]
  /\ accumulator (final (step s)) = 0
  /\ instructionCount (final (step s)) = 0
  /\ executionHistory (final (step s)) = [currentSnapshot s].
Proof. vm_compute. repeat split. Qed.

End Breakpoints.

Section BreakpointExactness.

Lemma machineView_halted_resumed A s :
  machineView (removeBreakpoint A (set_hitBreakpoint true
                                     (set_running false (recorded s)))).2
  = machineView (removeBreakpoint A s).2.
Proof. rewrite recorded_unfold. by destruct s. Qed.

(** C3, as amended: a [step] with the program counter on an address
    breakpoint [A] halts before the fetch, the machine state unchanged.
    While the breakpoint stays, the next [step] halts there again, [step]
    having no way past a breakpoint.  Once the breakpoint is removed, the
    next [step] does exactly what a [step] from the state before the halt
    would have done without the breakpoint: it fetches the instruction at
    [A] and passes it through [executeInstruction] once, the instruction
    count going up by one when the instruction completes. *)
Theorem breakpoint_exactness s A :
  A ∈ breakpoints s ->
  programCounter s = A ->
  instructionCount s < maxInstructions s ->
  let halted := final (step s) in
  (completed (step s) = Return false
   /\ currentSnapshot halted = currentSnapshot s
   /\ hitBreakpoint halted = true /\ running halted = false)
  /\ (completed (step halted) = Return false
      /\ currentSnapshot (final (step halted)) = currentSnapshot s)
  /\ (let resumed := step (removeBreakpoint A halted).2 in
      let direct := step (removeBreakpoint A s).2 in
      completed resumed = completed direct
      /\ fired resumed = fired direct
      /\ currentSnapshot (final resumed) = currentSnapshot (final direct)
      /\ instructionCount (final resumed) <= instructionCount s + 1
      /\ (completed resumed = Return true ->
          instructionCount (final resumed) = instructionCount s + 1)
      /\ (0 <= A < memoryLength s ->
          instructionRegister (final resumed) = readMemory s A
          /\ let r := executeInstruction (readMemory s A) None
                        (fetched (removeBreakpoint A halted).2) in
             match completed r with
             | Return true =>
                 programCounter (final resumed) = programCounter (final r) + 1
                 /\ instructionCount (final resumed) = instructionCount s + 1
                 /\ accumulator (final resumed) = accumulator (final r)
                 /\ memory (final resumed) = memory (final r)
                 /\ callStack (final resumed) = callStack (final r)
             | _ => resumed = r
             end)).
Proof.
  intros Hbp Hpc Hlim halted. subst A.
  assert (halted = set_hitBreakpoint true (set_running false (recorded s))) as Hh
    by (unfold halted; by rewrite step_at_breakpoint).
  clearbody halted.
  assert (currentSnapshot halted = currentSnapshot s) as Hsnap
    by (rewrite Hh; apply (currentSnapshot_recorded s)).
  assert (breakpoints halted = breakpoints s) as Hbps
    by (rewrite Hh, recorded_unfold; done).
  assert (maxInstructions halted = maxInstructions s) as Hmax
    by (rewrite Hh, recorded_unfold; done).
  pose proof (f_equal saved_programCounter Hsnap) as Hpc'. cbn in Hpc'.
  pose proof (f_equal saved_instructionCount Hsnap) as Hcount'. cbn in Hcount'.
  pose proof (f_equal saved_memory Hsnap) as Hmem'. cbn in Hmem'.
  split; [|split].
  - rewrite Hh, step_at_breakpoint by done. cbn.
    split; [done|]. split; [apply (currentSnapshot_recorded s)|done].
  - rewrite step_at_breakpoint by (rewrite ?Hpc', ?Hbps; congruence || lia).
    cbn. split; [done|].
    etrans; [apply (currentSnapshot_recorded halted)|done].
  - intros resumed direct.
    destruct (step_same_view (removeBreakpoint (programCounter s) halted).2
                             (removeBreakpoint (programCounter s) s).2)
      as (Hc & Hf & Hv).
    { rewrite Hh. apply machineView_halted_resumed. }
    fold resumed direct in Hc, Hf, Hv.
    apply machineView_fields in Hv as (Hs & _).
    destruct (step_instructionCount (removeBreakpoint (programCounter s) halted).2)
      as [Hcases Htrue].
    fold resumed in Hcases, Htrue. cbn in Hcases, Htrue.
    rewrite Hcount' in Hcases, Htrue.
    split; [done|]. split; [done|]. split; [done|].
    split; [lia|]. split; [done|].
    intros Hrange. clear Hc Hf Hs Hcases Htrue. subst resumed.
    set (u := (removeBreakpoint (programCounter s) halted).2).
    assert (instructionCount u < maxInstructions u) as Hlim_u
      by (subst u; cbn; lia).
    assert (programCounter u ∉ breakpoints u) as Hbp_u.
    { subst u. cbn. rewrite Hpc', Hbps.
      intros [_ Hne]%elem_of_difference. apply Hne. by apply elem_of_singleton. }
    assert (0 <= programCounter u < memoryLength u) as Hpc_u
      by (subst u; unfold memoryLength in *; cbn; by rewrite Hpc', Hmem').
    assert (readMemory u (programCounter u) = readMemory s (programCounter s))
      as Hread by (subst u; unfold readMemory; cbn; by rewrite Hpc', Hmem').
    assert (instructionCount u = instructionCount s) as Hcount_u
      by (subst u; done).
    split.
    + by rewrite step_fetches.
    + pose proof (step_executes u Hlim_u Hbp_u Hpc_u) as Hexec.
      by rewrite Hread, Hcount_u in Hexec.
Qed.

Lemma breakpoint_exactness_witness :
  let s := (addBreakpoint 0 (loaded "+00 0")).2 in
  completed (step s) = Return false
  /\ currentSnapshot (final (step s)) = currentSnapshot s
  /\ hitBreakpoint (final (step s)) = true /\ running (final (step s)) = false.
Proof.
  intros s.
  refine (proj1 (breakpoint_exactness s 0 _ _ _)); evaluate.
Defined.

(** C3 as stated fails in its second half: with the breakpoint at address
    0 still set, the second [step] halts on it again, and the increment at
    address 0 has not been executed. *)
Lemma breakpoint_continue_counterexample :
  let s := set_onHalt true (addBreakpoint 0 (loaded "+00 0")).2 in
  let halted := final (step s) in
  readMemory s 0 = OPCODES.INC
  /\ completed (step halted) = Return false
  /\ fired (step halted) = [Halt (BreakpointHit 0)]
  /\ accumulator (final (step halted)) = 0
  /\ programCounter (final (step halted)) = 0
  /\ instructionCount (final (step halted)) = 0.
Proof. vm_compute. repeat split. Qed.

End BreakpointExactness.

(** * Instructions *)

Section Stores.

Lemma fetched_fields s :
  programCounter (fetched s) = programCounter s
  /\ memory (fetched s) = memory s
  /\ accumulator (fetched s) = accumulator s
  /\ callStack (fetched s) = callStack s
  /\ protectedMemory (fetched s) = protectedMemory s
  /\ maxCallDepth (fetched s) = maxCallDepth s
  /\ onHalt (fetched s) = onHalt s
  /\ onError (fetched s) = onError s
  /\ instructionCount (fetched s) = instructionCount s.
Proof. unfold fetched. rewrite recorded_unfold. done. Qed.

Lemma storeTarget_fetched opcode s :
  storeTarget opcode (fetched s) = storeTarget opcode s.
Proof.
  destruct (fetched_fields s) as (Hpc & Hmem & _).
  unfold storeTarget, inMemory, readMemory, memoryLength. by rewrite Hpc, Hmem.
Qed.

Lemma executeInstruction_protected_store opcode s addr :
  opcode = OPCODES.STORE \/ opcode = OPCODES.STOREI ->
  programCounter s + 1 < memoryLength s ->
  storeTarget opcode s = Some addr ->
  inMemory s addr = true ->
  addr ∈ protectedMemory s ->
  executeInstruction opcode None s
  = Outcome (Throw (ProtectedMemoryWrite addr)) (advance s) [].
Proof.
  intros Hop Hlen Htarget Hin Hprot.
  assert (canWriteToMemory (advance s) addr = false) as Hcan.
  { unfold canWriteToMemory. destruct (_ || _); [done|].
    cbn. by rewrite bool_decide_eq_true_2. }
  unfold storeTarget in Htarget. unfold executeInstruction.
  change (memoryLength (advance s)) with (memoryLength s).
  change (programCounter (advance s)) with (programCounter s + 1).
  change (readMemory (advance s)) with (readMemory s).
  change (inMemory (advance s)) with (inMemory s).
  destruct (Z.ltb_spec (programCounter s + 1) (memoryLength s)); [|lia].
  destruct Hop as [-> | ->]; cbn in Htarget |- *.
  - injection Htarget as ->. by rewrite Hin, Hcan.
  - destruct (inMemory s (readMemory s (programCounter s + 1))); [|done].
    injection Htarget as ->. by rewrite Hin, Hcan.
Qed.

End Stores.

Section ProtectedStore.

(** C5: a STORE or STOREI whose effective target address is in memory and
    write-protected throws the protection error for that address.  The
    instruction itself changes nothing but the program counter, which is
    already on the operand word; seen from [step], the memory (the target
    word included), the accumulator, the call stack and the instruction
    count are as before the call, and no callback has fired. *)
Theorem protected_store_raises opcode s addr :
  opcode = OPCODES.STORE \/ opcode = OPCODES.STOREI ->
  0 <= programCounter s ->
  programCounter s + 1 < memoryLength s ->
  storeTarget opcode s = Some addr ->
  inMemory s addr = true ->
  addr ∈ protectedMemory s ->
  executeInstruction opcode None s
  = Outcome (Throw (ProtectedMemoryWrite addr)) (advance s) []
  /\ (instructionCount s < maxInstructions s ->
      programCounter s ∉ breakpoints s ->
      readMemory s (programCounter s) = opcode ->
      completed (step s) = Throw (ProtectedMemoryWrite addr)
      /\ fired (step s) = []
      /\ memory (final (step s)) = memory s
      /\ accumulator (final (step s)) = accumulator s
      /\ callStack (final (step s)) = callStack s
      /\ instructionCount (final (step s)) = instructionCount s
      /\ protectedMemory (final (step s)) = protectedMemory s
      /\ programCounter (final (step s)) = programCounter s + 1).
Proof.
  intros Hop Hpc0 Hlen Htarget Hin Hprot.
  split; [by apply executeInstruction_protected_store|].
  intros Hlim Hbp Hfetch.
  pose proof (step_executes s Hlim Hbp ltac:(lia)) as Hstep.
  destruct (fetched_fields s)
    as (Hpc & Hmem & Hacc & Hcs & Hpm & _ & _ & _ & Hcount).
  rewrite Hfetch, (executeInstruction_protected_store opcode (fetched s) addr)
    in Hstep.
  - cbn -[fetched] in Hstep. rewrite Hstep. cbn -[fetched].
    by rewrite Hpc, Hmem, Hacc, Hcs, Hpm, Hcount.
  - done.
  - unfold memoryLength in *. by rewrite Hpc, Hmem.
  - by rewrite storeTarget_fetched.
  - unfold inMemory, memoryLength in *. by rewrite Hmem.
  - by rewrite Hpm.
Qed.

Lemma protected_store_raises_witness :
  let s := protectMemoryRange 3 3 (loaded "-+ +0 0") in
  executeInstruction OPCODES.STORE None s
  = Outcome (Throw (ProtectedMemoryWrite 3)) (advance s) []
  /\ completed (step s) = Throw (ProtectedMemoryWrite 3).
Proof.
  intros s.
  split.
  - refine (proj1 (protected_store_raises OPCODES.STORE s 3
                     (or_introl eq_refl) _ _ _ _ _)); evaluate.
  - refine (proj1 (proj2 (protected_store_raises OPCODES.STORE s 3
                            (or_introl eq_refl) _ _ _ _ _) _ _ _)); evaluate.
Defined.

End ProtectedStore.

Section EmptyStackReturn.

(** C6, as amended: RET on an empty call stack ends the run through
    [onHalt], not [onError].  [step] returns [false] with [running]
    cleared; the one callback it calls is [onHalt], with the message
    'Return with empty call stack', when a handler is installed, and it
    never calls [onError]. *)
Theorem empty_stack_return_halts s :
  callStack s = [] ->
  instructionCount s < maxInstructions s ->
  programCounter s ∉ breakpoints s ->
  0 <= programCounter s < memoryLength s ->
  readMemory s (programCounter s) = OPCODES.RET ->
  completed (step s) = Return false
  /\ running (final (step s)) = false
  /\ fired (step s) = fire (onHalt s) (Halt ReturnEmptyStack)
  /\ (onHalt s = true -> fired (step s) = [Halt ReturnEmptyStack])
  /\ (forall m, Error m ∉ fired (step s)).
Proof.
  intros Hcs Hlim Hbp Hpc Hfetch.
  pose proof (step_executes s Hlim Hbp Hpc) as Hstep.
  destruct (fetched_fields s) as (_ & _ & _ & Hcs' & _ & _ & Hhalt & _).
  rewrite Hfetch in Hstep. unfold executeInstruction in Hstep.
  cbn -[fetched] in Hstep. rewrite Hcs', Hcs in Hstep. cbn -[fetched] in Hstep.
  rewrite Hstep, Hhalt. cbn -[fetched].
  split; [done|]. split; [done|]. split; [done|].
  split; [by intros ->|].
  intros m. destruct (onHalt s); cbn.
  - by intros [=]%list_elem_of_singleton.
  - apply not_elem_of_nil.
Qed.

Lemma empty_stack_return_halts_witness :
  let s := set_onError true (set_onHalt true (loaded "-+-")) in
  completed (step s) = Return false
  /\ running (final (step s)) = false
  /\ fired (step s) = [Halt ReturnEmptyStack].
Proof.
  intros s.
  split; [|split].
  - refine (proj1 (empty_stack_return_halts s _ _ _ _ _)); evaluate.
  - refine (proj1 (proj2 (empty_stack_return_halts s _ _ _ _ _))); evaluate.
  - refine (proj1 (proj2 (proj2 (proj2 (empty_stack_return_halts s _ _ _ _ _))))
              _); evaluate.
Defined.

(** C6 as stated fails: with both handlers installed, a RET on the empty
    call stack calls [onHalt] and does not call [onError]. *)
Lemma empty_stack_return_counterexample :
  let s := set_onError true (set_onHalt true (loaded "-+-")) in
  readMemory s (programCounter s) = OPCODES.RET
  /\ callStack s = []
  /\ completed (step s) = Return false
  /\ fired (step s) = [Halt ReturnEmptyStack].
Proof. vm_compute. repeat split. Qed.

End EmptyStackReturn.

Section CallReturn.

Lemma executeInstruction_CALL s :
  Z.of_nat (length (callStack s)) < maxCallDepth s ->
  programCounter s + 1 < memoryLength s ->
  let target := readMemory s (programCounter s + 1) in
  let pushed := set_callStack (callStack s ++ [programCounter s + 1 + 1])
                              (advance s) in
  executeInstruction OPCODES.CALL None s
  = proceed (if inMemory s target
             then set_programCounter (target - 1) pushed
             else pushed).
Proof.
  intros Hdepth Hlen target pushed. unfold executeInstruction.
  dispatch.
  destruct (Z.geb_spec (Z.of_nat (length (callStack s))) (maxCallDepth s)); [lia|].
  change (memoryLength (advance s)) with (memoryLength s).
  change (programCounter (advance s)) with (programCounter s + 1).
  destruct (Z.ltb_spec (programCounter s + 1) (memoryLength s)); [|lia].
  done.
Qed.

Lemma executeInstruction_RET s below returnAddress :
  callStack s = below ++ [returnAddress] ->
  executeInstruction OPCODES.RET None s
  = proceed (set_programCounter (returnAddress - 1) (set_callStack below s)).
Proof.
  intros Hcs. unfold executeInstruction.
  dispatch. by rewrite Hcs, last_snoc, removelast_last.
Qed.

Lemma step_CALL s :
  Z.of_nat (length (callStack s)) < maxCallDepth s ->
  instructionCount s < maxInstructions s ->
  programCounter s ∉ breakpoints s ->
  0 <= programCounter s ->
  programCounter s + 1 < memoryLength s ->
  readMemory s (programCounter s) = OPCODES.CALL ->
  let target := readMemory s (programCounter s + 1) in
  callStack (final (step s)) = callStack s ++ [programCounter s + 2]
  /\ programCounter (final (step s))
     = (if inMemory s target then target else programCounter s + 2)
  /\ instructionCount (final (step s)) = instructionCount s + 1
  /\ accumulator (final (step s)) = accumulator s
  /\ memory (final (step s)) = memory s.
Proof.
  intros Hdepth Hlim Hbp Hpc0 Hlen Hfetch target.
  pose proof (step_executes s Hlim Hbp ltac:(lia)) as Hstep.
  destruct (fetched_fields s)
    as (Hpc & Hmem & Hacc & Hcs & _ & Hmax & _ & _ & _).
  assert (memoryLength (fetched s) = memoryLength s) as Hlen'
    by (unfold memoryLength; by rewrite Hmem).
  assert (forall i, readMemory (fetched s) i = readMemory s i) as Hread
    by (intros i; unfold readMemory; by rewrite Hmem).
  assert (forall a, inMemory (fetched s) a = inMemory s a) as Hin
    by (intros a; unfold inMemory; by rewrite Hlen').
  rewrite Hfetch, executeInstruction_CALL in Hstep
    by (rewrite ?Hcs, ?Hmax, ?Hpc, ?Hlen'; done).
  rewrite Hin, Hread, Hpc, Hcs in Hstep. fold target in Hstep.
  replace (programCounter s + 1 + 1) with (programCounter s + 2) in Hstep by lia.
  destruct (inMemory s target); cbn -[fetched] in Hstep;
    destruct Hstep as (-> & -> & -> & -> & ->);
    rewrite ?Hacc, ?Hmem; (split; [done|]); (split; [lia|done]).
Qed.

Lemma step_RET s below returnAddress :
  callStack s = below ++ [returnAddress] ->
  instructionCount s < maxInstructions s ->
  programCounter s ∉ breakpoints s ->
  0 <= programCounter s < memoryLength s ->
  readMemory s (programCounter s) = OPCODES.RET ->
  callStack (final (step s)) = below
  /\ programCounter (final (step s)) = returnAddress.
Proof.
  intros Hstack Hlim Hbp Hpc0 Hfetch.
  pose proof (step_executes s Hlim Hbp Hpc0) as Hstep.
  destruct (fetched_fields s) as (_ & _ & _ & Hcs & _).
  rewrite Hfetch, (executeInstruction_RET _ below returnAddress) in Hstep
    by (by rewrite Hcs).
  cbn -[fetched] in Hstep. destruct Hstep as (-> & _ & _ & _ & ->).
  split; [done|lia].
Qed.

End CallReturn.

Section CallPush.

(** C10: with room on the call stack and the operand word in memory, CALL
    pushes the address after its operand word before it looks at the
    target.  A target outside the memory leaves the program counter on
    its way to the next instruction, so the stack has grown and control
    has not moved; a target in memory receives control. *)
Theorem call_pushes_before_range_check s :
  Z.of_nat (length (callStack s)) < maxCallDepth s ->
  0 <= programCounter s ->
  programCounter s + 1 < memoryLength s ->
  let target := readMemory s (programCounter s + 1) in
  let r := executeInstruction OPCODES.CALL None s in
  (completed r = Return true
   /\ callStack (final r) = callStack s ++ [programCounter s + 2]
   /\ (inMemory s target = false ->
       programCounter (final r) = programCounter s + 1))
  /\ (instructionCount s < maxInstructions s ->
      programCounter s ∉ breakpoints s ->
      readMemory s (programCounter s) = OPCODES.CALL ->
      callStack (final (step s)) = callStack s ++ [programCounter s + 2]
      /\ (inMemory s target = false ->
          programCounter (final (step s)) = programCounter s + 2)
      /\ (inMemory s target = true ->
          programCounter (final (step s)) = target)).
Proof.
  intros Hdepth Hpc0 Hlen target r. split.
  - subst r. rewrite executeInstruction_CALL by done. fold target.
    replace (programCounter s + 1 + 1) with (programCounter s + 2) by lia.
    destruct (inMemory s target); cbn; by repeat split.
  - intros Hlim Hbp Hfetch.
    destruct (step_CALL s Hdepth Hlim Hbp Hpc0 Hlen Hfetch) as (-> & -> & _).
    fold target. split; [done|]. by split; intros ->.
Qed.

Lemma call_pushes_before_range_check_witness :
  let s := loaded "+-+ - 0" in
  callStack (final (step s)) = callStack s ++ [programCounter s + 2]
  /\ programCounter (final (step s)) = programCounter s + 2.
Proof.
  intros s.
  split.
  - refine (proj1 (proj2 (call_pushes_before_range_check s _ _ _) _ _ _));
      evaluate.
  - refine (proj1 (proj2 (proj2 (call_pushes_before_range_check s _ _ _) _ _ _))
              _); evaluate.
Defined.

End CallPush.

Section CallReturnSymmetry.

Lemma executeInstruction_callStack opcode operand s :
  let after := callStack (final (executeInstruction opcode operand s)) in
  after = callStack s
  \/ (exists x, after = callStack s ++ [x])
  \/ (exists x, callStack s = after ++ [x]).
Proof.
  unfold_exec. repeat case_match; cbn; auto.
  - right. left. by eexists.
  - right. left. by eexists.
  - right. right.
    match goal with H : last _ = Some _ |- _ =>
      apply last_Some in H as [l' ->] end.
    rewrite removelast_last. by eexists.
Qed.

Lemma step_callStack s :
  let after := callStack (final (step s)) in
  after = callStack s
  \/ (exists x, after = callStack s ++ [x])
  \/ (exists x, callStack s = after ++ [x]).
Proof.
  unfold step. fold (recorded s).
  destruct (_ >=? _); [by left|].
  pose proof (f_equal saved_callStack (currentSnapshot_recorded s)) as Hcs.
  cbn in Hcs. rewrite <- Hcs. generalize (recorded s). clear. intros s.
  destruct (bool_decide _); [by left|].
  destruct (_ || _); [by left|].
  cbn [decodeInstruction].
  match goal with |- context [executeInstruction ?o ?op ?st] =>
    pose proof (executeInstruction_callStack o op st) as Hexec;
    destruct (executeInstruction o op st) as [c f ev] end.
  cbn in Hexec.
  destruct c as [[]|]; cbn; [|done..].
  repeat case_match; by cbn.
Qed.

(** A part of the stack below the current depth survives a step. *)
Lemma step_callStack_prefix s below :
  below `prefix_of` callStack s ->
  (length below <= length (callStack (final (step s))))%nat ->
  below `prefix_of` callStack (final (step s)).
Proof.
  intros Hpre Hlen.
  destruct (step_callStack s) as [-> | [[x ->] | [x Hpop]]]; [done| |].
  - by apply prefix_app_r.
  - rewrite Hpop in Hpre. destruct Hpre as [k Hk].
    destruct k as [|y k _] using rev_ind.
    + rewrite app_nil_r in Hk. subst below.
      rewrite length_app in Hlen. cbn in Hlen. lia.
    + rewrite app_assoc in Hk. apply app_inj_tail in Hk as [-> _].
      by apply prefix_app_r.
Qed.

Lemma steps_callStack_prefix n s below :
  below `prefix_of` callStack s ->
  (forall i, (i <= n)%nat -> (length below <= length (callStack (steps i s)))%nat) ->
  below `prefix_of` callStack (steps n s).
Proof.
  intros Hpre. induction n as [|n IH]; intros Hdeep; [done|].
  rewrite steps_S. apply step_callStack_prefix.
  - apply IH. intros i Hi. apply Hdeep. lia.
  - rewrite <- steps_S. by apply Hdeep.
Qed.

(** C8: a CALL at address [p], executed with room on the call stack, the
    operand word and the target in memory, transfers control to the
    target with [p + 2] on top of the stack.  However many steps follow,
    nested calls and returns included, as long as the stack stays above
    the depth the CALL found, the RET executed at the depth the CALL left
    resumes at [p + 2], the instruction after the operand word, and gives
    the caller its stack back. *)
Theorem call_return_symmetry s n :
  Z.of_nat (length (callStack s)) < maxCallDepth s ->
  instructionCount s < maxInstructions s ->
  programCounter s ∉ breakpoints s ->
  0 <= programCounter s ->
  programCounter s + 1 < memoryLength s ->
  readMemory s (programCounter s) = OPCODES.CALL ->
  inMemory s (readMemory s (programCounter s + 1)) = true ->
  let called := final (step s) in
  let t := steps n called in
  (forall i, (i <= n)%nat ->
             (length (callStack s) < length (callStack (steps i called)))%nat) ->
  length (callStack t) = S (length (callStack s)) ->
  instructionCount t < maxInstructions t ->
  programCounter t ∉ breakpoints t ->
  0 <= programCounter t < memoryLength t ->
  readMemory t (programCounter t) = OPCODES.RET ->
  programCounter called = readMemory s (programCounter s + 1)
  /\ callStack called = callStack s ++ [programCounter s + 2]
  /\ programCounter (final (step t)) = programCounter s + 2
  /\ callStack (final (step t)) = callStack s.
Proof.
  intros Hdepth Hlim Hbp Hpc0 Hlen Hfetch Hin called t Hdeep Hlevel
    Hlim' Hbp' Hpc' Hfetch'.
  destruct (step_CALL s Hdepth Hlim Hbp Hpc0 Hlen Hfetch) as (Hpush & Hjump & _).
  rewrite Hin in Hjump. fold called in Hpush, Hjump.
  split; [done|]. split; [done|].
  assert (callStack t = callStack s ++ [programCounter s + 2]) as Hstack.
  { pose proof (steps_callStack_prefix n called
                  (callStack s ++ [programCounter s + 2])) as Hpre.
    destruct Hpre as [k Hk].
    - by rewrite Hpush.
    - intros i Hi. rewrite length_app. cbn. specialize (Hdeep i Hi). lia.
    - fold t in Hk. rewrite Hk in Hlevel.
      rewrite !length_app in Hlevel. cbn in Hlevel.
      destruct k; [|cbn in Hlevel; lia]. by rewrite app_nil_r in Hk. }
  destruct (step_RET t _ _ Hstack Hlim' Hbp' Hpc' Hfetch') as [-> ->].
  done.
Qed.

Lemma call_return_symmetry_witness :
  let s := loaded "+-+ ++ 0 0 +-+ +-+ -+- -+-" in
  let t := steps 2 (final (step s)) in
  programCounter (final (step s)) = readMemory s (programCounter s + 1)
  /\ callStack (final (step s)) = callStack s ++ [programCounter s + 2]
  /\ programCounter (final (step t)) = programCounter s + 2
  /\ callStack (final (step t)) = callStack s.
Proof.
  intros s t.
  refine (call_return_symmetry s 2 _ _ _ _ _ _ _ _ _ _ _ _ _).
  1-7: evaluate.
  2-6: evaluate.
  intros i Hi. destruct i as [|[|[|i]]]; [vm_compute; lia..|lia].
Defined.

End CallReturnSymmetry.

Section Reset.

(** C9: [reset] puts the accumulator, the program counter and the
    instruction register to 0, fills the memory with zeros at its length,
    empties the call stack and the history and zeroes the instruction
    count; the address breakpoints, the conditional breakpoints and the
    watches are the ones it found. *)
Theorem reset_keeps_debug_configuration s :
  let s' := final (reset s) in
  accumulator s' = 0
  /\ programCounter s' = 0
  /\ instructionRegister s' = 0
  /\ memory s' = replicate (length (memory s)) 0
  /\ callStack s' = []
  /\ instructionCount s' = 0
  /\ executionHistory s' = []
  /\ executionHistory (clearHistory s) = []
  /\ breakpoints s' = breakpoints s
  /\ conditionalBreakpoints s' = conditionalBreakpoints s
  /\ watches s' = watches s.
Proof. cbn. by repeat split. Qed.

End Reset.

(** * Well-formed emulators *)

Section WellFormed.

Lemma constructor_wellFormed memorySize : wellFormed (constructor memorySize).
Proof. split; cbn; [by rewrite !length_replicate|constructor]. Qed.

Lemma executeInstruction_counters opcode operand s :
  length (memoryAccessCounts (final (executeInstruction opcode operand s)))
  = length (memoryAccessCounts s).
Proof.
  unfold_exec. repeat case_match; cbn; rewrite ?length_alter; done.
Qed.

Lemma step_counters s :
  length (memoryAccessCounts (final (step s))) = length (memoryAccessCounts s).
Proof.
  unfold step. fold (recorded s).
  destruct (_ >=? _); [done|].
  assert (memoryAccessCounts (recorded s) = memoryAccessCounts s) as <-
    by (rewrite recorded_unfold; done).
  generalize (recorded s). clear. intros s.
  destruct (bool_decide _); [done|].
  destruct (_ || _); [done|].
  cbn [decodeInstruction].
  match goal with |- context [executeInstruction ?o ?op ?st] =>
    pose proof (executeInstruction_counters o op st) as Hexec;
    destruct (executeInstruction o op st) as [c f ev] end.
  cbn in Hexec.
  destruct c as [[]|]; cbn; [|done..].
  repeat case_match; by cbn.
Qed.

Lemma recorded_wellFormed s : wellFormed s -> wellFormed (recorded s).
Proof.
  intros [Hcounters Hhistory]. unfold recorded, saveStateToHistory.
  repeat case_match; split; cbn; try done.
  - apply Forall_tail, Forall_app. split; [done|]. by repeat constructor.
  - apply Forall_app. split; [done|]. by repeat constructor.
Qed.

Lemma step_wellFormed s : wellFormed s -> wellFormed (final (step s)).
Proof.
  intros Hwf. destruct (step_frame s) as [Hcfg Hhistory].
  destruct Hcfg as (_ & _ & _ & _ & _ & _ & _ & _ & Hlen & _).
  split; [rewrite step_counters, Hlen; apply Hwf|].
  rewrite Hhistory, Hlen.
  destruct (_ >=? _); [apply Hwf|].
  destruct (recorded_wellFormed s Hwf) as [_ Hrec].
  by replace (length (memory (recorded s))) with (length (memory s)) in Hrec
    by (rewrite recorded_unfold; done).
Qed.

Lemma stepBack_wellFormed s : wellFormed s -> wellFormed (final (stepBack s)).
Proof.
  intros [Hcounters Hhistory]. unfold stepBack.
  destruct (last (executionHistory s)) as [saved|] eqn:Hlast; [|by split].
  apply last_Some in Hlast as [history Heq].
  rewrite Heq in Hhistory |- *. rewrite removelast_last.
  apply Forall_app in Hhistory as [Hhistory Hsaved].
  rewrite Forall_singleton in Hsaved.
  split; cbn; [congruence|]. by rewrite Hsaved.
Qed.

Lemma reset_wellFormed s : wellFormed s -> wellFormed (final (reset s)).
Proof.
  intros [Hcounters _]. split; cbn; [|constructor].
  by rewrite !length_replicate.
Qed.

Lemma loadTokens_wellFormed i tokens s :
  wellFormed s -> wellFormed (loadTokens i tokens s).2.
Proof.
  revert i s. induction tokens as [|token tokens IH]; intros i s Hwf;
    cbn [loadTokens]; [done|].
  destruct (i <? length (memory s))%nat; [|done].
  destruct (negb (validateTernary token)); [done|].
  destruct (fromBalancedTernary token) as [v|e]; [|done].
  apply IH. destruct Hwf as [Hcounters Hhistory].
  split; cbn; rewrite length_insert; done.
Qed.

Lemma loadProgram_wellFormed programText s :
  wellFormed s -> wellFormed (final (loadProgram programText s)).
Proof.
  intros Hwf. apply reset_wellFormed in Hwf. unfold loadProgram.
  destruct (_ || _); [done|].
  pose proof (loadTokens_wellFormed 0 (splitWhitespace (trim programText)) _ Hwf).
  by destruct (loadTokens _ _ _).
Qed.

(** In a well-formed emulator the counter of every address in memory
    exists. *)
Lemma counted_address_in_range s addr :
  wellFormed s ->
  inMemory s addr = true ->
  (Z.to_nat addr < length (memoryAccessCounts s))%nat.
Proof.
  intros [Hcounters _] Hin. unfold inMemory, memoryLength in Hin.
  apply andb_true_iff in Hin as [Hlow Hhigh].
  apply Z.geb_le in Hlow. apply Z.ltb_lt in Hhigh. lia.
Qed.

End WellFormed.

(** * More on the numeral codec *)

Section CodecCanonical.

Lemma toBalancedTernary_loop_step n result :
  toBalancedTernary_loop n result
  = if decide (0 < n)
    then if decide (n mod 3 = 2)
         then toBalancedTernary_loop (n / 3 + 1) (-1 :: result)
         else toBalancedTernary_loop (n / 3) (n mod 3 :: result)
    else result.
Proof.
  rewrite toBalancedTernary_loop_equation_1.
  destruct (decide (0 < n)); simpl; [|done].
  destruct (decide (n mod 3 = 2)); simpl; done.
Qed.

(** One turn of the loop takes the last balanced digit off. *)
Lemma toBalancedTernary_loop_digit m d result :
  isTrit d ->
  0 < 3 * m + d ->
  toBalancedTernary_loop (3 * m + d) result
  = toBalancedTernary_loop m (d :: result).
Proof.
  intros Hd Hpos. rewrite toBalancedTernary_loop_step.
  destruct (decide (0 < 3 * m + d)); [|lia].
  destruct Hd as [-> | [-> | ->]].
  - assert ((3 * m + -1) mod 3 = 2) as Hmod
      by (symmetry; apply (Z.mod_unique _ _ (m - 1)); lia).
    assert ((3 * m + -1) / 3 = m - 1) as Hdiv
      by (symmetry; apply (Z.div_unique _ _ _ 2); lia).
    rewrite Hmod, Hdiv. destruct (decide (2 = 2)); [|done].
    f_equal. lia.
  - assert ((3 * m + 0) mod 3 = 0) as Hmod
      by (symmetry; apply (Z.mod_unique _ _ m); lia).
    assert ((3 * m + 0) / 3 = m) as Hdiv
      by (symmetry; apply (Z.div_unique _ _ _ 0); lia).
    rewrite Hmod, Hdiv. destruct (decide (0 = 2)); [lia|done].
  - assert ((3 * m + 1) mod 3 = 1) as Hmod
      by (symmetry; apply (Z.mod_unique _ _ m); lia).
    assert ((3 * m + 1) / 3 = m) as Hdiv
      by (symmetry; apply (Z.div_unique _ _ _ 1); lia).
    rewrite Hmod, Hdiv. destruct (decide (1 = 2)); [lia|done].
Qed.

Lemma ternaryValue_snoc digits d :
  ternaryValue (digits ++ [d]) = 3 * ternaryValue digits + d.
Proof.
  induction digits as [|x digits IH]; [cbn; lia|].
  cbn [app ternaryValue]. rewrite IH, length_app. cbn [length].
  replace (Z.of_nat (length digits + 1)) with (Z.succ (Z.of_nat (length digits)))
    by lia.
  rewrite Z.pow_succ_r by lia. lia.
Qed.

(** [k] balanced digits reach the integers of magnitude up to (3^k - 1) / 2. *)
Lemma ternaryValue_bound digits :
  Forall isTrit digits ->
  2 * Z.abs (ternaryValue digits) < 3 ^ Z.of_nat (length digits).
Proof.
  induction 1 as [|d digits Hd _ IH]; [done|].
  cbn [ternaryValue length]. rewrite Nat2Z.inj_succ, Z.pow_succ_r by lia.
  assert (0 < 3 ^ Z.of_nat (length digits)) by (apply Z.pow_pos_nonneg; lia).
  unfold isTrit in Hd. lia.
Qed.

(** With a leading digit that is not 0 the value has the sign of that digit,
    and a magnitude above (3^(k-1) - 1) / 2. *)
Lemma ternaryValue_leading d rest :
  d = 1 \/ d = -1 ->
  Forall isTrit rest ->
  3 ^ Z.of_nat (length rest) < 2 * (d * ternaryValue (d :: rest)).
Proof.
  intros Hd Hrest. pose proof (ternaryValue_bound rest Hrest) as Hbound.
  cbn [ternaryValue].
  assert (0 < 3 ^ Z.of_nat (length rest)) by (apply Z.pow_pos_nonneg; lia).
  destruct Hd as [-> | ->]; lia.
Qed.

(** The loop writes back the digits of a numeral with leading digit 1. *)
Lemma toBalancedTernary_loop_rebuilds rest result :
  Forall isTrit rest ->
  toBalancedTernary_loop (ternaryValue (1 :: rest)) result
  = 1 :: rest ++ result.
Proof.
  revert result. induction rest as [|d rest IH] using rev_ind;
    intros result Hrest.
  - change (ternaryValue [1]) with (3 * 0 + 1).
    rewrite toBalancedTernary_loop_digit by (unfold isTrit; lia).
    by rewrite toBalancedTernary_loop_step.
  - apply Forall_app in Hrest as [Hrest Hd]. rewrite Forall_singleton in Hd.
    change (1 :: rest ++ [d]) with ((1 :: rest) ++ [d]).
    rewrite ternaryValue_snoc.
    pose proof (ternaryValue_leading 1 rest ltac:(by left) Hrest) as Hlead.
    assert (0 < 3 ^ Z.of_nat (length rest)) by (apply Z.pow_pos_nonneg; lia).
    rewrite toBalancedTernary_loop_digit; [|done|unfold isTrit in Hd; lia].
    rewrite IH by done. by rewrite <- app_assoc.
Qed.

(** The loop starts its output with the digit 1. *)
Lemma toBalancedTernary_loop_head n result :
  0 < n -> exists rest, toBalancedTernary_loop n result = 1 :: rest.
Proof.
  funelim (toBalancedTernary_loop n result); intros Hn; [lia| |].
  - match goal with IH : 0 < _ -> _ |- _ => apply IH end.
    pose proof (Z.div_pos n 3). lia.
  - destruct (decide (0 < n / 3)) as [Hmore|Hlast].
    + match goal with IH : 0 < _ -> _ |- _ => by apply IH end.
    + pose proof (Z.div_mod n 3 ltac:(lia)) as Hdiv.
      pose proof (Z.mod_pos_bound n 3 ltac:(lia)) as Hrem.
      pose proof (Z.div_pos n 3 ltac:(lia) ltac:(lia)) as Hquot.
      replace (n / 3) with 0 by lia. replace (n mod 3) with 1 by lia.
      rewrite toBalancedTernary_loop_step. by eexists.
Qed.

Lemma length_digitSymbols digits :
  Forall isTrit digits ->
  length (concat (map digitSymbol digits)) = length digits.
Proof.
  induction 1 as [|d digits Hd _ IH]; [done|].
  cbn [map concat]. rewrite length_app, IH.
  by destruct Hd as [-> | [-> | ->]].
Qed.


(** The digits [toBalancedTernary] writes for an integer other than 0. *)
Lemma toBalancedTernary_digits n :
  n <> 0 ->
  exists rest,
    Forall isTrit rest
    /\ ternaryValue (Z.sgn n :: rest) = n
    /\ toBalancedTernary n = concat (map digitSymbol (Z.sgn n :: rest)).
Proof.
  intros Hn. unfold toBalancedTernary.
  destruct (Z.eqb_spec n 0) as [|_]; [done|].
  pose proof (toBalancedTernary_loop_trits (Z.abs n) [] ltac:(constructor)) as Ht.
  pose proof (toBalancedTernary_loop_value (Z.abs n) [] ltac:(lia)) as Hv.
  destruct (toBalancedTernary_loop_head (Z.abs n) [] ltac:(lia)) as [rest Hrest].
  rewrite Hrest in Ht, Hv |- *. cbn [length ternaryValue] in Hv.
  apply Forall_cons in Ht as [_ Ht].
  destruct (Z.ltb_spec n 0) as [Hneg|Hpos].
  - exists (map Z.opp rest). split; [by apply isTrit_opp|].
    replace (Z.sgn n) with (-1) by lia.
    change (-1 :: map Z.opp rest) with (map Z.opp (1 :: rest)).
    split; [|done]. rewrite ternaryValue_opp. cbn [ternaryValue]. lia.
  - exists rest. split; [done|].
    replace (Z.sgn n) with 1 by lia. split; [|done].
    cbn [ternaryValue]. lia.
Qed.


Lemma canonicalChar_digits s :
  Forall canonicalChar s ->
  Forall isTrit (map digitValue s)
  /\ map digitOfChar s = map Some (map digitValue s)
  /\ concat (map digitSymbol (map digitValue s)) = s.
Proof.
  induction 1 as [|c s Hc _ (IHt & IHd & IHs)]; [by repeat split|].
  cbn [map concat]. rewrite IHd, IHs.
  destruct Hc as [-> | [-> | ->]]; (split; [constructor; [|done]|done]);
    unfold isTrit; cbn; lia.
Qed.

Lemma toBalancedTernary_of_digits d rest :
  d = 1 \/ d = -1 ->
  Forall isTrit rest ->
  toBalancedTernary (ternaryValue (d :: rest))
  = concat (map digitSymbol (d :: rest)).
Proof.
  intros Hd Hrest. pose proof (ternaryValue_leading d rest Hd Hrest) as Hlead.
  assert (0 < 3 ^ Z.of_nat (length rest)) by (apply Z.pow_pos_nonneg; lia).
  unfold toBalancedTernary.
  destruct (Z.eqb_spec (ternaryValue (d :: rest)) 0) as [Hzero|_]; [lia|].
  destruct Hd as [-> | ->].
  - destruct (Z.ltb_spec (ternaryValue (1 :: rest)) 0); [lia|].
    rewrite Z.abs_eq by lia.
    by rewrite toBalancedTernary_loop_rebuilds, app_nil_r.
  - destruct (Z.ltb_spec (ternaryValue (-1 :: rest)) 0); [|lia].
    replace (Z.abs (ternaryValue (-1 :: rest)))
      with (ternaryValue (1 :: map Z.opp rest)).
    + rewrite toBalancedTernary_loop_rebuilds, app_nil_r by by apply isTrit_opp.
      assert (map Z.opp (map Z.opp rest) = rest) as Hinvolutive.
      { rewrite map_map, (map_ext _ id), map_id; [done|intros; cbn; lia]. }
      cbn [map]. by rewrite Hinvolutive.
    + change (1 :: map Z.opp rest) with (map Z.opp (-1 :: rest)).
      rewrite ternaryValue_opp. lia.
Qed.

(** A numeral of at most 34 digits has a value of magnitude at most
    (3^34 - 1) / 2, and the integers of that magnitude have such numerals. *)
Lemma toBalancedTernary_short n :
  Z.abs n <= 8338590849833284 -> (length (toBalancedTernary n) <= 34)%nat.
Proof.
  intros Hn. destruct (decide (n = 0)) as [-> | Hnonzero]; [cbn; lia|].
  destruct (toBalancedTernary_digits n Hnonzero) as (rest & Hrest & Hvalue & ->).
  rewrite length_digitSymbols
    by (constructor; [unfold isTrit; lia|done]).
  pose proof (ternaryValue_leading (Z.sgn n) rest ltac:(lia) Hrest) as Hlower.
  rewrite Hvalue in Hlower. cbn [length].
  destruct (decide (length rest < 34)%nat) as [|Hlong]; [lia|].
  assert (3 ^ 34 <= 3 ^ Z.of_nat (length rest))
    by (apply Z.pow_le_mono_r; lia).
  change (3 ^ 34) with 16677181699666569 in *. lia.
Qed.

(** Within the magnitude (3^34 - 1) / 2 = 8338590849833284 the parser reads
    back what [toBalancedTernary] wrote. *)
Lemma round_trip_exact n :
  Z.abs n <= 8338590849833284 ->
  fromBalancedTernary (toBalancedTernary n) = Return (Finite n).
Proof.
  intros Hn. pose proof (toBalancedTernary_short n Hn) as Hshort.
  destruct (decide (n = 0)) as [-> | Hnonzero]; [done|].
  destruct (toBalancedTernary_digits n Hnonzero)
    as (rest & Hrest & Hvalue & Hdigits).
  rewrite Hdigits in Hshort |- *. rewrite <- Hvalue at 2.
  apply fromBalancedTernary_digits; [|done].
  apply digitOfChar_digitSymbol. constructor; [unfold isTrit; lia|done].
Qed.

(** C1: [toBalancedTernary 0] is the one digit "0", but the round trip
    fails on the code at the integer 8338590849833285 = (3^34 + 1) / 2, a
    safe integer of the host.  [toBalancedTernary] writes it exactly, as '+'
    followed by 34 times '-'; reading that numeral back,
    [fromBalancedTernary] adds [Math.pow(3, 34)], which binary64 holds as
    16677181699666568, and returns 8338590849833284. *)
Theorem round_trip_fails :
  toBalancedTernary 0 = lit "0"
  /\ 8338590849833285 < 2 ^ 53
  /\ toBalancedTernary 8338590849833285
     = lit "+----------------------------------"
  /\ pow3 34 = Finite 16677181699666568
  /\ 3 ^ 34 = 16677181699666569
  /\ fromBalancedTernary (toBalancedTernary 8338590849833285)
     = Return (Finite 8338590849833284).
Proof.
  assert (toBalancedTernary 8338590849833285
          = lit "+----------------------------------") as Hwritten.
  { replace 8338590849833285 with (ternaryValue (1 :: replicate 34 (-1)))
      by (vm_compute; reflexivity).
    rewrite toBalancedTernary_of_digits; [reflexivity|by left|].
    apply Forall_replicate. unfold isTrit. lia. }
  split; [reflexivity|]. split; [reflexivity|]. split; [done|].
  split; [vm_compute; reflexivity|]. split; [reflexivity|].
  rewrite Hwritten. vm_compute. reflexivity.
Qed.

(** X2: a canonical numeral of at most 34 digits is read and written back
    unchanged: reading it succeeds with an integer, and [toBalancedTernary]
    turns that integer into the same string. *)
Theorem canonical_numeral_round_trip s :
  isCanonical s ->
  (length s <= 34)%nat ->
  exists value,
    fromBalancedTernary s = Return (Finite value)
    /\ toBalancedTernary value = s.
Proof.
  intros [Hchars Hlead] Hshort.
  destruct (canonicalChar_digits s Hchars) as (Htrits & Hdigits & Hsymbols).
  exists (ternaryValue (map digitValue s)).
  split; [by apply fromBalancedTernary_digits|].
  destruct Hlead as [-> | Hlead]; [done|].
  destruct s as [|c s]; [done|]. cbn [hd] in Hlead.
  apply Forall_cons in Hchars as [Hc Hchars].
  cbn [map] in Htrits, Hsymbols |- *. apply Forall_cons in Htrits as [_ Htrits].
  rewrite toBalancedTernary_of_digits; [done| |done].
  destruct Hc as [-> | [-> | ->]]; [by right|done|by left].
Qed.

Lemma canonical_numeral_round_trip_witness :
  exists value,
    fromBalancedTernary (lit "-0+") = Return (Finite value)
    /\ toBalancedTernary value = lit "-0+".
Proof.
  apply canonical_numeral_round_trip.
  - split.
    + repeat (constructor; [unfold canonicalChar; auto|]). constructor.
    + right. discriminate.
  - cbn. lia.
Defined.

End CodecCanonical.

(** * Validation, parsing and the loader *)

Section Loader.

Lemma accepted_solid c : accepted c -> solid c.
Proof.
  rewrite accepted_iff. unfold documented, solid.
  by intros [[->|[->|[->|[->| ->]]]]| ->].
Qed.

Lemma validTernaryChar_spec c :
  validTernaryChar c = true <-> accepted c \/ ~ solid c.
Proof.
  unfold validTernaryChar, accepted, digitOfChar, solid.
  destruct (c =? ch_minus)%N, (c =? ch_minus_sign)%N, (c =? ch_underscore)%N,
    (c =? ch_zero)%N, (c =? ch_plus)%N, (c =? ch_one)%N; cbn;
    try (split; [by left; eexists|done]).
  destruct (isWhitespace c); split; try done.
  - by right.
  - intros [[? [=]]|Hsolid]; by destruct Hsolid.
Qed.

Lemma validateTernary_Forall s :
  validateTernary s = true <-> Forall (fun c => validTernaryChar c = true) s.
Proof.
  unfold validateTernary. induction s as [|c s IH]; cbn.
  - by split.
  - by rewrite andb_true_iff, Forall_cons, IH.
Qed.

Lemma validateTernary_solid s :
  Forall solid s -> validateTernary s = true <-> Forall accepted s.
Proof.
  rewrite validateTernary_Forall.
  induction 1 as [|c s Hc _ IH]; [done|].
  rewrite !Forall_cons, IH, validTernaryChar_spec. split; [|tauto].
  by intros [[|[]] ?].
Qed.

Lemma fromBalancedTernary_accepted s :
  Forall accepted s ->
  (length s <= 34)%nat ->
  fromBalancedTernary s = Return (Finite (tokenValue s)).
Proof. intros. by apply fromBalancedTernary_digits; [apply digitOfChar_accepted|]. Qed.

Lemma fromBalancedTernary_returns s :
  (exists value, fromBalancedTernary s = Return value) <-> Forall accepted s.
Proof.
  split; [|apply fromBalancedTernary_total].
  intros [value Hvalue].
  destruct (last_rejected s) as [|(before & c & after & -> & Hc & Hafter)];
    [done|].
  unfold fromBalancedTernary in Hvalue.
  rewrite length_app in Hvalue. cbn [length] in Hvalue.
  replace (length before + S (length after) =? 0)%nat with false in Hvalue
    by (symmetry; apply Nat.eqb_neq; lia).
  rewrite rev_app_distr in Hvalue. cbn [rev] in Hvalue.
  rewrite <- app_assoc in Hvalue. cbn [app] in Hvalue.
  rewrite fromBalancedTernary_loop_rejects in Hvalue; [done| |done].
  by apply Forall_rev.
Qed.

(** X3: [fromBalancedTernary] returns exactly on the strings that
    [validateTernary] passes and that hold no whitespace; on such a string
    of at most 34 characters it returns the value of the digits. *)
Theorem fromBalancedTernary_returns_iff s :
  ((exists value, fromBalancedTernary s = Return value)
   <-> validateTernary s = true /\ Forall solid s)
  /\ ((length s <= 34)%nat ->
      forall value,
        fromBalancedTernary s = Return value -> value = Finite (tokenValue s)).
Proof.
  split.
  - rewrite fromBalancedTernary_returns. split.
    + intros Haccepted.
      assert (Forall solid s) as Hsolid
        by (eapply Forall_impl; [done|apply accepted_solid]).
      split; [by apply validateTernary_solid|done].
    + intros [Hvalid Hsolid]. by apply validateTernary_solid.
  - intros Hshort value Hvalue.
    assert (Forall accepted s) as Haccepted
      by (apply fromBalancedTernary_returns; by eexists).
    rewrite fromBalancedTernary_accepted in Hvalue by done. congruence.
Qed.

Lemma fromBalancedTernary_returns_iff_witness :
  (exists value, fromBalancedTernary (lit "+_1") = Return value)
  /\ forall value,
       fromBalancedTernary (lit "+_1") = Return value -> value = Finite 7.
Proof.
  destruct (fromBalancedTernary_returns_iff (lit "+_1")) as [Hiff Hvalue].
  split.
  - apply Hiff. split; [reflexivity|].
    by repeat (constructor; [by vm_compute|]).
  - apply Hvalue. cbn. lia.
Defined.

(** The word the loader stores for a token of digits. *)
Lemma storedWord_accepted token :
  Forall accepted token ->
  exists value,
    fromBalancedTernary token = Return value /\ storedWord token = wordOf value.
Proof.
  intros [value Hvalue]%fromBalancedTernary_total. exists value.
  split; [done|]. unfold storedWord. by rewrite Hvalue.
Qed.

Lemma storedWord_tokenValue token :
  Forall accepted token ->
  (length token <= 34)%nat ->
  storedWord token = tokenValue token.
Proof.
  intros Hok Hshort. unfold storedWord.
  by rewrite fromBalancedTernary_accepted.
Qed.

Lemma storedWord_nil : storedWord [] = 0.
Proof. done. Qed.

Lemma take_map_agree {A B} (f g : A -> B) n l k :
  Forall (fun x => f x = g x) (take n l) ->
  take n (map f l ++ k) = take n (map g l ++ k).
Proof.
  revert n. induction l as [|x l IH]; intros [|n]; cbn; try done.
  intros [Hx Hl]%Forall_cons. by rewrite Hx, IH.
Qed.

(** ** Tokens *)

Lemma dropLeadingWhitespace_blank s :
  Forall (fun c => ~ solid c) s -> dropLeadingWhitespace s = [].
Proof.
  induction 1 as [|c s Hc _ IH]; [done|]. cbn. unfold solid in Hc.
  by destruct (isWhitespace c).
Qed.

Lemma trim_blank s : Forall (fun c => ~ solid c) s -> trim s = [].
Proof. intros Hs. unfold trim. by rewrite (dropLeadingWhitespace_blank s). Qed.

Lemma split_loop_solid s cur inSeparator :
  Forall solid cur -> Forall (Forall solid) (split_loop s cur inSeparator).
Proof.
  revert cur inSeparator.
  induction s as [|c s IH]; intros cur inSeparator Hcur; cbn.
  - apply Forall_singleton. by apply Forall_rev.
  - destruct (isWhitespace c) eqn:Hc.
    + destruct inSeparator; [by apply IH|].
      apply Forall_cons. split; [by apply Forall_rev|by apply IH].
    + apply IH. by apply Forall_cons.
Qed.

Lemma splitWhitespace_solid s : Forall (Forall solid) (splitWhitespace s).
Proof. by apply split_loop_solid. Qed.

(** ** The loop of the loader *)

Lemma loadTokens_memory_length i tokens s :
  length (memory (loadTokens i tokens s).2) = length (memory s).
Proof. by destruct (loadTokens_frame i tokens s) as (_ & ? & ? & ? & ? & ? & ? & ? & ? & ? & ?). Qed.

Lemma set_memory_set_memory m m' s :
  set_memory m (set_memory m' s) = set_memory m s.
Proof. done. Qed.

Lemma memory_set_memory m s : memory (set_memory m s) = m.
Proof. done. Qed.

Lemma take_drop_insert (m : list Z) i k v values :
  (i < length m)%nat -> (i < k)%nat ->
  take (S i) (<[i:=v]> m) ++ values ++ drop k (<[i:=v]> m)
  = take i m ++ (v :: values) ++ drop k m.
Proof.
  intros Hi Hk.
  rewrite (take_S_r _ _ v) by (apply list_lookup_insert_eq; lia).
  rewrite take_insert_ge by lia. rewrite <- app_assoc. cbn [app].
  by rewrite drop_insert_lt by lia.
Qed.

Lemma loadTokens_good good rest i s :
  Forall (Forall accepted) good ->
  (i + length good <= length (memory s))%nat ->
  loadTokens i (good ++ rest) s
  = loadTokens (i + length good) rest
      (set_memory (take i (memory s) ++ map storedWord good
                   ++ drop (i + length good) (memory s)) s).
Proof.
  revert i s. induction good as [|token good IH]; intros i s Hgood Hfits.
  - cbn [app length map]. rewrite Nat.add_0_r, take_drop. by destruct s.
  - apply Forall_cons in Hgood as [Htoken Hgood]. cbn [length] in Hfits.
    cbn [app loadTokens].
    destruct (Nat.ltb_spec i (length (memory s))); [|lia].
    assert (validateTernary token = true) as ->.
    { apply validateTernary_solid; [|done].
      eapply Forall_impl; [done|apply accepted_solid]. }
    destruct (storedWord_accepted token Htoken) as (value & -> & Hword).
    cbn [negb].
    rewrite IH; [|done|rewrite memory_set_memory, length_insert; lia].
    rewrite set_memory_set_memory, memory_set_memory.
    cbn [length map]. rewrite Hword, <- Nat.add_succ_comm.
    by rewrite take_drop_insert by lia.
Qed.

Lemma loadTokens_unfold i tokens s :
  (loadTokens i tokens s).2 = set_memory (memory (loadTokens i tokens s).2) s.
Proof.
  revert i s. induction tokens as [|token tokens IH]; intros i s;
    cbn [loadTokens].
  - by destruct s.
  - destruct (i <? length (memory s))%nat; [|by destruct s].
    destruct (validateTernary token); cbn [negb]; [|by destruct s].
    destruct (fromBalancedTernary token); [|by destruct s].
    rewrite IH at 1. by rewrite set_memory_set_memory.
Qed.

Lemma loadTokens_full i tokens s :
  (length (memory s) <= i)%nat -> loadTokens i tokens s = (Return tt, s).
Proof.
  intros Hfull. destruct tokens as [|token tokens]; [done|]. cbn [loadTokens].
  destruct (Nat.ltb_spec i (length (memory s))); [lia|done].
Qed.

Lemma valid_solid_accepted tokens :
  Forall (Forall solid) tokens ->
  Forall (fun token => validateTernary token = true) tokens ->
  Forall (Forall accepted) tokens.
Proof.
  intros Hsolid Hvalid. apply Forall_lookup. intros i token Htoken.
  apply validateTernary_solid.
  - by eapply (proj1 (Forall_lookup _ _) Hsolid).
  - by eapply (proj1 (Forall_lookup _ _) Hvalid).
Qed.

(** The loop on tokens whose first [size] are valid: what fits is stored,
    the rest is never looked at. *)
Lemma loadTokens_valid tokens s :
  Forall (Forall solid) tokens ->
  Forall (fun token => validateTernary token = true)
         (take (length (memory s)) tokens) ->
  loadTokens 0 tokens s
  = (Return tt,
     set_memory (take (length (memory s))
                   (map storedWord tokens ++ drop (length tokens) (memory s)))
                s).
Proof.
  intros Hsolid Hvalid. set (size := length (memory s)) in *.
  rewrite <- (take_drop size tokens) at 1.
  assert (Forall (Forall accepted) (take size tokens)) as Haccepted.
  { apply valid_solid_accepted; [|done]. by apply Forall_take. }
  rewrite loadTokens_good by (try done; rewrite length_take; subst size; lia).
  rewrite take_0. cbn [app Nat.add].
  destruct (decide (length tokens <= size)%nat) as [Hshort|Hlong];
    unfold js_string in *.
  - rewrite drop_ge by done. cbn [loadTokens]. f_equal. f_equal.
    rewrite take_ge by done.
    rewrite take_ge; [done|].
    rewrite length_app, length_map, length_drop. subst size.
    unfold js_string in *. lia.
  - rewrite loadTokens_full.
    + f_equal. f_equal. rewrite length_take_le by lia.
      rewrite !(drop_ge (memory s)) by (subst size; lia).
      rewrite !app_nil_r. by rewrite firstn_map.
    + rewrite memory_set_memory, length_app, length_map, length_drop.
      rewrite length_take_le by lia. subst size. unfold js_string in *. lia.
Qed.

(** The loop on tokens of which one, within the memory, is invalid. *)
Lemma loadTokens_invalid good bad rest s :
  Forall (Forall solid) good ->
  Forall (fun token => validateTernary token = true) good ->
  validateTernary bad = false ->
  (length good < length (memory s))%nat ->
  loadTokens 0 (good ++ bad :: rest) s
  = (Throw (InvalidTernaryAt (length good) bad),
     set_memory (map storedWord good ++ drop (length good) (memory s)) s).
Proof.
  intros Hsolid Hvalid Hbad Hfits.
  rewrite loadTokens_good by (try lia; by apply valid_solid_accepted).
  rewrite take_0. cbn [app Nat.add loadTokens]. rewrite memory_set_memory.
  rewrite length_app, length_map, length_drop.
  rewrite (proj2 (Nat.ltb_lt _ _)) by (unfold js_string in *; lia).
  by rewrite Hbad.
Qed.

Lemma trim_nil : trim [] = [].
Proof. done. Qed.

Lemma loadProgram_blank_text text s :
  trim text = [] -> loadProgram text s = reset s.
Proof.
  intros Hblank. unfold loadProgram. rewrite Hblank. cbn [length Nat.eqb].
  by rewrite orb_true_r.
Qed.

Lemma loadProgram_tokens text s :
  trim text <> [] ->
  loadProgram text s
  = Outcome (loadTokens 0 (splitWhitespace (trim text)) (final (reset s))).1
            (loadTokens 0 (splitWhitespace (trim text)) (final (reset s))).2
            (fired (reset s)).
Proof.
  intros Htext. unfold loadProgram.
  assert (text <> []) by (intros ->; by apply Htext).
  destruct text as [|c text]; [done|].
  destruct (trim (c :: text)) as [|c' code] eqn:Hcode; [done|].
  cbn [length Nat.eqb orb].
  by destruct (loadTokens 0 _ _).
Qed.

Lemma splitWhitespace_nil : splitWhitespace [] = [[]].
Proof. done. Qed.

Lemma reset_memory s : memory (final (reset s)) = replicate (length (memory s)) 0.
Proof. done. Qed.

(** The whole of a load whose tokens, as far as the memory goes, are
    valid. *)
Lemma loadProgram_valid text s :
  let tokens := splitWhitespace (trim text) in
  let size := length (memory s) in
  Forall (fun token => validateTernary token = true) (take size tokens) ->
  loadProgram text s
  = Outcome (Return tt)
      (set_memory (take size (map storedWord tokens ++ replicate size 0))
                  (final (reset s)))
      (fired (reset s)).
Proof.
  intros tokens size Hvalid.
  destruct (decide (trim text = [])) as [Hblank|Htext].
  - rewrite loadProgram_blank_text by done. subst tokens.
    rewrite Hblank, splitWhitespace_nil. cbn [map app]. rewrite storedWord_nil.
    replace (take size (0 :: replicate size 0)) with (replicate size 0).
    + by destruct s.
    + change (0 :: replicate size 0) with (replicate (S size) 0).
      rewrite take_replicate. f_equal. lia.
  - rewrite loadProgram_tokens by done. fold tokens.
    rewrite loadTokens_valid;
      [|apply splitWhitespace_solid
       |by rewrite reset_memory, length_replicate].
    cbn [fst snd]. rewrite reset_memory, length_replicate. fold size.
    f_equal. f_equal.
    destruct (decide (length tokens <= size)%nat).
    + rewrite !take_app_ge by (rewrite length_map; lia).
      rewrite length_map, drop_replicate, !take_replicate.
      do 2 f_equal. unfold js_string in *. lia.
    + by rewrite !take_app_le by (rewrite length_map; lia).
Qed.

(** The whole of a load that meets an invalid token within the memory. *)
Lemma loadProgram_invalid text s good bad rest :
  splitWhitespace (trim text) = good ++ bad :: rest ->
  Forall (fun token => validateTernary token = true) good ->
  validateTernary bad = false ->
  (length good < length (memory s))%nat ->
  loadProgram text s
  = Outcome (Throw (InvalidTernaryAt (length good) bad))
      (set_memory (map storedWord good
                   ++ replicate (length (memory s) - length good) 0)
                  (final (reset s)))
      (fired (reset s)).
Proof.
  intros Htokens Hvalid Hbad Hfits.
  assert (trim text <> []) as Htext.
  { intros Hblank. rewrite Hblank, splitWhitespace_nil in Htokens.
    destruct good as [|? [|]]; simplify_eq/=. }
  rewrite loadProgram_tokens, Htokens by done.
  pose proof (splitWhitespace_solid (trim text)) as Hsolid.
  rewrite Htokens in Hsolid. apply Forall_app in Hsolid as [Hsolid _].
  rewrite loadTokens_invalid;
    [|done|done|done|by rewrite reset_memory, length_replicate].
  cbn [fst snd]. by rewrite reset_memory, drop_replicate.
Qed.

(** X4: a load whose tokens are valid as far as the memory goes returns,
    with the registers reset and the memory at its size; when those tokens
    have at most 34 characters each, the memory holds their values,
    zero-filled behind them and cut at the memory size.  Tokens beyond the
    memory are never checked. *)
Theorem loadProgram_loads text s :
  let tokens := splitWhitespace (trim text) in
  let size := length (memory s) in
  let s' := final (loadProgram text s) in
  Forall (fun token => validateTernary token = true) (take size tokens) ->
  completed (loadProgram text s) = Return tt
  /\ length (memory s') = size
  /\ (Forall (fun token => (length token <= 34)%nat) (take size tokens) ->
      memory s' = take size (map tokenValue tokens ++ replicate size 0))
  /\ accumulator s' = 0 /\ programCounter s' = 0 /\ instructionCount s' = 0
  /\ callStack s' = [] /\ executionHistory s' = [].
Proof.
  intros tokens size s' Hvalid. subst s'.
  rewrite loadProgram_valid by done. cbn [completed final].
  split; [done|]. rewrite memory_set_memory. split; [|split; [|done]].
  - rewrite length_take, length_app, length_replicate. lia.
  - intros Hshort. apply take_map_agree.
    assert (Forall (Forall solid) (take size tokens)) as Hsolid
      by apply Forall_take, splitWhitespace_solid.
    pose proof (valid_solid_accepted _ Hsolid Hvalid) as Haccepted.
    apply Forall_lookup. intros i token Htoken.
    apply storedWord_tokenValue.
    + by eapply (proj1 (Forall_lookup _ _) Haccepted).
    + by eapply (proj1 (Forall_lookup _ _) Hshort).
Qed.

Lemma loadProgram_loads_witness :
  completed (loadProgram (lit " +0 x") (constructor 1)) = Return tt
  /\ memory (final (loadProgram (lit " +0 x") (constructor 1))) = [3].
Proof.
  assert (Forall (fun token => validateTernary token = true)
            (take (length (memory (constructor 1)))
               (splitWhitespace (trim (lit " +0 x"))))) as Hvalid
    by (vm_compute; by repeat constructor).
  destruct (loadProgram_loads (lit " +0 x") (constructor 1) Hvalid)
    as (Hreturns & _ & Hmemory & _).
  split; [exact Hreturns|]. apply Hmemory.
  vm_compute. repeat (constructor; [lia|]). constructor.
Defined.

(** X5: a load that meets an invalid token within the memory throws the
    position error for the first such token, and leaves the emulator reset
    with the earlier tokens loaded: the memory holds their values, when they
    have at most 34 characters each, and zeros behind them. *)
Theorem loadProgram_rejects text s good bad rest :
  let s' := final (loadProgram text s) in
  splitWhitespace (trim text) = good ++ bad :: rest ->
  Forall (fun token => validateTernary token = true) good ->
  validateTernary bad = false ->
  (length good < length (memory s))%nat ->
  completed (loadProgram text s) = Throw (InvalidTernaryAt (length good) bad)
  /\ drop (length good) (memory s')
     = replicate (length (memory s) - length good) 0
  /\ (Forall (fun token => (length token <= 34)%nat) good ->
      memory s'
      = map tokenValue good ++ replicate (length (memory s) - length good) 0)
  /\ accumulator s' = 0 /\ programCounter s' = 0 /\ instructionCount s' = 0.
Proof.
  intros s' Htokens Hvalid Hbad Hfits. subst s'.
  erewrite loadProgram_invalid by done. cbn [completed final].
  split; [done|]. rewrite memory_set_memory. split; [|split; [|done]].
  - by rewrite drop_app_length' by by rewrite length_map.
  - intros Hshort. f_equal.
    pose proof (splitWhitespace_solid (trim text)) as Hsolid.
    rewrite Htokens in Hsolid. apply Forall_app in Hsolid as [Hsolid _].
    pose proof (valid_solid_accepted _ Hsolid Hvalid) as Haccepted.
    apply map_ext_Forall, Forall_lookup. intros i token Htoken.
    apply storedWord_tokenValue.
    + by eapply (proj1 (Forall_lookup _ _) Haccepted).
    + by eapply (proj1 (Forall_lookup _ _) Hshort).
Qed.

Lemma loadProgram_rejects_witness :
  completed (loadProgram (lit "+- 2 0") (loaded "+ + +"))
  = Throw (InvalidTernaryAt 1 (lit "2"))
  /\ memory (final (loadProgram (lit "+- 2 0") (loaded "+ + +")))
     = [2] ++ replicate 80 0.
Proof.
  assert (splitWhitespace (trim (lit "+- 2 0"))
          = [lit "+-"] ++ lit "2" :: [lit "0"]) as Htokens by reflexivity.
  assert (Forall (fun token => validateTernary token = true) [lit "+-"])
    as Hvalid by by repeat constructor.
  assert (validateTernary (lit "2") = false) as Hbad by reflexivity.
  assert (length [lit "+-"] < length (memory (loaded "+ + +")))%nat as Hfits
    by (vm_compute; lia).
  destruct (loadProgram_rejects (lit "+- 2 0") (loaded "+ + +")
              [lit "+-"] (lit "2") [lit "0"] Htokens Hvalid Hbad Hfits)
    as (Hthrows & _ & Hmemory & _).
  split; [exact Hthrows|]. apply Hmemory.
  constructor; [cbn; lia|constructor].
Defined.

Lemma loadTokens_completes tokens i s :
  Forall (Forall solid) tokens ->
  (loadTokens i tokens s).1 = Return tt
  \/ exists j token,
       (loadTokens i tokens s).1 = Throw (InvalidTernaryAt (i + j) token)
       /\ tokens !! j = Some token
       /\ validateTernary token = false
       /\ (i + j < length (memory s))%nat.
Proof.
  revert i s. induction tokens as [|token tokens IH]; intros i s Hsolid;
    [by left|].
  apply Forall_cons in Hsolid as [Htoken Hsolid]. cbn [loadTokens].
  destruct (Nat.ltb_spec i (length (memory s))); [|by left].
  destruct (validateTernary token) eqn:Hvalid; cbn [negb].
  - destruct (fromBalancedTernary_total token) as [value ->];
      [by apply validateTernary_solid|].
    destruct (IH (S i) (set_memory (<[i:=wordOf value]> (memory s)) s))
      as [|(j & bad & Hthrow & Hbad & Hinvalid & Hin)]; [done|by left|].
    right. exists (S j), bad.
    rewrite memory_set_memory, length_insert in Hin.
    rewrite Hthrow, <- Nat.add_succ_comm. repeat split; [done..|lia].
  - right. exists 0%nat, token. rewrite Nat.add_0_r. by cbn.
Qed.

(** X6: a load ends in one of two ways only: it returns, or it throws the
    position error for a token that [validateTernary] rejects; the error of
    the [catch] around [fromBalancedTernary] is never thrown, since a token
    holds no whitespace. *)
Theorem loadProgram_never_fails_parsing text s :
  (completed (loadProgram text s) = Return tt
   \/ exists i token,
        completed (loadProgram text s) = Throw (InvalidTernaryAt i token)
        /\ splitWhitespace (trim text) !! i = Some token
        /\ validateTernary token = false
        /\ (i < length (memory s))%nat)
  /\ forall i e,
       completed (loadProgram text s) <> Throw (ErrorParsingInstruction i e).
Proof.
  assert (completed (loadProgram text s) = Return tt
          \/ exists i token,
               completed (loadProgram text s) = Throw (InvalidTernaryAt i token)
               /\ splitWhitespace (trim text) !! i = Some token
               /\ validateTernary token = false
               /\ (i < length (memory s))%nat) as Hends.
  { destruct (decide (trim text = [])) as [Hblank|Htext].
    - left. by rewrite loadProgram_blank_text.
    - rewrite loadProgram_tokens by done. cbn [completed].
      destruct (loadTokens_completes (splitWhitespace (trim text)) 0
                  (final (reset s)) (splitWhitespace_solid _))
        as [|(j & bad & Hthrow & Hbad & Hinvalid & Hin)]; [by left|].
      right. exists j, bad.
      rewrite reset_memory, length_replicate in Hin. by rewrite Hthrow. }
  split; [done|]. intros i e.
  destruct Hends as [->|(j & bad & -> & _)]; done.
Qed.

(** X7: loading a text of whitespace only (or the empty text) is a reset. *)
Theorem loadProgram_blank text s :
  Forall (fun c => ~ solid c) text -> loadProgram text s = reset s.
Proof. intros Hblank. by apply loadProgram_blank_text, trim_blank. Qed.

Lemma loadProgram_blank_witness :
  loadProgram (lit "  ") (loaded "+ +") = reset (loaded "+ +").
Proof.
  apply loadProgram_blank. by repeat (constructor; [by vm_compute|]).
Defined.

(** ** The editor's check and the loader *)

Lemma checkTokens_None tokens i :
  checkTokens i tokens = None ->
  Forall (fun token => validateTernary token = true) tokens.
Proof.
  revert i. induction tokens as [|token tokens IH]; intros i; cbn; [done|].
  destruct (validateTernary token) eqn:Hvalid; cbn; [|done].
  intros Hrest. apply Forall_cons. split; [done|by eapply IH].
Qed.

Lemma checkTokens_Some tokens i position bad :
  checkTokens i tokens = Some (position, bad) ->
  exists good rest,
    tokens = good ++ bad :: rest
    /\ Forall (fun token => validateTernary token = true) good
    /\ validateTernary bad = false
    /\ position = (i + length good + 1)%nat.
Proof.
  revert i. induction tokens as [|token tokens IH]; intros i; cbn; [done|].
  destruct (validateTernary token) eqn:Hvalid; cbn.
  - intros (good & rest & -> & Hgood & Hbad & ->)%IH.
    exists (token :: good), rest. cbn [length].
    repeat split; [by apply Forall_cons|done|lia].
  - intros [= <- <-]. exists [], tokens. cbn [length]. repeat split; [done..|lia].
Qed.

(** X8: the check that guards [run] and [step] of the page does its job: a
    text it passes is loaded without an error by any emulator, and a text it
    refuses makes [loadProgram] throw for the same token (shown one-based by
    the check, zero-based by the loader) whenever that token falls within
    the memory. *)
Theorem validateSyntax_guards_loadProgram text s :
  ((validateSyntax text).1 = true ->
   completed (loadProgram text s) = Return tt)
  /\ (forall position token,
        syntaxError (validateSyntax text).2 = Some (position, token) ->
        (validateSyntax text).1 = false
        /\ ((position <= length (memory s))%nat ->
            completed (loadProgram text s)
            = Throw (InvalidTernaryAt (position - 1) token))).
Proof.
  unfold validateSyntax.
  destruct (decide (trim text = [])) as [Hblank|Htext].
  - rewrite Hblank. cbn. split; [|done].
    intros _. by rewrite loadProgram_blank_text.
  - destruct (trim text) as [|c code] eqn:Hcode; [done|].
    cbn [length Nat.eqb]. rewrite <- Hcode.
    destruct (checkTokens 0 (splitWhitespace (trim text)))
      as [[position bad]|] eqn:Hcheck; cbn [fst snd syntaxError].
    + split; [done|]. intros ? ? [= <- <-]. split; [done|]. intros Hfits.
      apply checkTokens_Some in Hcheck
        as (good & rest & Htokens & Hgood & Hbad & ->).
      erewrite loadProgram_invalid by (done || lia).
      cbn [completed]. do 2 f_equal. lia.
    + split; [|done]. intros _.
      rewrite loadProgram_valid; [done|].
      by eapply Forall_take, checkTokens_None.
Qed.

Lemma validateSyntax_guards_loadProgram_witness :
  completed (loadProgram (lit "+ +0 0") (constructor 2)) = Return tt.
Proof.
  refine (proj1 (validateSyntax_guards_loadProgram (lit "+ +0 0")
                   (constructor 2)) _).
  reflexivity.
Defined.

End Loader.

(** * The debugger's interface *)

Section MemoryProtection.

Lemma protect_fold addresses s :
  let protect := fun s addr =>
    if inMemory s addr
    then set_protectedMemory ({[addr]} ∪ protectedMemory s) s
    else s in
  let s' := foldl protect s addresses in
  s' = set_protectedMemory (protectedMemory s') s
  /\ forall a, a ∈ protectedMemory s'
               <-> a ∈ protectedMemory s
                   \/ (a ∈ addresses /\ inMemory s a = true).
Proof.
  intros protect. revert s.
  induction addresses as [|addr addresses IH]; intros s; cbn [foldl].
  - split; [by destruct s|]. intros a. rewrite elem_of_nil. tauto.
  - destruct (IH (protect s addr)) as [Hunfold Hin]. split.
    + rewrite Hunfold at 1. subst protect. cbn beta.
      by destruct (inMemory s addr).
    + intros a. rewrite Hin, elem_of_cons. subst protect. cbn beta.
      destruct (inMemory s addr) eqn:Haddr.
      * change (inMemory (set_protectedMemory _ s) a) with (inMemory s a).
        cbn [protectedMemory set_protectedMemory].
        rewrite elem_of_union, elem_of_singleton.
        split; [|intros [|[[->|]]]; tauto].
        intros [[->|]|[]]; tauto.
      * split; [tauto|]. intros [|[[->|] Ha]]; [tauto|congruence|tauto].
Qed.

Lemma unprotect_fold addresses s :
  let unprotect := fun s addr =>
    set_protectedMemory (protectedMemory s ∖ {[addr]}) s in
  let s' := foldl unprotect s addresses in
  s' = set_protectedMemory (protectedMemory s') s
  /\ forall a, a ∈ protectedMemory s'
               <-> a ∈ protectedMemory s /\ a ∉ addresses.
Proof.
  intros unprotect. revert s.
  induction addresses as [|addr addresses IH]; intros s; cbn [foldl].
  - split; [by destruct s|]. intros a. rewrite elem_of_nil. tauto.
  - destruct (IH (unprotect s addr)) as [Hunfold Hin]. split.
    + by rewrite Hunfold at 1.
    + intros a. rewrite Hin, not_elem_of_cons. subst unprotect.
      cbn [protectedMemory set_protectedMemory].
      rewrite elem_of_difference, not_elem_of_singleton. tauto.
Qed.

Lemma elem_of_range a startAddr endAddr :
  a ∈ seqZ startAddr (endAddr - startAddr + 1) <-> startAddr <= a <= endAddr.
Proof. rewrite elem_of_seqZ. lia. Qed.

Lemma protectMemoryRange_unfold startAddr endAddr s :
  protectMemoryRange startAddr endAddr s
  = set_protectedMemory
      (protectedMemory (protectMemoryRange startAddr endAddr s)) s.
Proof. apply protect_fold. Qed.

Lemma protectMemoryRange_elem startAddr endAddr s a :
  a ∈ protectedMemory (protectMemoryRange startAddr endAddr s)
  <-> a ∈ protectedMemory s
      \/ (startAddr <= a <= endAddr /\ inMemory s a = true).
Proof.
  unfold protectMemoryRange.
  rewrite (proj2 (protect_fold _ s)), elem_of_range. tauto.
Qed.

Lemma unprotectMemoryRange_unfold startAddr endAddr s :
  unprotectMemoryRange startAddr endAddr s
  = set_protectedMemory
      (protectedMemory (unprotectMemoryRange startAddr endAddr s)) s.
Proof. apply unprotect_fold. Qed.

Lemma unprotectMemoryRange_elem startAddr endAddr s a :
  a ∈ protectedMemory (unprotectMemoryRange startAddr endAddr s)
  <-> a ∈ protectedMemory s /\ ~ startAddr <= a <= endAddr.
Proof.
  unfold unprotectMemoryRange.
  rewrite (proj2 (unprotect_fold _ s)), elem_of_range. tauto.
Qed.

Lemma inMemory_spec s a : inMemory s a = true <-> 0 <= a < memoryLength s.
Proof. unfold inMemory. rewrite andb_true_iff, Z.geb_le, Z.ltb_lt. lia. Qed.

Lemma canWriteToMemory_spec s a :
  canWriteToMemory s a = true
  <-> 0 <= a < memoryLength s /\ a ∉ protectedMemory s.
Proof.
  unfold canWriteToMemory.
  destruct (Z.ltb_spec a 0), (Z.geb_spec a (memoryLength s)); cbn;
    try (split; [done|lia]).
  rewrite negb_true_iff, bool_decide_eq_false. split; [done|tauto].
Qed.

(** X9: [protectMemoryRange] protects exactly the addresses of the range
    that lie in the memory, on top of those protected before; afterwards
    such an address is reported protected and refused for writing, and the
    addresses outside the range are as writable as before. *)
Theorem protectMemoryRange_protects startAddr endAddr s a :
  let s' := protectMemoryRange startAddr endAddr s in
  (isMemoryProtected s' a = true
   <-> isMemoryProtected s a = true
       \/ (startAddr <= a <= endAddr /\ 0 <= a < memoryLength s))
  /\ (canWriteToMemory s' a = true
      <-> canWriteToMemory s a = true /\ ~ startAddr <= a <= endAddr)
  /\ memory s' = memory s.
Proof.
  intros s'. subst s'. split; [|split].
  - unfold isMemoryProtected.
    by rewrite !bool_decide_eq_true, protectMemoryRange_elem, inMemory_spec.
  - rewrite !canWriteToMemory_spec, protectMemoryRange_elem, inMemory_spec.
    replace (memoryLength (protectMemoryRange startAddr endAddr s))
      with (memoryLength s) by by rewrite protectMemoryRange_unfold.
    tauto.
  - by rewrite protectMemoryRange_unfold.
Qed.

(** X10: [unprotectMemoryRange] lifts the protection of exactly the
    addresses of the range (in the memory or not), so that it undoes a
    [protectMemoryRange] of the same range on addresses that were not
    protected before; [clearMemoryProtection] lifts every protection. *)
Theorem unprotectMemoryRange_unprotects startAddr endAddr s a :
  (isMemoryProtected (unprotectMemoryRange startAddr endAddr s) a = true
   <-> isMemoryProtected s a = true /\ ~ startAddr <= a <= endAddr)
  /\ (isMemoryProtected
        (unprotectMemoryRange startAddr endAddr
           (protectMemoryRange startAddr endAddr s)) a = true
      <-> isMemoryProtected s a = true /\ ~ startAddr <= a <= endAddr)
  /\ isMemoryProtected (clearMemoryProtection s) a = false.
Proof.
  unfold isMemoryProtected. split; [|split].
  - by rewrite !bool_decide_eq_true, unprotectMemoryRange_elem.
  - rewrite !bool_decide_eq_true, unprotectMemoryRange_elem,
      protectMemoryRange_elem.
    tauto.
  - apply bool_decide_eq_false. cbn. apply not_elem_of_empty.
Qed.

End MemoryProtection.

Section BreakpointSet.

(** X11: [toggleBreakpoint] returns whether the breakpoint is set after the
    call; it changes the breakpoint at that address only, setting it only
    at an address of the memory; and toggling an address of the memory twice
    gives the breakpoints back. *)
Theorem toggleBreakpoint_toggles address s :
  let r := toggleBreakpoint address s in
  (r.1 = true <-> address ∈ breakpoints r.2)
  /\ (address ∈ breakpoints r.2
      <-> (address ∉ breakpoints s) /\ 0 <= address < memoryLength s)
  /\ (forall a, a <> address -> a ∈ breakpoints r.2 <-> a ∈ breakpoints s)
  /\ (0 <= address < memoryLength s ->
      breakpoints (toggleBreakpoint address r.2).2 = breakpoints s).
Proof.
  intros r. subst r. unfold toggleBreakpoint, addBreakpoint, removeBreakpoint.
  destruct (decide (address ∈ breakpoints s)) as [Hset|Hunset].
  - rewrite (bool_decide_eq_true_2 _ Hset). cbn.
    assert (address ∉ (breakpoints s ∖ {[address]})) as Hgone
      by (rewrite elem_of_difference, elem_of_singleton; tauto).
    rewrite (bool_decide_eq_false_2 _ Hgone).
    split; [split; [done|tauto]|]. split; [tauto|]. split.
    + intros a Ha. rewrite elem_of_difference, elem_of_singleton. tauto.
    + intros Hin. apply inMemory_spec in Hin as Hmem.
      change (inMemory (set_breakpoints _ s) address)
        with (inMemory s address).
      rewrite Hmem. cbn. apply leibniz_equiv. intros a.
      rewrite elem_of_union, elem_of_difference, elem_of_singleton.
      destruct (decide (a = address)) as [->|]; tauto.
  - rewrite (bool_decide_eq_false_2 _ Hunset).
    destruct (inMemory s address) eqn:Hmem; cbn.
    + apply inMemory_spec in Hmem.
      assert (address ∈ ({[address]} ∪ breakpoints s : gset Z)) as Hin
        by (rewrite elem_of_union, elem_of_singleton; tauto).
      rewrite (bool_decide_eq_true_2 _ Hin). cbn.
      split; [tauto|]. split; [tauto|]. split.
      * intros a Ha. rewrite elem_of_union, elem_of_singleton. tauto.
      * intros _. apply leibniz_equiv. intros a.
        rewrite elem_of_difference, elem_of_union, elem_of_singleton.
        destruct (decide (a = address)) as [->|]; tauto.
    + assert (~ 0 <= address < memoryLength s) as Hout
        by (rewrite <- inMemory_spec; congruence).
      split; [split; [done|tauto]|]. split; [tauto|]. split; [tauto|].
      intros; tauto.
Qed.

Lemma toggleBreakpoint_toggles_witness :
  breakpoints
    (toggleBreakpoint 3 (toggleBreakpoint 3 (constructor 9)).2).2
  = breakpoints (constructor 9).
Proof.
  refine (proj2 (proj2 (proj2 (toggleBreakpoint_toggles 3 (constructor 9)))) _).
  vm_compute. by split.
Defined.

End BreakpointSet.

Section Lists.

Lemma delete_last_index {A} (l : list A) (x : A) :
  delete (length l) (l ++ [x]) = l.
Proof. induction l as [|y l IH]; [done|]. cbn. f_equal. apply IH. Qed.

(** X12: a conditional breakpoint or a watch is appended and its index
    returned; removing at that index undoes the addition, and removing at an
    index outside the list is refused and changes nothing. *)
Theorem add_remove_round_trip s :
  (forall c,
     let r := addConditionalBreakpoint c s in
     r.1 = Z.of_nat (length (conditionalBreakpoints s))
     /\ conditionalBreakpoints r.2 !! Z.to_nat r.1 = Some c
     /\ removeConditionalBreakpoint r.1 r.2 = (true, s))
  /\ (forall w,
        let r := addWatch w s in
        r.1 = Z.of_nat (length (watches s))
        /\ watches r.2 !! Z.to_nat r.1 = Some w
        /\ removeWatch r.1 r.2 = (true, s))
  /\ (forall index,
        ~ 0 <= index < Z.of_nat (length (conditionalBreakpoints s)) ->
        removeConditionalBreakpoint index s = (false, s))
  /\ (forall index,
        ~ 0 <= index < Z.of_nat (length (watches s)) ->
        removeWatch index s = (false, s)).
Proof.
  split; [|split; [|split]].
  - intros c r. subst r.
    unfold addConditionalBreakpoint, removeConditionalBreakpoint.
    cbn [fst snd conditionalBreakpoints set_conditionalBreakpoints].
    rewrite length_app. cbn [length].
    replace (Z.of_nat (length (conditionalBreakpoints s) + 1) - 1)
      with (Z.of_nat (length (conditionalBreakpoints s))) by lia.
    rewrite Nat2Z.id. split; [done|]. split.
    + by rewrite lookup_app_r, Nat.sub_diag.
    + destruct (Z.geb_spec (Z.of_nat (length (conditionalBreakpoints s))) 0);
        [|lia].
      destruct (Z.ltb_spec (Z.of_nat (length (conditionalBreakpoints s)))
                  (Z.of_nat (length (conditionalBreakpoints s) + 1))); [|lia].
      cbn [andb]. rewrite delete_last_index. by destruct s.
  - intros w r. subst r. unfold addWatch, removeWatch.
    cbn [fst snd watches set_watches].
    rewrite length_app. cbn [length].
    replace (Z.of_nat (length (watches s) + 1) - 1)
      with (Z.of_nat (length (watches s))) by lia.
    rewrite Nat2Z.id. split; [done|]. split.
    + by rewrite lookup_app_r, Nat.sub_diag.
    + destruct (Z.geb_spec (Z.of_nat (length (watches s))) 0); [|lia].
      destruct (Z.ltb_spec (Z.of_nat (length (watches s)))
                  (Z.of_nat (length (watches s) + 1))); [|lia].
      cbn [andb]. rewrite delete_last_index. by destruct s.
  - intros index Hout. unfold removeConditionalBreakpoint.
    destruct (Z.geb_spec index 0),
      (Z.ltb_spec index (Z.of_nat (length (conditionalBreakpoints s))));
      cbn [andb]; done || lia.
  - intros index Hout. unfold removeWatch.
    destruct (Z.geb_spec index 0),
      (Z.ltb_spec index (Z.of_nat (length (watches s))));
      cbn [andb]; done || lia.
Qed.

End Lists.

Section OpcodeNames.

Lemma firstNameOf_none value entries :
  Forall (fun entry => entry.2 <> value) entries ->
  firstNameOf value entries = "DATA"%string.
Proof.
  induction 1 as [|[name opcode] entries Hentry _ IH]; [done|]. cbn in *.
  by destruct (Z.eqb_spec opcode value).
Qed.

Lemma firstNameOf_some value entries :
  firstNameOf value entries <> "DATA"%string ->
  (firstNameOf value entries, value) ∈ entries.
Proof.
  induction entries as [|[name opcode] entries IH]; [done|]. cbn.
  destruct (Z.eqb_spec opcode value) as [->|].
  - intros _. apply list_elem_of_here.
  - intros Hname. by apply list_elem_of_further, IH.
Qed.

(** X13: [getOpcodeName] inverts the opcode table: every mnemonic is the
    name of its own code, a word that is no opcode is "DATA", and a name
    other than "DATA" is the mnemonic of the word in the table. *)
Theorem getOpcodeName_inverts_OPCODES :
  (forall name opcode,
     (name, opcode) ∈ OPCODES_entries -> getOpcodeName opcode = name)
  /\ (forall value,
        value ∉ OPCODES_entries.*2 -> getOpcodeName value = "DATA"%string)
  /\ (forall value,
        getOpcodeName value <> "DATA"%string ->
        (getOpcodeName value, value) ∈ OPCODES_entries).
Proof.
  split; [|split].
  - assert (Forall (fun entry => getOpcodeName entry.2 = entry.1)
              OPCODES_entries) as Hall
      by (repeat (constructor; [reflexivity|]); constructor).
    intros name opcode Hin.
    by apply (proj1 (Forall_forall _ _) Hall (name, opcode)).
  - intros value Hnot. apply firstNameOf_none, Forall_forall.
    intros [name opcode] Hin Heq. cbn in Heq. subst opcode.
    apply Hnot, list_elem_of_fmap. by exists (name, value).
  - intros value. apply firstNameOf_some.
Qed.

End OpcodeNames.

Section Heatmap.

(** X14: [getMaxAccessCount] is the greatest access counter: one of the
    counters, with no counter above it; there is none ([-Infinity]) only for
    an emulator without memory. *)
Theorem getMaxAccessCount_greatest s :
  match getMaxAccessCount s with
  | Some m =>
      m ∈ memoryAccessCounts s
      /\ Forall (fun count => count <= m) (memoryAccessCounts s)
  | None => memoryAccessCounts s = []
  end.
Proof.
  unfold getMaxAccessCount.
  induction (memoryAccessCounts s) as [|count counts IH]; [done|]. cbn in *.
  destruct (foldr _ None counts) as [m|].
  - destruct IH as [Hin Hmax]. split.
    + destruct (Z.max_spec count m) as [[_ ->]|[_ ->]];
        [by apply list_elem_of_further|apply list_elem_of_here].
    + apply Forall_cons. split; [lia|].
      eapply Forall_impl; [done|]. cbn. lia.
  - subst counts. split; [apply list_elem_of_here|].
    by apply Forall_singleton.
Qed.

End Heatmap.

(** * The invariant of the class *)

Section Invariant.

Section Low.

(** The least program counter: 0, or -1 with direct calls of
    [executeInstruction]. *)
Variable low : Z.
Hypothesis Hlow : -1 <= low <= 0.

Lemma executeInstruction_registers opcode operand s :
  low <= programCounter s ->
  Forall (fun returnAddress => low + 2 <= returnAddress) (callStack s) ->
  Z.of_nat (length (callStack s)) <= maxCallDepth s ->
  let r := executeInstruction opcode operand s in
  Forall (fun returnAddress => low + 2 <= returnAddress) (callStack (final r))
  /\ Z.of_nat (length (callStack (final r))) <= maxCallDepth s
  /\ match completed r with
     | Return true => -1 <= programCounter (final r)
     | _ => low <= programCounter (final r)
     end.
Proof.
  intros Hpc Hstack Hdepth. unfold_exec.
  repeat case_match; cbn [final completed callStack programCounter
    set_callStack set_programCounter set_accumulator set_running set_memory
    set_memoryAccessCounts] in *.
  all: repeat match goal with
           | H : (?x =? _) = _ |- _ => is_var x; clear H
           end.
  all: repeat match goal with
           | H : inMemory _ _ = true |- _ => apply inMemory_spec in H
           | H : (_ >=? _) = false |- _ => rewrite Z.geb_leb, Z.leb_gt in H
           | H : last _ = Some _ |- _ =>
               let Heq := fresh in
               apply last_Some in H as [? Heq]; rewrite Heq in *
           | H : Forall _ (_ ++ [_]) |- _ =>
               let Hlast := fresh in
               apply Forall_app in H as [? Hlast];
               rewrite Forall_singleton in Hlast
           end.
  all: rewrite ?removelast_last, ?length_app in *; cbn [length] in *.
  all: split; [|split].
  all: try assumption.
  all: try congruence.
  all: try lia.
  all: try (apply Forall_app; split; [done|apply Forall_singleton; lia]).
Qed.

Lemma executeInstruction_counts opcode operand s :
  Forall (fun count => 0 <= count) (memoryAccessCounts s) ->
  Forall (fun count => 0 <= count)
         (memoryAccessCounts (final (executeInstruction opcode operand s))).
Proof.
  intros Hcounts. unfold_exec.
  repeat case_match; cbn; try done.
  all: apply Forall_alter; [done|intros; lia].
Qed.

Lemma inMemory_length s s' a :
  length (memory s') = length (memory s) -> inMemory s' a = inMemory s a.
Proof. unfold inMemory, memoryLength. by intros ->. Qed.

Lemma snapshotInvariant_limits s s' saved :
  limits s' = limits s ->
  snapshotInvariant low s saved -> snapshotInvariant low s' saved.
Proof. unfold snapshotInvariant. by intros [= -> -> _ ->]. Qed.

Lemma sameConfiguration_limits s s' : sameConfiguration s s' -> limits s' = limits s.
Proof.
  intros (_ & Hhistory & _ & _ & _ & _ & Hdepth & Hmax & Hlen & _).
  unfold limits. by rewrite Hhistory, Hdepth, Hmax, Hlen.
Qed.

(** The invariant carried over to an emulator with the same limits,
    breakpoints and protected addresses. *)
Lemma invariant_intro s s' :
  invariant low s ->
  limits s' = limits s ->
  breakpoints s' = breakpoints s ->
  protectedMemory s' = protectedMemory s ->
  Forall (snapshotInvariant low s) (executionHistory s') ->
  Z.of_nat (length (executionHistory s')) <= maxHistorySize s ->
  length (memoryAccessCounts s') = length (memoryAccessCounts s) ->
  Forall (fun count => 0 <= count) (memoryAccessCounts s') ->
  snapshotInvariant low s (currentSnapshot s') ->
  invariant low s'.
Proof.
  intros (Hlimits & Hcounters & _ & _ & _ & _ & Hbps & Hprotected)
    Hsame Hbps' Hprotected' Hhistory Hlength Hcounters' Hcounts Hregisters.
  pose proof Hsame as [= Hdepth Hmax Hsize Hlen].
  unfold invariant.
  rewrite Hdepth, Hmax, Hsize, Hlen, Hbps', Hprotected', Hcounters'.
  split; [done|]. split; [done|]. split; [done|].
  split; [by apply (snapshotInvariant_limits s)|]. split; [|split; [done|split]].
  - eapply Forall_impl; [done|]. intros saved.
    by apply (snapshotInvariant_limits s).
  - intros a Ha. rewrite (inMemory_length s) by done. by apply Hbps.
  - intros a Ha. rewrite (inMemory_length s) by done. by apply Hprotected.
Qed.

Lemma saveStateToHistory_invariant s :
  invariant low s -> invariant low (saveStateToHistory s).
Proof.
  intros Hinv.
  pose proof Hinv as (_ & _ & Hcounts & Hregisters & Hhistory & Hlength & _).
  unfold saveStateToHistory.
  cbn [executionHistory set_executionHistory maxHistorySize].
  assert (Forall (snapshotInvariant low s)
            (executionHistory s ++ [currentSnapshot s])) as Hpushed
    by (apply Forall_app; split; [done|by apply Forall_singleton]).
  destruct (Z.gtb_spec (Z.of_nat (length (executionHistory s
                                           ++ [currentSnapshot s])))
              (maxHistorySize s)) as [Hfull|Hroom];
    apply (invariant_intro s);
    cbn [executionHistory set_executionHistory]; try done.
  - destruct (executionHistory s ++ [currentSnapshot s]); [done|].
    by apply Forall_cons in Hpushed as [_ ?].
  - rewrite length_app in Hfull. cbn [length] in Hfull.
    destruct (executionHistory s) as [|oldest history]; cbn in *; [lia|].
    rewrite length_app. cbn [length]. lia.
Qed.

Lemma recorded_invariant s : invariant low s -> invariant low (recorded s).
Proof.
  intros Hinv. unfold recorded. destruct (historyEnabled s); [|done].
  by apply saveStateToHistory_invariant.
Qed.

Lemma step_invariant s : invariant low s -> invariant low (final (step s)).
Proof.
  intros Hinv. unfold step. fold (recorded s).
  destruct (Z.geb_spec (instructionCount s) (maxInstructions s)) as [|Hlimit];
    [done|].
  assert (instructionCount (recorded s) < maxInstructions (recorded s))
    as Hlimit' by (rewrite recorded_unfold; done).
  apply recorded_invariant in Hinv.
  revert Hinv Hlimit'. generalize (recorded s). clear - Hlow.
  intros s Hinv Hlimit.
  destruct (bool_decide _); [done|].
  destruct (_ || _); [done|].
  cbn [decodeInstruction instructionRegister set_instructionRegister].
  pose proof Hinv
    as (_ & _ & Hcounts & (_ & Hpc & Hstack & Hdepth & Hcount) & Hhistory
        & Hlength & _).
  cbn in Hpc, Hstack, Hdepth, Hcount.
  match goal with |- context [executeInstruction ?o ?op ?st] =>
    pose proof (executeInstruction_frame o op st) as (Hcfg & Hh & Hc & _);
    pose proof (executeInstruction_registers o op st Hpc Hstack Hdepth)
      as (Hstack' & Hdepth' & Hpc');
    pose proof (executeInstruction_counters o op st) as Hcounters';
    pose proof (executeInstruction_counts o op st Hcounts) as Hcounts';
    destruct (executeInstruction o op st) as [c f ev] end.
  cbn [final completed] in *.
  pose proof (sameConfiguration_limits _ _ Hcfg) as Hlimits.
  destruct Hcfg as (_ & _ & Hbps & _ & _ & Hprotected & _ & _ & Hlen & _).
  cbn in Hlimits, Hbps, Hprotected, Hlen, Hh, Hc, Hcounters'.
  assert (forall pc count running hit,
            low <= pc -> 0 <= count <= maxInstructions s ->
            invariant low (set_hitBreakpoint hit
                         (set_running running
                            (set_instructionCount count
                               (set_programCounter pc f))))) as Hfinal.
  { intros pc count running hit Hpc'' Hcount''.
    eapply invariant_intro; [exact Hinv|try done..]; cbn; by rewrite Hh. }
  destruct c as [[]|]; cbn [final].
  - destruct (checkConditionalBreakpoints _); cbn [final].
    + exact (Hfinal (programCounter f + 1) (instructionCount f + 1) false true
               ltac:(lia) ltac:(lia)).
    + destruct (_ >=? _); cbn [final].
      * exact (Hfinal (programCounter f + 1) (instructionCount f + 1) false
                 (hitBreakpoint f) ltac:(lia) ltac:(lia)).
      * exact (Hfinal (programCounter f + 1) (instructionCount f + 1)
                 (running f) (hitBreakpoint f) ltac:(lia) ltac:(lia)).
  - exact (Hfinal (programCounter f) (instructionCount f) (running f)
             (hitBreakpoint f) ltac:(lia) ltac:(lia)).
  - exact (Hfinal (programCounter f) (instructionCount f) (running f)
             (hitBreakpoint f) ltac:(lia) ltac:(lia)).
Qed.

(** A call of [executeInstruction] from outside [step]. *)
Lemma executeInstruction_invariant opcode operand s :
  low = -1 ->
  invariant low s ->
  invariant low (final (executeInstruction opcode operand s)).
Proof.
  intros Hdirect Hinv.
  pose proof Hinv
    as (_ & _ & Hcounts & (_ & Hpc & Hstack & Hdepth & Hcount) & Hhistory
        & Hlength & _).
  cbn in Hpc, Hstack, Hdepth, Hcount.
  pose proof (executeInstruction_frame opcode operand s) as (Hcfg & Hh & Hc & _).
  pose proof (executeInstruction_registers opcode operand s Hpc Hstack Hdepth)
    as (Hstack' & Hdepth' & Hpc').
  pose proof (executeInstruction_counters opcode operand s) as Hcounters'.
  pose proof (executeInstruction_counts opcode operand s Hcounts) as Hcounts'.
  destruct (executeInstruction opcode operand s) as [c f ev].
  cbn [final completed] in *.
  pose proof (sameConfiguration_limits _ _ Hcfg) as Hlimits.
  destruct Hcfg as (_ & _ & Hbps & _ & _ & Hprotected & _ & _ & Hlen & _).
  cbn in Hlimits, Hbps, Hprotected, Hlen, Hh, Hc, Hcounters'.
  assert (low <= programCounter f) by (destruct c as [[]|]; lia).
  eapply invariant_intro; [exact Hinv|try done..]; try by rewrite Hh.
  unfold snapshotInvariant. cbn. rewrite Hc. done.
Qed.

Lemma stepBack_invariant s : invariant low s -> invariant low (final (stepBack s)).
Proof.
  intros Hinv. unfold stepBack.
  destruct (last (executionHistory s)) as [saved|] eqn:Hlast; [|done].
  apply last_Some in Hlast as [history Heq]. cbn [final].
  pose proof Hinv as (_ & _ & Hcounts & _ & Hhistory & Hlength & _).
  rewrite Heq in Hhistory, Hlength.
  apply Forall_app in Hhistory as [Hhistory Hsaved].
  rewrite Forall_singleton in Hsaved.
  rewrite length_app in Hlength. cbn [length] in Hlength.
  pose proof Hsaved as (Hlen & _).
  apply (invariant_intro s); cbn; rewrite ?Heq, ?removelast_last;
    try done; try lia.
  unfold limits. cbn. by rewrite Hlen.
Qed.

Lemma reset_invariant s : invariant low s -> invariant low (final (reset s)).
Proof.
  intros Hinv. pose proof Hinv as ((? & ? & ?) & _).
  apply (invariant_intro s); cbn; rewrite ?length_replicate; try done.
  - unfold limits. cbn. by rewrite length_replicate.
  - apply Forall_replicate. lia.
  - unfold snapshotInvariant. cbn. rewrite length_replicate.
    split; [done|]. split; [lia|]. split; [done|]. lia.
Qed.

Lemma loadProgram_invariant programText s :
  invariant low s -> invariant low (final (loadProgram programText s)).
Proof.
  intros Hinv%reset_invariant. unfold loadProgram.
  destruct (_ || _); [done|].
  destruct (loadTokens 0 _ _) as [c s'] eqn:Hload. cbn [final].
  replace s' with (loadTokens 0 (splitWhitespace (trim programText))
                     (final (reset s))).2 by by rewrite Hload.
  rewrite loadTokens_unfold.
  pose proof (loadTokens_memory_length 0 (splitWhitespace (trim programText))
                (final (reset s))) as Hlen.
  clear Hload. revert Hlen.
  generalize (memory (loadTokens 0 (splitWhitespace (trim programText))
                        (final (reset s))).2).
  generalize dependent (final (reset s)). clear. intros s Hinv m Hlen.
  pose proof Hinv as (_ & _ & ? & (_ & ?) & ? & ? & _).
  apply (invariant_intro s); try done.
  unfold limits. by rewrite memory_set_memory, Hlen.
Qed.

Lemma breakpoints_invariant s addresses :
  invariant low s ->
  (forall a, a ∈ addresses -> inMemory s a = true) ->
  invariant low (set_breakpoints addresses s).
Proof.
  intros (? & ? & ? & ? & ? & ? & ? & ?) Hin.
  split; [done|]. split; [done|]. split; [done|]. split; [done|].
  split; [done|]. split; [done|]. split; done.
Qed.

Lemma protectedMemory_invariant s addresses :
  invariant low s ->
  (forall a, a ∈ addresses -> inMemory s a = true) ->
  invariant low (set_protectedMemory addresses s).
Proof.
  intros (? & ? & ? & ? & ? & ? & ? & ?) Hin.
  split; [done|]. split; [done|]. split; [done|]. split; [done|].
  split; [done|]. split; [done|]. split; done.
Qed.

Lemma perform_invariant c s :
  invariant low s ->
  (direct c = true -> low = -1) ->
  invariant low (perform c s).
Proof.
  intros Hinv Hdirect.
  pose proof Hinv as (? & ? & ? & ? & ? & ? & Hbps & Hprotected).
  destruct c; cbn [perform].
  - by apply step_invariant.
  - by apply stepBack_invariant.
  - by apply reset_invariant.
  - by apply loadProgram_invariant.
  - unfold addBreakpoint. destruct (inMemory s address) eqn:Hin; [|done].
    apply breakpoints_invariant; [done|]. intros a.
    rewrite elem_of_union, elem_of_singleton. intros [->|]; auto.
  - apply breakpoints_invariant; [done|]. intros a.
    rewrite elem_of_difference. intros []; auto.
  - unfold toggleBreakpoint, addBreakpoint.
    destruct (bool_decide _).
    + apply breakpoints_invariant; [done|]. intros a.
      rewrite elem_of_difference. intros []; auto.
    + destruct (inMemory s address) eqn:Hin; [|done].
      apply breakpoints_invariant; [done|]. intros a.
      rewrite elem_of_union, elem_of_singleton. intros [->|]; auto.
  - apply breakpoints_invariant; [done|]. intros a Ha.
    by apply not_elem_of_empty in Ha.
  - done.
  - unfold removeConditionalBreakpoint. by destruct (_ && _).
  - done.
  - done.
  - unfold removeWatch. by destruct (_ && _).
  - done.
  - rewrite protectMemoryRange_unfold.
    apply protectedMemory_invariant; [done|]. intros a.
    rewrite protectMemoryRange_elem. intros [|[]]; auto.
  - rewrite unprotectMemoryRange_unfold.
    apply protectedMemory_invariant; [done|]. intros a.
    rewrite unprotectMemoryRange_elem. intros []; auto.
  - apply protectedMemory_invariant; [done|]. intros a Ha.
    by apply not_elem_of_empty in Ha.
  - unfold toggleHistory. destruct enabled; cbn [negb]; [done|].
    apply (invariant_intro s); cbn; try done. lia.
  - apply (invariant_intro s); cbn; try done. lia.
  - done.
  - apply (invariant_intro s); cbn; rewrite ?length_replicate; try done.
    apply Forall_replicate. lia.
  - done.
  - done.
  - by apply executeInstruction_invariant; [apply Hdirect|].
  - by apply saveStateToHistory_invariant.
Qed.

Lemma perform_limits c s : invariant low s -> limits (perform c s) = limits s.
Proof.
  intros Hinv. destruct c; cbn [perform]; try done.
  - apply sameConfiguration_limits, step_frame.
  - unfold stepBack.
    destruct (last (executionHistory s)) as [saved|] eqn:Hlast; [|done].
    apply last_Some in Hlast as [history Heq]. cbn [final].
    pose proof Hinv as (_ & _ & _ & _ & Hhistory & _).
    rewrite Heq in Hhistory.
    apply Forall_app in Hhistory as [_ Hsaved].
    rewrite Forall_singleton in Hsaved. destruct Hsaved as [Hlen _].
    unfold limits. cbn. by rewrite Hlen.
  - apply sameConfiguration_limits, reset_frame.
  - apply sameConfiguration_limits, loadProgram_frame.
  - unfold addBreakpoint. by destruct (inMemory _ _).
  - unfold toggleBreakpoint, addBreakpoint.
    destruct (bool_decide _); [done|]. by destruct (inMemory _ _).
  - unfold removeConditionalBreakpoint. by destruct (_ && _).
  - unfold removeWatch. by destruct (_ && _).
  - by rewrite protectMemoryRange_unfold.
  - by rewrite unprotectMemoryRange_unfold.
  - unfold toggleHistory. by destruct enabled.
  - apply sameConfiguration_limits, (executeInstruction_frame opcode operand s).
  - unfold saveStateToHistory. by destruct (_ >? _).
Qed.

Lemma session_invariant commands s :
  invariant low s ->
  low = -1 \/ Forall (fun c => direct c = false) commands ->
  invariant low (session commands s) /\ limits (session commands s) = limits s.
Proof.
  unfold session. revert s.
  induction commands as [|c commands IH]; intros s Hinv Hcalls; [done|].
  cbn [foldl].
  assert (direct c = true -> low = -1) as Hc.
  { destruct Hcalls as [|[Hc _]%Forall_cons]; [done|]. by rewrite Hc. }
  destruct (IH (perform c s)) as [Hinv' Hlimits];
    [by apply perform_invariant| |].
  { destruct Hcalls as [|[_ ?]%Forall_cons]; [by left|by right]. }
  split; [done|]. by rewrite Hlimits, perform_limits.
Qed.

Lemma constructor_invariant memorySize : invariant low (constructor memorySize).
Proof.
  unfold invariant, snapshotInvariant. cbn.
  rewrite !length_replicate.
  repeat split; try done; try lia.
  all: try (apply Forall_replicate; lia).
  all: intros a Ha; by apply not_elem_of_empty in Ha.
Qed.

Lemma session_constructor_low memorySize commands :
  low = -1 \/ Forall (fun c => direct c = false) commands ->
  let s := session commands (constructor memorySize) in
  invariant low s
  /\ maxCallDepth s = 10 /\ maxInstructions s = 10000
  /\ maxHistorySize s = 1000
  /\ length (memory s) = Z.to_nat memorySize.
Proof.
  intros Hcalls s.
  destruct (session_invariant commands (constructor memorySize)
              (constructor_invariant memorySize) Hcalls) as [Hinv Hlimits].
  fold s in Hinv, Hlimits. injection Hlimits as -> -> -> ->.
  cbn. by rewrite length_replicate.
Qed.

End Low.

(** Any calls at all. *)
Lemma session_constructor memorySize commands :
  let s := session commands (constructor memorySize) in
  invariant (-1) s
  /\ maxCallDepth s = 10 /\ maxInstructions s = 10000
  /\ maxHistorySize s = 1000
  /\ length (memory s) = Z.to_nat memorySize.
Proof. apply session_constructor_low; [lia|by left]. Qed.

(** [executeInstruction] on a new emulator, not through [step]: a jump
    leaves the program counter at -1, and a call after it saves the return
    address 1. *)
Example executeInstruction_direct_ex :
  let s := session [ExecuteInstruction OPCODES.JMP None;
                    ExecuteInstruction OPCODES.CALL None] (constructor 81) in
  programCounter (perform (ExecuteInstruction OPCODES.JMP None) (constructor 81))
  = -1
  /\ programCounter s = -1 /\ callStack s = [1].
Proof. by vm_compute. Qed.


(** X15: whatever calls are made on a new emulator, the memory and the
    access counters keep the size the emulator was constructed with. *)
Theorem session_memory_size memorySize commands :
  0 <= memorySize ->
  let s := session commands (constructor memorySize) in
  length (memory s) = Z.to_nat memorySize
  /\ length (memoryAccessCounts s) = Z.to_nat memorySize
  /\ Forall (fun saved => length (saved_memory saved) = Z.to_nat memorySize)
            (executionHistory s).
Proof.
  intros _ s.
  destruct (session_constructor memorySize commands)
    as ((_ & Hcounters & _ & _ & Hhistory & _) & _ & _ & _ & Hlen).
  fold s in Hcounters, Hhistory, Hlen.
  split; [done|]. split; [congruence|].
  eapply Forall_impl; [done|]. intros saved [Hsaved _]. congruence.
Qed.

Lemma session_memory_size_witness :
  let s := session [LoadProgram (lit "+00 +0 0"); Step; Step; StepBack; Reset]
             (constructor 9) in
  length (memory s) = Z.to_nat 9
  /\ length (memoryAccessCounts s) = Z.to_nat 9
  /\ Forall (fun saved => length (saved_memory saved) = Z.to_nat 9)
            (executionHistory s).
Proof.
  refine (session_memory_size 9
            [LoadProgram (lit "+00 +0 0"); Step; Step; StepBack; Reset] _).
  lia.
Defined.

(** X16: whatever calls are made on a new emulator, the call stack never
    holds more than 10 return addresses, the instruction count stays
    between 0 and 10000, the history never holds more than 1000 snapshots,
    and no access counter is negative. *)
Theorem session_bounds memorySize commands :
  0 <= memorySize ->
  let s := session commands (constructor memorySize) in
  (length (callStack s) <= 10)%nat
  /\ 0 <= instructionCount s <= 10000
  /\ (length (executionHistory s) <= 1000)%nat
  /\ Forall (fun count => 0 <= count) (memoryAccessCounts s).
Proof.
  intros _ s.
  destruct (session_constructor memorySize commands)
    as ((_ & _ & Hcounts & (_ & _ & _ & Hdepth & Hcount) & _ & Hlength & _)
        & Hmaxdepth & Hmax & Hsize & _).
  fold s in Hcounts, Hdepth, Hcount, Hlength, Hmaxdepth, Hmax, Hsize.
  cbn in Hdepth, Hcount. repeat split; try done; lia.
Qed.

Lemma session_bounds_witness :
  let s := session [LoadProgram (lit "+-+ 0"); Step; Step; ToggleHeatmap; Step]
             (constructor 9) in
  (length (callStack s) <= 10)%nat
  /\ 0 <= instructionCount s <= 10000
  /\ (length (executionHistory s) <= 1000)%nat
  /\ Forall (fun count => 0 <= count) (memoryAccessCounts s).
Proof.
  refine (session_bounds 9
            [LoadProgram (lit "+-+ 0"); Step; Step; ToggleHeatmap; Step] _).
  lia.
Defined.

(** X17: whatever calls are made on a new emulator, the program counter is
    never below -1, every return address on the call stack is at least 1,
    and every breakpoint and every protected address is an address of the
    memory.  When [executeInstruction] is called by [step] only, the program
    counter is never negative (so that [step] reports it out of bounds only
    past the end of the memory) and every return address is at least 2. *)
Theorem session_addresses memorySize commands :
  0 <= memorySize ->
  let s := session commands (constructor memorySize) in
  -1 <= programCounter s
  /\ Forall (fun returnAddress => 1 <= returnAddress) (callStack s)
  /\ (forall a, a ∈ breakpoints s -> 0 <= a < memorySize)
  /\ (forall a, a ∈ protectedMemory s -> 0 <= a < memorySize)
  /\ (Forall (fun c => direct c = false) commands ->
      0 <= programCounter s
      /\ Forall (fun returnAddress => 2 <= returnAddress) (callStack s)).
Proof.
  intros Hsize s.
  destruct (session_constructor memorySize commands)
    as ((_ & _ & _ & (_ & Hpc & Hstack & _) & _ & _ & Hbps & Hprotected)
        & _ & _ & _ & Hlen).
  fold s in Hpc, Hstack, Hbps, Hprotected, Hlen.
  assert (forall a, inMemory s a = true -> 0 <= a < memorySize) as Hin
    by (intros a; rewrite inMemory_spec; unfold memoryLength; lia).
  split; [done|]. split; [done|].
  split; [by intros a Ha; apply Hin, Hbps|].
  split; [by intros a Ha; apply Hin, Hprotected|].
  intros Hcalls.
  destruct (session_constructor_low 0 ltac:(lia) memorySize commands
              ltac:(by right))
    as ((_ & _ & _ & (_ & Hpc0 & Hstack0 & _) & _) & _).
  by split.
Qed.

Lemma session_addresses_witness :
  let s := session [AddBreakpoint 3; AddBreakpoint 12; ProtectMemoryRange 7 20;
                    LoadProgram (lit "+0 0"); Step; ToggleBreakpoint 4;
                    ExecuteInstruction OPCODES.JMP None; SaveStateToHistory]
             (constructor 9) in
  -1 <= programCounter s
  /\ Forall (fun returnAddress => 1 <= returnAddress) (callStack s)
  /\ (forall a, a ∈ breakpoints s -> 0 <= a < 9)
  /\ (forall a, a ∈ protectedMemory s -> 0 <= a < 9).
Proof.
  intros s.
  destruct (session_addresses 9
              [AddBreakpoint 3; AddBreakpoint 12; ProtectMemoryRange 7 20;
               LoadProgram (lit "+0 0"); Step; ToggleBreakpoint 4;
               ExecuteInstruction OPCODES.JMP None; SaveStateToHistory]
              ltac:(lia)) as (Hpc & Hstack & Hbps & Hprotected & _).
  exact (conj Hpc (conj Hstack (conj Hbps Hprotected))).
Defined.

End Invariant.

(** * Execution *)

Section Execution.

(** The instruction register is not read by the instructions. *)
Lemma executeInstruction_instructionRegister v opcode operand s :
  let r := executeInstruction opcode operand s in
  let r' := executeInstruction opcode operand (set_instructionRegister v s) in
  completed r' = completed r /\ fired r' = fired r
  /\ final r' = set_instructionRegister v (final r).
Proof.
  destruct s. unfold_exec_tests. cbn.
  repeat case_match; cbn; done.
Qed.

(** Executing on the emulator as fetched, or as it was before the call. *)
Lemma executeInstruction_fetched opcode s :
  let r := executeInstruction opcode None s in
  let r' := executeInstruction opcode None (fetched s) in
  completed r' = completed r /\ fired r' = fired r
  /\ accumulator (final r') = accumulator (final r)
  /\ programCounter (final r') = programCounter (final r)
  /\ memory (final r') = memory (final r)
  /\ callStack (final r') = callStack (final r)
  /\ memoryAccessCounts (final r') = memoryAccessCounts (final r).
Proof.
  intros r r'.
  set (v := readMemory s (programCounter s)).
  assert (machineView (fetched s) = machineView (set_instructionRegister v s))
    as Hview.
  { unfold fetched. fold v.
    change (machineView (set_instructionRegister v ?t))
      with (set_instructionRegister v (machineView t)).
    by rewrite machineView_recorded. }
  destruct (executeInstruction_same_view opcode None _ _ Hview)
    as (Hc & Hf & Hfinal).
  destruct (executeInstruction_instructionRegister v opcode None s)
    as (Hc' & Hf' & Hfinal').
  fold r in Hc', Hf', Hfinal'. fold r' in Hc, Hf, Hfinal.
  rewrite Hc' in Hc. rewrite Hf' in Hf. rewrite Hfinal' in Hfinal.
  destruct (machineView_fields _ _ Hfinal) as (Hsnap & _ & _ & Hcounts).
  split; [done|]. split; [done|].
  split; [exact (f_equal saved_accumulator Hsnap)|].
  split; [exact (f_equal saved_programCounter Hsnap)|].
  split; [exact (f_equal saved_memory Hsnap)|].
  split; [exact (f_equal saved_callStack Hsnap)|done].
Qed.

(** A step that passes the guards, in terms of the instruction executed on
    the emulator as it was before the call. *)
Lemma step_registers s :
  instructionCount s < maxInstructions s ->
  programCounter s ∉ breakpoints s ->
  0 <= programCounter s < memoryLength s ->
  let r := executeInstruction (readMemory s (programCounter s)) None s in
  let s' := final (step s) in
  accumulator s' = accumulator (final r)
  /\ memory s' = memory (final r)
  /\ callStack s' = callStack (final r)
  /\ memoryAccessCounts s' = memoryAccessCounts (final r)
  /\ match completed r with
     | Return true =>
         programCounter s' = programCounter (final r) + 1
         /\ instructionCount s' = instructionCount s + 1
         /\ completed (step s)
            = Return (bool_decide (checkConditionalBreakpoints s' = None)
                      && (programCounter s' <? memoryLength s))
     | c =>
         programCounter s' = programCounter (final r)
         /\ instructionCount s' = instructionCount s
         /\ completed (step s) = c
         /\ fired (step s) = fired r
     end.
Proof.
  intros Hlimit Hnobreak Hinside r s'. subst s'.
  rewrite (step_guards s Hlimit Hnobreak Hinside).
  destruct (executeInstruction_fetched (readMemory s (programCounter s)) s)
    as (Hc & Hf & Hacc & Hpc & Hmem & Hstack & Hcounts).
  fold r in Hc, Hf, Hacc, Hpc, Hmem, Hstack, Hcounts.
  pose proof (executeInstruction_frame (readMemory s (programCounter s)) None
                (fetched s)) as (Hcfg & _ & Hcount & _).
  destruct (fetched_fields s) as (_ & Hmem0 & _ & _ & _ & _ & _ & _ & Hcount0).
  destruct Hcfg as (_ & _ & _ & _ & _ & _ & _ & _ & Hlen & _).
  rewrite Hmem0 in Hlen. rewrite Hcount0 in Hcount.
  destruct (executeInstruction _ None (fetched s)) as [c f ev].
  cbn [completed final fired] in *.
  rewrite <- Hc, <- Hacc, <- Hpc, <- Hmem, <- Hstack, <- Hcounts, <- Hf.
  clear Hc Hacc Hpc Hmem Hstack Hcounts Hf r.
  destruct c as [[]|]; cbn [completed final fired]; [|by rewrite Hcount..].
  unfold checkConditionalBreakpoints, memoryLength.
  cbn [conditionalBreakpoints set_programCounter set_instructionCount
       programCounter instructionCount memory].
  rewrite Hcount, Hlen.
  set (t := set_instructionCount _ _).
  destruct (firstTriggered t (conditionalBreakpoints f)) as [c|] eqn:Hcheck.
  - cbn. rewrite (firstTriggered_machineView _ t), Hcheck by done.
    by rewrite bool_decide_eq_false_2.
  - destruct (Z.geb_spec (programCounter f + 1)
                (Z.of_nat (length (memory s)))) as [Hend|Hgo]; cbn.
    + rewrite (firstTriggered_machineView _ t), Hcheck by done.
      rewrite bool_decide_eq_true_2 by done.
      by destruct (Z.ltb_spec (programCounter f + 1)
                     (Z.of_nat (length (memory s)))); [lia|].
    + rewrite Hcheck. rewrite bool_decide_eq_true_2 by done.
      by destruct (Z.ltb_spec (programCounter f + 1)
                     (Z.of_nat (length (memory s)))); [|lia].
Qed.

Lemma fetched_memory s :
  memoryLength (fetched s) = memoryLength s
  /\ (forall i, readMemory (fetched s) i = readMemory s i)
  /\ (forall a, inMemory (fetched s) a = inMemory s a).
Proof.
  destruct (fetched_fields s) as (_ & Hmem & _).
  unfold inMemory, readMemory, memoryLength. by rewrite Hmem.
Qed.

(** The guards fail: the call ends without touching the machine. *)
Lemma step_refuses s :
  ~ fetches s ->
  completed (step s) = Return false
  /\ accumulator (final (step s)) = accumulator s
  /\ programCounter (final (step s)) = programCounter s
  /\ memory (final (step s)) = memory s
  /\ callStack (final (step s)) = callStack s
  /\ instructionCount (final (step s)) = instructionCount s
  /\ memoryAccessCounts (final (step s)) = memoryAccessCounts s
  /\ heatmapEnabled (final (step s)) = heatmapEnabled s.
Proof.
  intros Hrefuses. unfold step. fold (recorded s).
  destruct (Z.geb_spec (instructionCount s) (maxInstructions s));
    [repeat split; reflexivity|].
  rewrite (recorded_unfold s).
  change (memoryLength (set_executionHistory _ s)) with (memoryLength s).
  change (programCounter (set_executionHistory _ s)) with (programCounter s).
  change (breakpoints (set_executionHistory _ s)) with (breakpoints s).
  destruct (bool_decide (programCounter s ∈ breakpoints s)) eqn:Hnot;
    [repeat split; reflexivity|].
  apply bool_decide_eq_false in Hnot.
  destruct (Z.ltb_spec (programCounter s) 0); [repeat split; reflexivity|].
  destruct (Z.geb_spec (programCounter s) (memoryLength s));
    [repeat split; reflexivity|].
  destruct Hrefuses. unfold fetches. split; [lia|]. split; [done|lia].
Qed.

Lemma fetches_dec s : fetches s \/ ~ fetches s.
Proof.
  unfold fetches.
  destruct (decide (programCounter s ∈ breakpoints s)); [tauto|].
  destruct (Z.lt_ge_cases (instructionCount s) (maxInstructions s)); [|lia].
  destruct (Z.lt_ge_cases (programCounter s) 0); [lia|].
  destruct (Z.lt_ge_cases (programCounter s) (memoryLength s)); [|lia].
  tauto.
Qed.

(** ** Instructions that stop the machine *)

Lemma step_HALT s :
  fetches s ->
  readMemory s (programCounter s) = OPCODES.HALT ->
  step s = Outcome (Return false) (set_running false (fetched s))
             (fire (onHalt s) (Halt HaltInstruction)).
Proof.
  intros (Hlimit & Hnobreak & Hinside) Hfetch.
  pose proof (step_executes s Hlimit Hnobreak Hinside) as Hstep.
  rewrite Hfetch in Hstep. cbn -[fetched] in Hstep.
  destruct (fetched_fields s) as (_ & _ & _ & _ & _ & _ & Hhalt & _).
  by rewrite Hstep, Hhalt.
Qed.

Lemma halted_stays s :
  fetches s ->
  readMemory s (programCounter s) = OPCODES.HALT ->
  let t := final (step s) in
  fetches t
  /\ readMemory t (programCounter t) = OPCODES.HALT
  /\ currentSnapshot t
     = currentSnapshot (set_instructionRegister OPCODES.HALT s)
  /\ onHalt t = onHalt s.
Proof.
  intros Hfetches Hfetch t. subst t. rewrite step_HALT by done.
  cbn [final]. destruct Hfetches as (Hlimit & Hnobreak & Hinside).
  unfold fetched. rewrite (recorded_unfold s), Hfetch.
  unfold fetches, readMemory, memoryLength in *. by cbn.
Qed.

(** X18: a machine at a HALT instruction stays there: every further call of
    [step] returns false, reports the halt, and leaves the accumulator, the
    program counter, the memory, the call stack and the instruction count
    as they are. *)
Theorem halt_is_terminal s k :
  fetches s ->
  readMemory s (programCounter s) = OPCODES.HALT ->
  let t := steps k s in
  completed (step t) = Return false
  /\ fired (step t) = fire (onHalt s) (Halt HaltInstruction)
  /\ running (final (step t)) = false
  /\ accumulator t = accumulator s
  /\ programCounter t = programCounter s
  /\ memory t = memory s
  /\ callStack t = callStack s
  /\ instructionCount t = instructionCount s.
Proof.
  intros Hfetches Hfetch t.
  assert (fetches t /\ readMemory t (programCounter t) = OPCODES.HALT
          /\ onHalt t = onHalt s
          /\ accumulator t = accumulator s
          /\ programCounter t = programCounter s
          /\ memory t = memory s
          /\ callStack t = callStack s
          /\ instructionCount t = instructionCount s)
    as (Hfetches' & Hfetch' & Hhalt & Hregisters).
  { subst t. induction k as [|k IH]; [done|].
    rewrite steps_S.
    destruct IH as (Hfetches' & Hfetch' & Hhalt & Hacc & Hpc & Hmem & Hstack
                    & Hcount).
    destruct (halted_stays _ Hfetches' Hfetch')
      as (Hfetches'' & Hfetch'' & Hsnap & Hhalt').
    split; [done|]. split; [done|]. split; [congruence|].
    rewrite <- Hacc, <- Hpc, <- Hmem, <- Hstack, <- Hcount.
    split; [exact (f_equal saved_accumulator Hsnap)|].
    split; [exact (f_equal saved_programCounter Hsnap)|].
    split; [exact (f_equal saved_memory Hsnap)|].
    split; [exact (f_equal saved_callStack Hsnap)|].
    exact (f_equal saved_instructionCount Hsnap). }
  rewrite step_HALT by done. cbn [completed fired final running set_running].
  by rewrite Hhalt.
Qed.

Lemma halt_is_terminal_witness :
  let s := set_onHalt true (loaded "+00 0") in
  let t := steps 5 (final (step s)) in
  completed (step t) = Return false
  /\ fired (step t) = [Halt HaltInstruction]
  /\ running (final (step t)) = false
  /\ accumulator t = 1
  /\ programCounter t = 1.
Proof.
  intros s t.
  refine ((fun H => conj (proj1 H) (conj (proj1 (proj2 H))
             (conj (proj1 (proj2 (proj2 H)))
                (conj (proj1 (proj2 (proj2 (proj2 H))))
                   (proj1 (proj2 (proj2 (proj2 (proj2 H)))))))))
            (halt_is_terminal (final (step s)) 5 _ _)).
  - unfold fetches. split; [evaluate|]. split; evaluate.
  - evaluate.
Defined.

(** X19: from any emulator, [step] returns true at most
    [maxInstructions - instructionCount] times in a row: among the calls of
    [step] made one after the other there is a first one, within that
    number, that returns false or throws. *)
Theorem run_terminates s :
  exists k,
    Z.of_nat k <= Z.max 0 (maxInstructions s - instructionCount s)
    /\ completed (step (steps k s)) <> Return true
    /\ forall j, (j < k)%nat -> completed (step (steps j s)) = Return true.
Proof.
  remember (Z.to_nat (maxInstructions s - instructionCount s)) as n eqn:Hn.
  revert s Hn. induction n as [|n IH]; intros s Hn.
  - exists 0%nat. split; [lia|]. split; [|lia]. cbn.
    by rewrite step_at_limit by lia.
  - assert (completed (step s) = Return true
            \/ completed (step s) <> Return true) as [Htrue|Hstop]
      by (destruct (completed (step s)) as [[]|]; auto).
    + destruct (step_instructionCount s) as [_ Hcount].
      specialize (Hcount Htrue).
      destruct (step_frame s) as [(_ & _ & _ & _ & _ & _ & _ & Hmax & _) _].
      destruct (IH (final (step s))) as (k & Hk & Hends & Hruns);
        [lia|].
      exists (S k). unfold steps in *. rewrite !Nat.iter_succ_r.
      split; [lia|]. split; [done|].
      intros [|j] Hj; [done|]. rewrite Nat.iter_succ_r. apply Hruns. lia.
    + exists 0%nat. split; [lia|]. split; [done|lia].
Qed.

(** X20: a CALL at the full depth of the call stack is refused: the step
    returns false and reports the overflow through [onError], with the call
    stack, the program counter and the other registers unchanged. *)
Theorem call_overflow_refused s :
  fetches s ->
  readMemory s (programCounter s) = OPCODES.CALL ->
  maxCallDepth s <= Z.of_nat (length (callStack s)) ->
  completed (step s) = Return false
  /\ fired (step s) = fire (onError s) (Error CallStackOverflow)
  /\ running (final (step s)) = false
  /\ callStack (final (step s)) = callStack s
  /\ programCounter (final (step s)) = programCounter s
  /\ accumulator (final (step s)) = accumulator s
  /\ memory (final (step s)) = memory s
  /\ instructionCount (final (step s)) = instructionCount s.
Proof.
  intros (Hlimit & Hnobreak & Hinside) Hfetch Hfull.
  pose proof (step_executes s Hlimit Hnobreak Hinside) as Hstep.
  destruct (fetched_fields s)
    as (Hpc & Hmem & Hacc & Hstack & _ & Hdepth & _ & Herror & Hcount).
  rewrite Hfetch in Hstep. unfold executeInstruction in Hstep.
  revert Hstep. dispatch. rewrite Hstack, Hdepth.
  destruct (Z.geb_spec (Z.of_nat (length (callStack s))) (maxCallDepth s));
    [|lia].
  cbn -[fetched]. intros ->. cbn -[fetched].
  by rewrite Herror, Hstack, Hpc, Hacc, Hmem, Hcount.
Qed.

Lemma call_overflow_refused_witness :
  let s := set_onError true
             (steps 10 (loaded "+-+ 0 0 0 0 0 0 0 0 0 0 0 0")) in
  completed (step s) = Return false
  /\ fired (step s) = [Error CallStackOverflow]
  /\ running (final (step s)) = false
  /\ callStack (final (step s)) = callStack s.
Proof.
  intros s.
  refine ((fun H => conj (proj1 H) (conj (proj1 (proj2 H))
             (conj (proj1 (proj2 (proj2 H)))
                (proj1 (proj2 (proj2 (proj2 H)))))))
            (call_overflow_refused s _ _ _)).
  - unfold fetches. split; [evaluate|]. split; evaluate.
  - evaluate.
  - evaluate.
Defined.

End Execution.

(** * Single instructions *)

Section Instructions.

Lemma executeInstruction_unknown opcode operand s :
  getOpcodeName opcode = "DATA"%string ->
  executeInstruction opcode operand s = proceed s.
Proof.
  intros Hname. unfold executeInstruction.
  repeat match goal with
         | |- context [opcode =? ?code] =>
             destruct (Z.eqb_spec opcode code) as [->|_];
             [by vm_compute in Hname|]
         end.
  done.
Qed.

(** X21: a word that is no opcode is executed as a no-operation.  The
    step that fetches it saves the snapshot (with history enabled), puts
    the word in the instruction register, moves the program counter on by
    one and counts an instruction; it then ends the run, clearing [running]
    (and setting [hitBreakpoint] for a conditional breakpoint), when a
    conditional breakpoint triggers or the program counter has left the
    memory.  Nothing else changes: not the accumulator, the memory, the call
    stack or the access counters. *)
Theorem unknown_opcode_is_nop s :
  fetches s ->
  getOpcodeName (readMemory s (programCounter s)) = "DATA"%string ->
  let s' := final (step s) in
  let moved :=
    set_instructionCount (instructionCount s + 1)
      (set_programCounter (programCounter s + 1)
         (set_instructionRegister (readMemory s (programCounter s))
            (recorded s))) in
  s' = match checkConditionalBreakpoints moved with
       | Some _ => set_hitBreakpoint true (set_running false moved)
       | None =>
           if programCounter moved >=? memoryLength moved
           then set_running false moved
           else moved
       end
  /\ accumulator s' = accumulator s
  /\ memory s' = memory s
  /\ callStack s' = callStack s
  /\ memoryAccessCounts s' = memoryAccessCounts s
  /\ programCounter s' = programCounter s + 1
  /\ instructionCount s' = instructionCount s + 1
  /\ instructionRegister s' = readMemory s (programCounter s)
  /\ executionHistory s' = executionHistory (recorded s)
  /\ completed (step s)
     = Return (bool_decide (checkConditionalBreakpoints s' = None)
               && (programCounter s + 1 <? memoryLength s)).
Proof.
  intros (Hlimit & Hnobreak & Hinside) Hname s' moved.
  pose proof (step_registers s Hlimit Hnobreak Hinside) as Hstep.
  rewrite executeInstruction_unknown in Hstep by done.
  cbn [proceed final completed] in Hstep. fold s' in Hstep.
  destruct Hstep as (? & ? & ? & ? & Hpc & ? & ?).
  split; [|do 6 (split; [done|]); split; [|split]].
  - subst s' moved. rewrite (step_guards s Hlimit Hnobreak Hinside).
    cbv zeta. rewrite executeInstruction_unknown by done.
    cbn [proceed final completed].
    destruct (fetched_fields s) as (Hpc0 & _ & _ & _ & _ & _ & _ & _ & Hcount0).
    change (instructionCount (set_programCounter ?pc (fetched s)))
      with (instructionCount (fetched s)).
    rewrite Hpc0, Hcount0. unfold fetched. by repeat case_match.
  - by apply step_fetches.
  - unfold s'. destruct (step_frame s) as [_ ->].
    by destruct (Z.geb_spec (instructionCount s) (maxInstructions s)); [lia|].
  - by rewrite <- Hpc.
Qed.

Lemma unknown_opcode_is_nop_witness :
  let s := loaded "+++ 0" in
  accumulator (final (step s)) = accumulator s
  /\ memory (final (step s)) = memory s
  /\ callStack (final (step s)) = callStack s
  /\ programCounter (final (step s)) = programCounter s + 1
  /\ instructionCount (final (step s)) = instructionCount s + 1
  /\ instructionRegister (final (step s)) = 13
  /\ executionHistory (final (step s)) = [currentSnapshot s].
Proof.
  intros s.
  assert (fetches s) as Hfetches
    by (unfold fetches; split; [evaluate|]; split; evaluate).
  assert (getOpcodeName (readMemory s (programCounter s)) = "DATA"%string)
    as Hname by evaluate.
  destruct (unknown_opcode_is_nop s Hfetches Hname)
    as (_ & Hacc & Hmem & Hstack & _ & Hpc & Hcount & Hir & Hhistory & _).
  exact (conj Hacc (conj Hmem (conj Hstack (conj Hpc (conj Hcount
           (conj Hir Hhistory)))))).
Defined.





Lemma isJump_cases opcode :
  isJump opcode = true ->
  opcode = OPCODES.JMP \/ opcode = OPCODES.JZ \/ opcode = OPCODES.JNZ
  \/ opcode = OPCODES.JNP.
Proof.
  unfold isJump. rewrite bool_decide_eq_true, !elem_of_cons, elem_of_nil.
  tauto.
Qed.

Lemma executeInstruction_jump opcode s :
  isJump opcode = true ->
  programCounter s + 1 < memoryLength s ->
  let target := readMemory s (programCounter s + 1) in
  executeInstruction opcode None s
  = proceed (if jumpTaken opcode (accumulator s) && inMemory s target
             then set_programCounter (target - 1) (advance s)
             else advance s).
Proof.
  intros Hopcode%isJump_cases Hoperand target.
  unfold executeInstruction, jumpTaken, jump.
  change (memoryLength (advance s)) with (memoryLength s).
  change (programCounter (advance s)) with (programCounter s + 1).
  change (accumulator (advance s)) with (accumulator s).
  change (readMemory (advance s) (programCounter s + 1)) with target.
  change (inMemory (advance s) target) with (inMemory s target).
  destruct (Z.ltb_spec (programCounter s + 1) (memoryLength s)); [|lia].
  destruct Hopcode as [->|[->|[->| ->]]]; dispatch; cbn [andb]; try done.
  - by destruct (accumulator s).
  - by destruct (accumulator s).
  - by destruct (accumulator s >? 0).
Qed.

(** X23: a jump whose operand is in the memory lands on the operand when
    it is taken (JMP always, JZ at zero, JNZ off zero, JNP at a positive
    accumulator) and the operand is an address of the memory; otherwise
    execution goes on behind the operand.  Nothing else changes. *)
Theorem jump_lands s :
  fetches s ->
  isJump (readMemory s (programCounter s)) = true ->
  programCounter s + 1 < memoryLength s ->
  let opcode := readMemory s (programCounter s) in
  let target := readMemory s (programCounter s + 1) in
  let s' := final (step s) in
  programCounter s'
  = (if jumpTaken opcode (accumulator s) && inMemory s target
     then target else programCounter s + 2)
  /\ accumulator s' = accumulator s
  /\ memory s' = memory s
  /\ callStack s' = callStack s
  /\ instructionCount s' = instructionCount s + 1.
Proof.
  intros (Hlimit & Hnobreak & Hinside) Hopcode Hoperand opcode target s'.
  pose proof (step_registers s Hlimit Hnobreak Hinside) as Hstep.
  rewrite executeInstruction_jump in Hstep by done.
  fold opcode target s' in Hstep. cbn [proceed final completed] in Hstep.
  destruct (jumpTaken opcode (accumulator s) && inMemory s target);
    cbn in Hstep; destruct Hstep as (? & ? & ? & ? & Hpc & ? & ?);
    repeat split; try done; lia.
Qed.

Lemma jump_lands_witness :
  let s := loaded "+0 +0 0" in
  accumulator (final (step s)) = accumulator s
  /\ memory (final (step s)) = memory s
  /\ callStack (final (step s)) = callStack s
  /\ instructionCount (final (step s)) = instructionCount s + 1.
Proof.
  intros s.
  assert (fetches s) as Hfetches
    by (unfold fetches; split; [evaluate|]; split; evaluate).
  assert (isJump (readMemory s (programCounter s)) = true) as Hopcode
    by evaluate.
  assert (programCounter s + 1 < memoryLength s) as Hoperand by evaluate.
  exact (proj2 (jump_lands s Hfetches Hopcode Hoperand)).
Defined.

End Instructions.

(** * What a step writes *)

Section Writes.

Lemma executeInstruction_memory opcode operand s :
  let r := executeInstruction opcode operand s in
  memory (final r) = memory s
  \/ exists addr,
       canWriteToMemory s addr = true
       /\ memory (final r) = <[Z.to_nat addr := accumulator s]> (memory s).
Proof.
  unfold_exec. repeat case_match; cbn; auto.
  all: right; eexists; split; [eassumption|reflexivity].
Qed.

Lemma step_memory s :
  memory (final (step s)) = memory s
  \/ exists addr,
       canWriteToMemory s addr = true
       /\ memory (final (step s))
          = <[Z.to_nat addr := accumulator s]> (memory s).
Proof.
  destruct (fetches_dec s) as [(Hlimit & Hnobreak & Hinside)|Hrefuses].
  - destruct (step_registers s Hlimit Hnobreak Hinside) as (_ & -> & _).
    apply executeInstruction_memory.
  - left. by destruct (step_refuses s Hrefuses) as (_ & _ & _ & ? & _).
Qed.

Lemma step_protected s a :
  a ∈ protectedMemory s ->
  readMemory (final (step s)) a = readMemory s a.
Proof.
  intros Hprotected. unfold readMemory.
  destruct (Z.ltb_spec a 0); [done|].
  destruct (step_memory s) as [->|(addr & Hwrite & ->)]; [done|].
  apply canWriteToMemory_spec in Hwrite as [Hin Hfree].
  rewrite list_lookup_insert_ne; [done|].
  intros Heq. apply Hfree. by replace addr with a by lia.
Qed.

(** X24: a step writes at most one word of the memory, the accumulator, at
    an address that [canWriteToMemory] allows; a protected word therefore
    keeps its value, and its protection, over any number of steps. *)
Theorem protected_memory_is_read_only s :
  (memory (final (step s)) = memory s
   \/ exists addr,
        canWriteToMemory s addr = true
        /\ memory (final (step s))
           = <[Z.to_nat addr := accumulator s]> (memory s))
  /\ forall k a,
       a ∈ protectedMemory s ->
       readMemory (steps k s) a = readMemory s a
       /\ a ∈ protectedMemory (steps k s).
Proof.
  split; [apply step_memory|].
  intros k a Hprotected. induction k as [|k [IHread IHprotected]]; [done|].
  rewrite steps_S.
  destruct (step_frame (steps k s))
    as [(_ & _ & _ & _ & _ & Hsame & _) _].
  rewrite Hsame. split; [|done].
  by rewrite step_protected.
Qed.

End Writes.

Section HeatmapCounts.

Lemma executeInstruction_heatmap opcode operand s :
  let r := executeInstruction opcode operand s in
  heatmapEnabled (final r) = heatmapEnabled s
  /\ (heatmapEnabled s = false ->
      memoryAccessCounts (final r) = memoryAccessCounts s).
Proof.
  unfold_exec. repeat case_match; cbn in *; split; try done; congruence.
Qed.

Lemma step_heatmapEnabled s :
  heatmapEnabled (final (step s)) = heatmapEnabled s.
Proof.
  destruct (fetches_dec s) as [(Hlimit & Hnobreak & Hinside)|Hrefuses];
    [|by destruct (step_refuses s Hrefuses) as (_ & _ & _ & _ & _ & _ & _ & ?)].
  rewrite (step_guards s Hlimit Hnobreak Hinside).
  pose proof (executeInstruction_heatmap
                (readMemory s (programCounter s)) None (fetched s))
    as [Henabled _].
  replace (heatmapEnabled (fetched s)) with (heatmapEnabled s) in Henabled
    by (unfold fetched; rewrite recorded_unfold; done).
  destruct (executeInstruction _ None (fetched s)) as [c f ev].
  cbn [final completed] in *.
  destruct c as [[]|]; [|done..].
  cbv zeta. repeat case_match; by cbn.
Qed.

Lemma step_LOAD s :
  fetches s ->
  readMemory s (programCounter s) = OPCODES.LOAD ->
  programCounter s + 1 < memoryLength s ->
  let addr := readMemory s (programCounter s + 1) in
  inMemory s addr = true ->
  accumulator (final (step s)) = readMemory s addr
  /\ memoryAccessCounts (final (step s))
     = (if heatmapEnabled s
        then alter (fun n => n + 1) (Z.to_nat addr) (memoryAccessCounts s)
        else memoryAccessCounts s)
  /\ programCounter (final (step s)) = programCounter s + 2
  /\ memory (final (step s)) = memory s.
Proof.
  intros (Hlimit & Hnobreak & Hinside) Hopcode Hoperand addr Haddr.
  pose proof (step_registers s Hlimit Hnobreak Hinside) as Hstep.
  rewrite Hopcode in Hstep. unfold executeInstruction in Hstep.
  revert Hstep. dispatch.
  change (memoryLength (advance s)) with (memoryLength s).
  change (programCounter (advance s)) with (programCounter s + 1).
  change (readMemory (advance s) ?i) with (readMemory s i).
  fold addr.
  change (inMemory (advance s) addr) with (inMemory s addr).
  rewrite Haddr.
  destruct (Z.ltb_spec (programCounter s + 1) (memoryLength s)); [|lia].
  unfold countAccess, proceed.
  change (heatmapEnabled (set_accumulator _ (advance s)))
    with (heatmapEnabled s).
  destruct (heatmapEnabled s); cbn;
    intros (-> & -> & _ & -> & -> & _); repeat split; try done; lia.
Qed.

(** X25: with the heat map disabled no step changes an access counter;
    with it enabled, a LOAD from an address of the memory raises the counter
    of that address, and no other, by one. *)
Theorem heatmap_counts_accesses s :
  (heatmapEnabled s = false ->
   forall k, memoryAccessCounts (steps k s) = memoryAccessCounts s)
  /\ (heatmapEnabled s = true ->
      fetches s ->
      readMemory s (programCounter s) = OPCODES.LOAD ->
      programCounter s + 1 < memoryLength s ->
      inMemory s (readMemory s (programCounter s + 1)) = true ->
      memoryAccessCounts (final (step s))
      = alter (fun n => n + 1)
              (Z.to_nat (readMemory s (programCounter s + 1)))
              (memoryAccessCounts s)).
Proof.
  split.
  - intros Hdisabled k.
    assert (heatmapEnabled (steps k s) = false
            /\ memoryAccessCounts (steps k s) = memoryAccessCounts s)
      as [_ Hcounts]; [|done].
    induction k as [|k [IHenabled IHcounts]]; [done|].
    rewrite steps_S, step_heatmapEnabled. split; [done|].
    rewrite <- IHcounts.
    destruct (fetches_dec (steps k s))
      as [(Hlimit & Hnobreak & Hinside)|Hrefuses];
      [|by destruct (step_refuses _ Hrefuses) as (_ & _ & _ & _ & _ & _ & ? & _)].
    destruct (step_registers _ Hlimit Hnobreak Hinside)
      as (_ & _ & _ & -> & _).
    by apply executeInstruction_heatmap.
  - intros Henabled Hfetches Hopcode Hoperand Haddr.
    destruct (step_LOAD s Hfetches Hopcode Hoperand Haddr) as (_ & -> & _).
    by rewrite Henabled.
Qed.

Lemma heatmap_counts_accesses_witness :
  let s := (toggleHeatmap (loaded "+- ++ 0 +0-")).2 in
  memoryAccessCounts (final (step s))
  = alter (fun n => n + 1)
          (Z.to_nat (readMemory s (programCounter s + 1)))
          (memoryAccessCounts s).
Proof.
  intros s.
  assert (heatmapEnabled s = true) as Henabled by evaluate.
  assert (fetches s) as Hfetches
    by (unfold fetches; split; [evaluate|]; split; evaluate).
  assert (readMemory s (programCounter s) = OPCODES.LOAD) as Hopcode
    by evaluate.
  assert (programCounter s + 1 < memoryLength s) as Hoperand by evaluate.
  assert (inMemory s (readMemory s (programCounter s + 1)) = true) as Haddr
    by evaluate.
  exact (proj2 (heatmap_counts_accesses s) Henabled Hfetches Hopcode Hoperand
           Haddr).
Defined.

End HeatmapCounts.

(** * Conditional breakpoints *)

Section ConditionalBreakpoints.

Lemma recorded_conditions conditions s :
  recorded (set_conditionalBreakpoints conditions s)
  = set_conditionalBreakpoints conditions (recorded s).
Proof.
  destruct s. unfold recorded, saveStateToHistory, currentSnapshot. cbn.
  repeat case_match; reflexivity.
Qed.

Lemma executeInstruction_conditions conditions opcode operand s :
  let r := executeInstruction opcode operand s in
  let r' := executeInstruction opcode operand
              (set_conditionalBreakpoints conditions s) in
  completed r' = completed r /\ fired r' = fired r
  /\ final r' = set_conditionalBreakpoints conditions (final r).
Proof.
  destruct s. unfold_exec_tests. cbn.
  repeat case_match; cbn; done.
Qed.

(** X26: conditional breakpoints never change what a step does to the
    machine: with or without them the registers, the memory, the call stack,
    the history and the access counters after the step are the same.  They
    can only make a step that would have returned true return false, after
    its instruction has been executed; when no condition holds afterwards
    the step returns and reports what it would have without them. *)
Theorem conditional_breakpoints_only_halt s :
  let plain := step (clearConditionalBreakpoints s) in
  currentSnapshot (final (step s)) = currentSnapshot (final plain)
  /\ executionHistory (final (step s)) = executionHistory (final plain)
  /\ memoryAccessCounts (final (step s)) = memoryAccessCounts (final plain)
  /\ (completed (step s) = Return true -> completed plain = Return true)
  /\ (checkConditionalBreakpoints (final (step s)) = None ->
      completed (step s) = completed plain
      /\ fired (step s) = fired plain
      /\ running (final (step s)) = running (final plain)).
Proof.
  intros plain. subst plain. unfold clearConditionalBreakpoints, step.
  fold (recorded s) (recorded (set_conditionalBreakpoints [] s)).
  rewrite recorded_conditions.
  cbn [instructionCount maxInstructions historyEnabled onError
       set_conditionalBreakpoints].
  destruct (instructionCount s >=? maxInstructions s); [done|].
  generalize (recorded s). clear s. intros s.
  cbn [programCounter breakpoints onHalt set_conditionalBreakpoints].
  destruct (bool_decide (programCounter s ∈ breakpoints s)); [done|].
  change (memoryLength (set_conditionalBreakpoints [] s))
    with (memoryLength s).
  destruct ((programCounter s <? 0) || (programCounter s >=? memoryLength s));
    [done|].
  cbn [decodeInstruction instructionRegister set_instructionRegister].
  change (readMemory (set_conditionalBreakpoints [] s) (programCounter s))
    with (readMemory s (programCounter s)).
  change (set_instructionRegister ?v (set_conditionalBreakpoints [] s))
    with (set_conditionalBreakpoints [] (set_instructionRegister v s)).
  destruct (executeInstruction_conditions []
              (readMemory s (programCounter s)) None
              (set_instructionRegister (readMemory s (programCounter s)) s))
    as (Hc & Hf & Hfinal).
  destruct (executeInstruction _ None (set_conditionalBreakpoints [] _))
    as [c' f' ev'].
  destruct (executeInstruction _ None (set_instructionRegister _ s))
    as [c f ev].
  cbn [completed fired final] in *. subst c' ev' f'.
  destruct c as [[]|]; [|done..].
  unfold checkConditionalBreakpoints.
  cbn [conditionalBreakpoints set_conditionalBreakpoints set_programCounter
       set_instructionCount firstTriggered].
  change (memoryLength (set_instructionCount ?n
            (set_programCounter ?p (set_conditionalBreakpoints [] f))))
    with (memoryLength f).
  change (memoryLength (set_instructionCount ?n (set_programCounter ?p f)))
    with (memoryLength f).
  cbn [programCounter instructionCount set_programCounter set_instructionCount
       set_conditionalBreakpoints onStateChange onHalt].
  set (t := set_instructionCount _ (set_programCounter _ f)).
  assert (forall running hit,
            firstTriggered (set_hitBreakpoint hit (set_running running t))
              (conditionalBreakpoints f)
            = firstTriggered t (conditionalBreakpoints f)) as Hsame.
  { intros running hit. apply firstTriggered_machineView.
    by rewrite machineView_set_hitBreakpoint, machineView_set_running. }
  destruct (firstTriggered t (conditionalBreakpoints f))
    as [condition|] eqn:Hcheck.
  - cbn [final completed].
    change (conditionalBreakpoints (set_hitBreakpoint true
                                      (set_running false t)))
      with (conditionalBreakpoints f).
    rewrite Hsame, ?Hcheck.
    destruct (programCounter f + 1 >=? memoryLength f); by cbn.
  - destruct (programCounter f + 1 >=? memoryLength f); by cbn.
Qed.

End ConditionalBreakpoints.

(** * The history *)

Section HistoryWindow.

Lemma steps_configuration k s : sameConfiguration s (steps k s).
Proof.
  induction k as [|k IH]; [apply sameConfiguration_refl|].
  rewrite steps_S. eapply sameConfiguration_trans; [done|apply step_frame].
Qed.

Lemma step_history_disabled s :
  historyEnabled s = false ->
  executionHistory (final (step s)) = executionHistory s.
Proof.
  intros Hdisabled. destruct (step_frame s) as [_ ->].
  unfold recorded. rewrite Hdisabled. by destruct (_ >=? _).
Qed.

(** X27: with recording disabled no step writes to the history; after
    [toggleHistory(false)] the history is empty and stays empty, so that
    [stepBack] fails, reporting it through [onError], and leaves the
    emulator as it is. *)
Theorem history_disabled s k :
  (historyEnabled s = false ->
   executionHistory (steps k s) = executionHistory s)
  /\ (let t := steps k (toggleHistory false s) in
      executionHistory t = []
      /\ stepBack t
         = Outcome (Return false) t (fire (onError s) (Error NoHistory))).
Proof.
  assert (forall s, historyEnabled s = false ->
                    executionHistory (steps k s) = executionHistory s)
    as Hkeeps.
  { clear s. intros s Hdisabled. induction k as [|k IH]; [done|].
    rewrite steps_S, step_history_disabled; [done|].
    by destruct (steps_configuration k s) as (-> & _). }
  split; [apply Hkeeps|]. intros t.
  assert (executionHistory t = []) as Hempty by by apply Hkeeps.
  split; [done|]. rewrite stepBack_empty by done. subst t.
  by destruct (steps_configuration k (toggleHistory false s))
    as (_ & _ & _ & _ & _ & _ & _ & _ & _ & _ & -> & _).
Qed.

Lemma newest_all {A} n (l : list A) : (length l <= n)%nat -> newest n l = l.
Proof. intros Hshort. unfold newest. by replace (length l - n)%nat with 0%nat by lia. Qed.

Lemma newest_length {A} n (l : list A) :
  length (newest n l) = (length l `min` n)%nat.
Proof. unfold newest. rewrite length_drop. lia. Qed.

(** Pushing on a window, with the shift of [saveStateToHistory]. *)
Lemma newest_push {A} n (l : list A) x :
  (if Z.of_nat (length (newest n l ++ [x])) >? Z.of_nat n
   then tail (newest n l ++ [x])
   else newest n l ++ [x])
  = newest n (l ++ [x]).
Proof.
  rewrite length_app, newest_length. cbn [length].
  destruct (Z.gtb_spec (Z.of_nat (length l `min` n + 1)) (Z.of_nat n))
    as [Hfull|Hroom].
  - unfold newest. rewrite length_app. cbn [length].
    replace (length l + 1 - n)%nat with (S (length l - n)) by lia.
    rewrite <- (drop_app_le l [x]) by lia.
    generalize (l ++ [x]). intros l'. clear.
    generalize (length l - n)%nat. intros i. revert l'.
    induction i as [|i IH]; intros [|y l']; by cbn.
  - rewrite !newest_all; [done|rewrite length_app; cbn; lia|lia].
Qed.

Lemma trace_S k s : trace (S k) s = trace k s ++ [currentSnapshot (steps k s)].
Proof. unfold trace. by rewrite seq_S, map_app. Qed.

(** X28: while recording is enabled, the history is a sliding window: after
    [k] steps that pass the instruction limit it holds the newest
    [maxHistorySize] of the snapshots it held before followed by the
    snapshots taken before each step. *)
Theorem history_is_window s k :
  historyEnabled s = true ->
  Z.of_nat (length (executionHistory s)) <= maxHistorySize s ->
  (forall j, (j < k)%nat ->
             instructionCount (steps j s) < maxInstructions s) ->
  executionHistory (steps k s)
  = newest (Z.to_nat (maxHistorySize s)) (executionHistory s ++ trace k s).
Proof.
  intros Henabled Hbound Hcounts. induction k as [|k IH].
  - cbn. rewrite app_nil_r, newest_all; [done|lia].
  - rewrite steps_S, trace_S, app_assoc, <- newest_push, <- IH
      by (intros j Hj; apply Hcounts; lia).
    destruct (steps_configuration k s)
      as (Henabled' & Hsize & _ & _ & _ & _ & _ & Hmax & _).
    destruct (step_frame (steps k s)) as [_ ->].
    specialize (Hcounts k ltac:(lia)).
    destruct (Z.geb_spec (instructionCount (steps k s))
                (maxInstructions (steps k s))); [lia|].
    unfold recorded, saveStateToHistory.
    rewrite Henabled', Henabled.
    cbn [executionHistory set_executionHistory maxHistorySize].
    rewrite Hsize, Z2Nat.id by lia.
    by destruct (_ >? _).
Qed.

Lemma history_is_window_witness :
  let s := loaded "+00 +0 0" in
  executionHistory (steps 3 s)
  = newest (Z.to_nat (maxHistorySize s)) (executionHistory s ++ trace 3 s).
Proof.
  intros s.
  assert (historyEnabled s = true) as Henabled by evaluate.
  assert (Z.of_nat (length (executionHistory s)) <= maxHistorySize s)
    as Hbound by evaluate.
  assert (forall j, (j < 3)%nat ->
                    instructionCount (steps j s) < maxInstructions s)
    as Hcounts.
  { intros [|[|[|j]]] Hj; [evaluate..|lia]. }
  exact (history_is_window s 3 Henabled Hbound Hcounts).
Defined.

End HistoryWindow.

(** * Which condition is reported, and undoing a step *)

Section FirstCondition.




End FirstCondition.

Section UndoRedo.

Lemma emulator_ext s t :
  accumulator s = accumulator t ->
  programCounter s = programCounter t ->
  instructionRegister s = instructionRegister t ->
  memorySize s = memorySize t ->
  memory s = memory t ->
  callStack s = callStack t ->
  maxCallDepth s = maxCallDepth t ->
  breakpoints s = breakpoints t ->
  conditionalBreakpoints s = conditionalBreakpoints t ->
  executionHistory s = executionHistory t ->
  maxHistorySize s = maxHistorySize t ->
  historyEnabled s = historyEnabled t ->
  watches s = watches t ->
  protectedMemory s = protectedMemory t ->
  memoryAccessCounts s = memoryAccessCounts t ->
  heatmapEnabled s = heatmapEnabled t ->
  running s = running t ->
  instructionCount s = instructionCount t ->
  maxInstructions s = maxInstructions t ->
  hitBreakpoint s = hitBreakpoint t ->
  onStateChange s = onStateChange t ->
  onError s = onError t ->
  onHalt s = onHalt t ->
  s = t.
Proof. destruct s, t. cbn. by intros; subst. Qed.

Lemma executeInstruction_memorySize opcode operand s :
  memorySize (final (executeInstruction opcode operand s)) = memorySize s.
Proof. unfold_exec. repeat case_match; by cbn. Qed.

Lemma step_memorySize s : memorySize (final (step s)) = memorySize s.
Proof.
  unfold step. fold (recorded s).
  destruct (_ >=? _); [done|].
  replace (memorySize s) with (memorySize (recorded s))
    by (rewrite recorded_unfold; done).
  generalize (recorded s). clear. intros s.
  destruct (bool_decide _); [done|].
  destruct (_ || _); [done|].
  cbn [decodeInstruction].
  match goal with |- context [executeInstruction ?o ?op ?st] =>
    pose proof (executeInstruction_memorySize o op st) as Hexec;
    destruct (executeInstruction o op st) as [c f ev] end.
  cbn in Hexec.
  destruct c as [[]|]; cbn; [|done..].
  repeat case_match; by cbn.
Qed.

Lemma firstTriggered_accessCounts counts s conditions :
  firstTriggered (set_memoryAccessCounts counts s) conditions
  = firstTriggered s conditions.
Proof.
  induction conditions as [|c conditions IH]; [done|]. cbn [firstTriggered].
  change (conditionValue (set_memoryAccessCounts counts s) c)
    with (conditionValue s c).
  by rewrite IH.
Qed.

Lemma recorded_accessCounts counts s :
  recorded (set_memoryAccessCounts counts s)
  = set_memoryAccessCounts counts (recorded s).
Proof.
  destruct s. unfold recorded, saveStateToHistory, currentSnapshot. cbn.
  repeat case_match; reflexivity.
Qed.

(** The access counters are not read by the instructions. *)
Lemma executeInstruction_accessCounts counts opcode operand s :
  let r := executeInstruction opcode operand s in
  let r' := executeInstruction opcode operand
              (set_memoryAccessCounts counts s) in
  completed r' = completed r /\ fired r' = fired r
  /\ final r' = set_memoryAccessCounts (memoryAccessCounts (final r'))
                                       (final r).
Proof.
  destruct s. unfold_exec_tests. cbn.
  repeat case_match; cbn; done.
Qed.

Lemma step_accessCounts counts s :
  let r := step s in
  let r' := step (set_memoryAccessCounts counts s) in
  completed r' = completed r /\ fired r' = fired r
  /\ currentSnapshot (final r') = currentSnapshot (final r)
  /\ executionHistory (final r') = executionHistory (final r).
Proof.
  unfold step.
  fold (recorded s) (recorded (set_memoryAccessCounts counts s)).
  rewrite recorded_accessCounts.
  cbn [instructionCount maxInstructions historyEnabled onError
       set_memoryAccessCounts].
  destruct (instructionCount s >=? maxInstructions s); [done|].
  generalize (recorded s). clear s. intros s.
  cbn [programCounter breakpoints onHalt set_memoryAccessCounts].
  destruct (bool_decide (programCounter s ∈ breakpoints s)); [done|].
  change (memoryLength (set_memoryAccessCounts counts s))
    with (memoryLength s).
  destruct ((programCounter s <? 0) || (programCounter s >=? memoryLength s));
    [done|].
  cbn [decodeInstruction instructionRegister set_instructionRegister].
  change (readMemory (set_memoryAccessCounts counts s) (programCounter s))
    with (readMemory s (programCounter s)).
  change (set_instructionRegister ?v (set_memoryAccessCounts counts s))
    with (set_memoryAccessCounts counts (set_instructionRegister v s)).
  destruct (executeInstruction_accessCounts counts
              (readMemory s (programCounter s)) None
              (set_instructionRegister (readMemory s (programCounter s)) s))
    as (Hc & Hf & Hfinal).
  destruct (executeInstruction _ None (set_memoryAccessCounts counts _))
    as [c' f' ev'].
  destruct (executeInstruction _ None (set_instructionRegister _ s))
    as [c f ev].
  cbn [completed fired final] in *. subst c' ev'. rewrite Hfinal.
  generalize (memoryAccessCounts f'). clear. intros counts.
  destruct c as [[]|]; [|done..].
  unfold checkConditionalBreakpoints.
  cbn [conditionalBreakpoints set_memoryAccessCounts set_programCounter
       set_instructionCount].
  change (memoryLength (set_instructionCount ?n
            (set_programCounter ?p (set_memoryAccessCounts counts f))))
    with (memoryLength f).
  change (memoryLength (set_instructionCount ?n (set_programCounter ?p f)))
    with (memoryLength f).
  cbn [programCounter instructionCount set_programCounter set_instructionCount
       set_memoryAccessCounts onStateChange onHalt].
  change (set_instructionCount ?n
            (set_programCounter ?p (set_memoryAccessCounts counts f)))
    with (set_memoryAccessCounts counts
            (set_instructionCount n (set_programCounter p f))).
  rewrite firstTriggered_accessCounts.
  destruct (firstTriggered _ (conditionalBreakpoints f)); [done|].
  by destruct (programCounter f + 1 >=? memoryLength f).
Qed.

(** X30: a step can be undone and redone: while the history has room and
    the instruction limit is not reached, [stepBack] after a step gives the
    registers, the memory, the call stack and the history before the step
    back, and stepping again from there returns, reports and produces
    exactly what the first step did.  (The access counters of the heat map
    are not restored by [stepBack].) *)
Theorem undo_redo s :
  historyEnabled s = true ->
  Z.of_nat (length (executionHistory s)) < maxHistorySize s ->
  instructionCount s < maxInstructions s ->
  let s1 := final (step s) in
  let s2 := final (stepBack s1) in
  completed (stepBack s1) = Return true
  /\ currentSnapshot s2 = currentSnapshot s
  /\ executionHistory s2 = executionHistory s
  /\ memoryAccessCounts s2 = memoryAccessCounts s1
  /\ completed (step s2) = completed (step s)
  /\ fired (step s2) = fired (step s)
  /\ currentSnapshot (final (step s2)) = currentSnapshot s1
  /\ executionHistory (final (step s2)) = executionHistory s1.
Proof.
  intros Henabled Hroom Hlimit s1 s2.
  destruct (step_frame s) as [Hcfg Hhistory]. fold s1 in Hcfg, Hhistory.
  destruct (Z.geb_spec (instructionCount s) (maxInstructions s)); [lia|].
  unfold recorded in Hhistory.
  rewrite Henabled, saveStateToHistory_room in Hhistory by done.
  destruct (stepBack_restores s1 _ _ Hhistory) as (Hback & Hsnap & Hundone).
  fold s2 in Hsnap, Hundone.
  assert (memoryAccessCounts s2 = memoryAccessCounts s1) as Hcounts.
  { subst s2. unfold stepBack. by rewrite Hhistory, last_snoc. }
  assert (machineView s2
          = machineView (set_memoryAccessCounts (memoryAccessCounts s1) s))
    as Hview.
  { pose proof (step_memorySize s) as Hsize.
    pose proof (step_heatmapEnabled s) as Hheat.
    fold s1 in Hsize, Hheat.
    destruct Hcfg as (? & ? & ? & ? & ? & ? & ? & ? & ? & ? & ? & ?).
    apply emulator_ext; cbn; try done;
      try exact (f_equal saved_accumulator Hsnap);
      try exact (f_equal saved_programCounter Hsnap);
      try exact (f_equal saved_instructionRegister Hsnap);
      try exact (f_equal saved_memory Hsnap);
      try exact (f_equal saved_callStack Hsnap);
      try exact (f_equal saved_instructionCount Hsnap);
      subst s2; unfold stepBack; rewrite Hhistory, last_snoc; by cbn. }
  destruct (step_same_view _ _ Hview) as (Hc & Hf & Hv).
  destruct (step_accessCounts (memoryAccessCounts s1) s)
    as (Hc' & Hf' & Hsnap' & _).
  destruct (machineView_fields _ _ Hv) as (Hsnap2 & _).
  split; [done|]. split; [done|]. split; [done|]. split; [done|].
  split; [rewrite Hc; exact Hc'|]. split; [rewrite Hf; exact Hf'|].
  split; [rewrite Hsnap2; exact Hsnap'|].
  destruct (step_frame s2) as [_ ->].
  destruct (machineView_fields _ _ Hview)
    as (Hregisters & (Henabled2 & Hsize2 & _ & _ & _ & _ & _ & Hmax2 & _) & _).
  pose proof (f_equal saved_instructionCount Hregisters) as Hcount2.
  cbn in Hcount2, Henabled2, Hsize2, Hmax2.
  destruct (Z.geb_spec (instructionCount s2) (maxInstructions s2)); [lia|].
  unfold recorded.
  rewrite <- Henabled2, Henabled, saveStateToHistory_room
    by (rewrite Hundone; lia).
  rewrite Hundone, Hsnap. symmetry. exact Hhistory.
Qed.

Lemma undo_redo_witness :
  let s := loaded "+00 +0 0" in
  completed (stepBack (final (step s))) = Return true
  /\ currentSnapshot (final (stepBack (final (step s)))) = currentSnapshot s.
Proof.
  intros s.
  assert (historyEnabled s = true) as Henabled by evaluate.
  assert (Z.of_nat (length (executionHistory s)) < maxHistorySize s)
    as Hroom by evaluate.
  assert (instructionCount s < maxInstructions s) as Hlimit by evaluate.
  destruct (undo_redo s Henabled Hroom Hlimit) as (Hback & Hsnap & _).
  exact (conj Hback Hsnap).
Defined.

End UndoRedo.
